(** * noisegen: the noise worklet and the entropy pool, embedded in Rocq

    Sources embedded here:
    - [src/audio/worklets/NoiseProcessor.ts]: the xoshiro128++ generator,
      the entropy mixing, the pink and brown filters, the message handler
      and the render callback [process];
    - [src/audio/entropy/EntropyRng.ts]: [imul32], [rotl32], [mixWord],
      [stir], [nextU32], [getWords], the event buffer and the mouse and key
      handlers;
    - [src/audio/entropy/EntropyFeeder.ts]: the whole class;
    - [src/ui/state.ts]: the four dB, slider and gain mappings;
    - AudioEngine: [init], [setPlaying], [setMode], [setVolumeDb] and
      [dispose], as far as they reach the worklet port and the master gain;
    - PomodoroController: the timer, the low-pass random walk and the
      break dip.

    Numbers.  A JavaScript number is an IEEE-754 double.  The embedding
    keeps three kinds of numbers apart:
    - 32-bit words and sample counters are integers, modelled in [Z]; the
      operators [<<], [>>>], [|], [^] and [Math.imul] are modelled with
      their ECMAScript conversions ([ToInt32], [ToUint32], shift count
      masked to five bits) in module [JS];
    - the crossfade progress and the sample rate only go through field
      operations and [Math.floor]; they are modelled as exact rationals
      in [Q], which keeps the crossfade state machine executable;
    - audio samples and filter accumulators go through [Math.exp],
      [Math.sqrt], [Math.cos] and [Math.sin]; they are modelled as real
      numbers in [R].
    Rounding of doubles is therefore idealised away in the last two. *)

From stdpp Require Import list.
From Stdlib Require Import ZArith QArith Qround Reals Lia List Bool.
From Stdlib Require Lqa Lra.
Import ListNotations.

Local Open Scope Z_scope.

(** ** ECMAScript integer conversions and 32-bit operators *)

Module JS.

Definition ToUint32 (z : Z) : Z := z mod 2 ^ 32.

Definition ToInt32 (z : Z) : Z := (z + 2 ^ 31) mod 2 ^ 32 - 2 ^ 31.

(** [x << k] *)
Definition shl (x k : Z) : Z :=
  ToInt32 (Z.shiftl (ToInt32 x) (ToUint32 k mod 32)).

(** [x >>> k] *)
Definition ushr (x k : Z) : Z :=
  Z.shiftr (ToUint32 x) (ToUint32 k mod 32).

(** [x | y] *)
Definition bor (x y : Z) : Z := Z.lor (ToInt32 x) (ToInt32 y).

(** [x ^ y] *)
Definition bxor (x y : Z) : Z := Z.lxor (ToInt32 x) (ToInt32 y).

(** [Math.imul(x, y)] *)
Definition imul (x y : Z) : Z := ToInt32 (ToUint32 x * ToUint32 y).

End JS.

(** A [Uint32Array] element, or a PRNG state field after [>>> 0]. *)
Definition word32 (z : Z) : Prop := 0 <= z < 2 ^ 32.

Definition word32b (z : Z) : bool := (0 <=? z) && (z <? 2 ^ 32).

(** ** NoiseProcessor.ts: xoshiro128++ *)

Record XoshiroState : Type := mkXoshiro { s0 : Z; s1 : Z; s2 : Z; s3 : Z }.

Definition wordState (st : XoshiroState) : Prop :=
  word32 (s0 st) /\ word32 (s1 st) /\ word32 (s2 st) /\ word32 (s3 st).

Definition wordStateb (st : XoshiroState) : bool :=
  word32b (s0 st) && word32b (s1 st) && word32b (s2 st) && word32b (s3 st).

(** [function rotl(x, k) { return ((x << k) | (x >>> (32 - k))) >>> 0; }] *)
Definition rotl (x k : Z) : Z :=
  JS.ushr (JS.bor (JS.shl x k) (JS.ushr x (32 - k))) 0.

(** [xoshiroNext]: the state is mutated in place in the source; here the
    new state is returned next to the 32-bit result. *)
Definition xoshiroNext (state : XoshiroState) : XoshiroState * Z :=
  let result := JS.ushr (rotl (JS.ushr (s0 state + s3 state) 0) 7 + s0 state) 0 in
  let t := JS.ushr (JS.shl (s1 state) 9) 0 in
  let a2 := JS.ushr (JS.bxor (s2 state) (s0 state)) 0 in
  let a3 := JS.ushr (JS.bxor (s3 state) (s1 state)) 0 in
  let a1 := JS.ushr (JS.bxor (s1 state) a2) 0 in
  let a0 := JS.ushr (JS.bxor (s0 state) a3) 0 in
  let c2 := JS.ushr (JS.bxor a2 t) 0 in
  let c3 := rotl a3 11 in
  (mkXoshiro a0 a1 c2 c3, result).

(** [nextSignedFloat]: [(xoshiroNext(state) / 0x100000000) * 2 - 1].  The
    division by a power of two, the doubling and the subtraction are exact
    on doubles for a 32-bit operand, so the real number is the double. *)
Definition nextSignedFloat (state : XoshiroState) : XoshiroState * R :=
  let r := xoshiroNext state in
  (fst r, (IZR (snd r) / 4294967296 * 2 - 1)%R).

(** [n] successive calls of [nextSignedFloat], outputs in call order. *)
Fixpoint whiteRun (n : nat) (state : XoshiroState) : XoshiroState * list R :=
  match n with
  | O => (state, [])
  | S m =>
      let r := nextSignedFloat state in
      let rest := whiteRun m (fst r) in
      (fst rest, snd r :: snd rest)
  end.

(** [n] successive calls of [xoshiroNext], results in call order. *)
Fixpoint xoshiroRun (n : nat) (state : XoshiroState) : XoshiroState * list Z :=
  match n with
  | O => (state, [])
  | S m =>
      let r := xoshiroNext state in
      let rest := xoshiroRun m (fst r) in
      (fst rest, snd r :: snd rest)
  end.

(** [initState]: [seeds[i] ?? constant]; an index past the end of the
    typed array reads [undefined]. *)
Definition initState (seeds : list Z) : XoshiroState :=
  mkXoshiro (nth 0 seeds 305419896) (nth 1 seeds 2596069104)
            (nth 2 seeds 3735928559) (nth 3 seeds 3405691582).

(** The xoshiro128++ step as the specification words it: plain integer
    arithmetic with explicit reductions modulo 2^32. *)
Module XoshiroSpec.

Definition rotl (x k : Z) : Z :=
  Z.lor (Z.shiftl x k) (Z.shiftr x (32 - k)) mod 2 ^ 32.

Definition next (st : XoshiroState) : XoshiroState * Z :=
  let result := (rotl ((s0 st + s3 st) mod 2 ^ 32) 7 + s0 st) mod 2 ^ 32 in
  let t := Z.shiftl (s1 st) 9 mod 2 ^ 32 in
  let x2 := Z.lxor (s2 st) (s0 st) in
  let x3 := Z.lxor (s3 st) (s1 st) in
  let x1 := Z.lxor (s1 st) x2 in
  let x0 := Z.lxor (s0 st) x3 in
  let y2 := Z.lxor x2 t in
  let y3 := rotl x3 11 in
  (mkXoshiro x0 x1 y2 y3, result).

End XoshiroSpec.

(** [mixEntropy], first loop: the body run for index [i] and [words[i]]. *)
Definition mixWordAt (i : nat) (word : Z) (state : XoshiroState) : XoshiroState :=
  match (i mod 4)%nat with
  | 0%nat =>
      mkXoshiro (JS.ushr (JS.bxor (s0 state) word) 0) (s1 state) (s2 state) (s3 state)
  | 1%nat =>
      mkXoshiro (s0 state) (JS.ushr (JS.bxor (s1 state) (rotl word 5)) 0)
                (s2 state) (s3 state)
  | 2%nat =>
      mkXoshiro (s0 state) (s1 state)
                (JS.ushr (JS.bxor (s2 state) (rotl word 13)) 0) (s3 state)
  | _ =>
      mkXoshiro (s0 state) (s1 state) (s2 state)
                (JS.ushr (JS.bxor (s3 state) (rotl word 21)) 0)
  end.

(** [for (let i = 0; i < words.length; i++)], entered at index [i] with the
    words from [i] on still to visit. *)
Fixpoint mixLoop (i : nat) (words : list Z) (state : XoshiroState) : XoshiroState :=
  match words with
  | [] => state
  | word :: rest => mixLoop (S i) rest (mixWordAt i word state)
  end.

(** [n] calls of [xoshiroNext] whose results are dropped. *)
Fixpoint advance (n : nat) (state : XoshiroState) : XoshiroState :=
  match n with
  | O => state
  | S m => advance m (fst (xoshiroNext state))
  end.

Definition mixEntropy (state : XoshiroState) (words : list Z) : XoshiroState :=
  advance 8 (mixLoop 0 words state).

(** The per-word mixing as the specification words it: word [i] is XORed
    into field [i mod 4], rotated left by 0, 5, 13 or 21 bits. *)
Module MixSpec.

Definition rotation (i : nat) : Z :=
  match (i mod 4)%nat with
  | 0%nat => 0
  | 1%nat => 5
  | 2%nat => 13
  | _ => 21
  end.

Definition rotated (i : nat) (word : Z) : Z :=
  if (rotation i =? 0) then word else XoshiroSpec.rotl word (rotation i).

Definition xorField (i : nat) (v : Z) (st : XoshiroState) : XoshiroState :=
  match (i mod 4)%nat with
  | 0%nat => mkXoshiro (Z.lxor (s0 st) v) (s1 st) (s2 st) (s3 st)
  | 1%nat => mkXoshiro (s0 st) (Z.lxor (s1 st) v) (s2 st) (s3 st)
  | 2%nat => mkXoshiro (s0 st) (s1 st) (Z.lxor (s2 st) v) (s3 st)
  | _ => mkXoshiro (s0 st) (s1 st) (s2 st) (Z.lxor (s3 st) v)
  end.

Definition mixAt (i : nat) (word : Z) (st : XoshiroState) : XoshiroState :=
  xorField i (rotated i word) st.

(** All words of the batch, in index order from index [i]. *)
Fixpoint mixFrom (i : nat) (words : list Z) (st : XoshiroState) : XoshiroState :=
  match words with
  | [] => st
  | word :: rest => mixFrom (S i) rest (mixAt i word st)
  end.

End MixSpec.

(** ** NoiseProcessor.ts: the colouring filters *)

Record PinkState : Type := mkPink { b0 : R; b1 : R; b2 : R }.

Definition initPinkState : PinkState := mkPink 0 0 0.

Definition pinkFilter (pink : PinkState) (white : R) : PinkState * R :=
  let n0 := (0.99765 * b0 pink + white * 0.0990460)%R in
  let n1 := (0.96300 * b1 pink + white * 0.2965164)%R in
  let n2 := (0.57000 * b2 pink + white * 1.0526913)%R in
  let output := (n0 + n1 + n2 + white * 0.1848)%R in
  (mkPink n0 n1 n2, (output * 0.16)%R).

Record BrownState : Type := mkBrown { b : R; decay : R; scale : R; gain : R }.

Definition initBrownState (sampleRate : Q) : BrownState :=
  let tau := 0.02%R in
  let decay := exp (-1 / (Q2R sampleRate * tau)) in
  let scale := (1 - decay)%R in
  let gain := (sqrt ((1 + decay) / (1 - decay)) * 0.5)%R in
  mkBrown 0 decay scale gain.

Definition brownFilter (brown : BrownState) (white : R) : BrownState * R :=
  let x := (decay brown * b brown + scale brown * white)%R in
  let y := if Rlt_dec 1 x then 1%R else x in
  let z := if Rlt_dec y (-1) then (-1)%R else y in
  (mkBrown z (decay brown) (scale brown) (gain brown), (z * gain brown)%R).

(** The brown filter fed a whole sequence of white samples: the state
    after the last one and the list of (accumulator, returned sample)
    pairs, one for every update. *)
Fixpoint brownRun (brown : BrownState) (whites : list R)
  : BrownState * list (BrownState * R) :=
  match whites with
  | [] => (brown, [])
  | white :: rest =>
      let r := brownFilter brown white in
      let tl := brownRun (fst r) rest in
      (fst tl, r :: snd tl)
  end.

(** The three constants of a brown state as [initBrownState] derives them
    from the sample rate, [gain] written as the specification does. *)
Definition brownConstants (sampleRate : Q) (st : BrownState) : Prop :=
  decay st = exp (-1 / (Q2R sampleRate * 0.02))
  /\ scale st = (1 - decay st)%R
  /\ gain st = (0.5 * sqrt ((1 + decay st) / (1 - decay st)))%R.

(** A brown state whose accumulator lies in [[-1, 1]]. *)
Definition brownClamped (st : BrownState) : Prop := (-1 <= b st <= 1)%R.

(** ** NoiseProcessor.ts: messages and processor state *)

Inductive Mode : Type := Pink | Brown.

Definition Mode_eqb (m1 m2 : Mode) : bool :=
  match m1, m2 with
  | Pink, Pink | Brown, Brown => true
  | _, _ => false
  end.

Inductive WorkletMessage : Type :=
| EntropySeeds (seeds : list Z)
| InitialSeeds (seeds : list Z)
| SetMode (mode : Mode).

(** What the processor posts on its port. *)
Inductive PortMessage : Type := NeedSeed.

Record NoiseProcessor : Type := mkProcessor {
  stateL : XoshiroState;
  stateR : XoshiroState;
  pinkL : PinkState;
  pinkR : PinkState;
  brownL : BrownState;
  brownR : BrownState;
  currentMode : Mode;
  targetMode : Mode;
  crossfadeProgress : Q;
  crossfadeSamplesRemaining : Z;
  crossfadeDuration : Q;
  seedQueue : list (list Z);
  samplesSinceLastSeed : Z;
  seedRequestThreshold : Z;
  initialized : bool
}.

(** Field assignments. *)
Definition set_states (l r : XoshiroState) (p : NoiseProcessor) : NoiseProcessor :=
  mkProcessor l r (pinkL p) (pinkR p) (brownL p) (brownR p)
    (currentMode p) (targetMode p) (crossfadeProgress p)
    (crossfadeSamplesRemaining p) (crossfadeDuration p) (seedQueue p)
    (samplesSinceLastSeed p) (seedRequestThreshold p) (initialized p).

Definition set_filters (pl pr : PinkState) (bl br : BrownState)
    (p : NoiseProcessor) : NoiseProcessor :=
  mkProcessor (stateL p) (stateR p) pl pr bl br
    (currentMode p) (targetMode p) (crossfadeProgress p)
    (crossfadeSamplesRemaining p) (crossfadeDuration p) (seedQueue p)
    (samplesSinceLastSeed p) (seedRequestThreshold p) (initialized p).

Definition set_currentMode (m : Mode) (p : NoiseProcessor) : NoiseProcessor :=
  mkProcessor (stateL p) (stateR p) (pinkL p) (pinkR p) (brownL p) (brownR p)
    m (targetMode p) (crossfadeProgress p)
    (crossfadeSamplesRemaining p) (crossfadeDuration p) (seedQueue p)
    (samplesSinceLastSeed p) (seedRequestThreshold p) (initialized p).

Definition set_targetMode (m : Mode) (p : NoiseProcessor) : NoiseProcessor :=
  mkProcessor (stateL p) (stateR p) (pinkL p) (pinkR p) (brownL p) (brownR p)
    (currentMode p) m (crossfadeProgress p)
    (crossfadeSamplesRemaining p) (crossfadeDuration p) (seedQueue p)
    (samplesSinceLastSeed p) (seedRequestThreshold p) (initialized p).

Definition set_crossfadeProgress (t : Q) (p : NoiseProcessor) : NoiseProcessor :=
  mkProcessor (stateL p) (stateR p) (pinkL p) (pinkR p) (brownL p) (brownR p)
    (currentMode p) (targetMode p) t
    (crossfadeSamplesRemaining p) (crossfadeDuration p) (seedQueue p)
    (samplesSinceLastSeed p) (seedRequestThreshold p) (initialized p).

Definition set_crossfadeSamplesRemaining (n : Z) (p : NoiseProcessor)
  : NoiseProcessor :=
  mkProcessor (stateL p) (stateR p) (pinkL p) (pinkR p) (brownL p) (brownR p)
    (currentMode p) (targetMode p) (crossfadeProgress p)
    n (crossfadeDuration p) (seedQueue p)
    (samplesSinceLastSeed p) (seedRequestThreshold p) (initialized p).

Definition set_seedQueue (q : list (list Z)) (p : NoiseProcessor) : NoiseProcessor :=
  mkProcessor (stateL p) (stateR p) (pinkL p) (pinkR p) (brownL p) (brownR p)
    (currentMode p) (targetMode p) (crossfadeProgress p)
    (crossfadeSamplesRemaining p) (crossfadeDuration p) q
    (samplesSinceLastSeed p) (seedRequestThreshold p) (initialized p).

Definition set_samplesSinceLastSeed (n : Z) (p : NoiseProcessor) : NoiseProcessor :=
  mkProcessor (stateL p) (stateR p) (pinkL p) (pinkR p) (brownL p) (brownR p)
    (currentMode p) (targetMode p) (crossfadeProgress p)
    (crossfadeSamplesRemaining p) (crossfadeDuration p) (seedQueue p)
    n (seedRequestThreshold p) (initialized p).

Definition set_initialized (v : bool) (p : NoiseProcessor) : NoiseProcessor :=
  mkProcessor (stateL p) (stateR p) (pinkL p) (pinkR p) (brownL p) (brownR p)
    (currentMode p) (targetMode p) (crossfadeProgress p)
    (crossfadeSamplesRemaining p) (crossfadeDuration p) (seedQueue p)
    (samplesSinceLastSeed p) (seedRequestThreshold p) v.

(** The constructor's fallback seeds:
    [((currentFrame * 2654435761) ^ (i * 0x9e3779b9)) >>> 0] for [i < 8].
    The product is taken exactly, as the double product is while it stays
    below 2^53. *)
Definition fallbackSeeds (currentFrame : Z) : list Z :=
  map (fun i => JS.ushr (JS.bxor (currentFrame * 2654435761)
                                 (Z.of_nat i * 2654435769)) 0)
      (seq 0 8).

(** [seeds.subarray(lo, hi)] *)
Definition subarray (lo hi : nat) (seeds : list Z) : list Z :=
  firstn (hi - lo) (skipn lo seeds).

(** [new NoiseProcessor()], with the two globals of the worklet scope the
    constructor reads. *)
Definition newNoiseProcessor (sampleRate : Q) (currentFrame : Z) : NoiseProcessor :=
  let fallback := fallbackSeeds currentFrame in
  {| stateL := initState (subarray 0 4 fallback);
     stateR := initState (subarray 4 8 fallback);
     pinkL := initPinkState;
     pinkR := initPinkState;
     brownL := initBrownState sampleRate;
     brownR := initBrownState sampleRate;
     currentMode := Pink;
     targetMode := Pink;
     crossfadeProgress := 1;
     crossfadeSamplesRemaining := 0;
     crossfadeDuration := 0.05;
     seedQueue := [];
     samplesSinceLastSeed := 0;
     seedRequestThreshold := Qfloor (sampleRate * 0.5);
     initialized := false |}.

(** [handleMessage] *)
Definition handleMessage (sampleRate : Q) (msg : WorkletMessage)
    (p : NoiseProcessor) : NoiseProcessor :=
  match msg with
  | InitialSeeds seeds =>
      if negb (initialized p) && (8 <=? length seeds)%nat
      then set_initialized true
             (set_states (initState (subarray 0 4 seeds))
                         (initState (subarray 4 8 seeds)) p)
      else p
  | EntropySeeds seeds => set_seedQueue (seedQueue p ++ [seeds]) p
  | SetMode mode =>
      if Mode_eqb mode (targetMode p) then p
      else
        let p1 := set_targetMode mode p in
        if Qle_bool 1 (crossfadeProgress p1)
        then set_crossfadeSamplesRemaining
               (Qfloor (crossfadeDuration p1 * sampleRate))
               (set_crossfadeProgress 0 p1)
        else p1
  end.

(** The messages of one task-queue turn, delivered in order. *)
Definition handleMessages (sampleRate : Q) (msgs : list WorkletMessage)
    (p : NoiseProcessor) : NoiseProcessor :=
  fold_left (fun acc msg => handleMessage sampleRate msg acc) msgs p.

(** ** NoiseProcessor.ts: [process] *)

(** Lines 257-265: the seed request. *)
Definition requestSeed (blockSize : nat) (p : NoiseProcessor)
  : NoiseProcessor * list PortMessage :=
  let n := samplesSinceLastSeed p + Z.of_nat blockSize in
  if (seedRequestThreshold p <=? n) && (length (seedQueue p) <? 2)%nat
  then (set_samplesSinceLastSeed 0 p, [NeedSeed])
  else (set_samplesSinceLastSeed n p, []).

(** Lines 267-274: [seedQueue.shift()] and the mixing of the batch. *)
Definition mixQueued (p : NoiseProcessor) : NoiseProcessor :=
  match seedQueue p with
  | [] => p
  | seed :: rest =>
      let halfLen := (length seed / 2)%nat in
      set_states (mixEntropy (stateL p) (subarray 0 halfLen seed))
                 (mixEntropy (stateR p) (skipn halfLen seed))
                 (set_seedQueue rest p)
  end.

Definition selectSample (m : Mode) (pinkSample brownSample : R) : R :=
  if Mode_eqb m Pink then pinkSample else brownSample.

(** The equal-power blend of the crossfading branch, for progress [t]. *)
Definition oldGain (t : Q) : R := cos (0.5 * PI * Q2R t).
Definition newGain (t : Q) : R := sin (0.5 * PI * Q2R t).

(** Lines 282-328: one iteration of the sample loop.  [crossfading] and
    [crossfadeIncrement] are the two constants computed before the loop. *)
Definition renderSample (crossfading : bool) (crossfadeIncrement : Q)
    (p : NoiseProcessor) : NoiseProcessor * (R * R) :=
  let wl := nextSignedFloat (stateL p) in
  let wr := nextSignedFloat (stateR p) in
  let whiteL := snd wl in
  let whiteR := snd wr in
  let pkl := pinkFilter (pinkL p) whiteL in
  let pkr := pinkFilter (pinkR p) whiteR in
  let pinkSampleL := snd pkl in
  let pinkSampleR := snd pkr in
  let brl := brownFilter (brownL p) whiteL in
  let brr := brownFilter (brownR p) whiteR in
  let brownSampleL := snd brl in
  let brownSampleR := snd brr in
  let p1 := set_filters (fst pkl) (fst pkr) (fst brl) (fst brr)
              (set_states (fst wl) (fst wr) p) in
  if crossfading then
    let t := crossfadeProgress p1 in
    let oldL := selectSample (currentMode p1) pinkSampleL brownSampleL in
    let oldR := selectSample (currentMode p1) pinkSampleR brownSampleR in
    let newL := selectSample (targetMode p1) pinkSampleL brownSampleL in
    let newR := selectSample (targetMode p1) pinkSampleR brownSampleR in
    let sampleL := (oldGain t * oldL + newGain t * newL)%R in
    let sampleR := (oldGain t * oldR + newGain t * newR)%R in
    let p2 := set_crossfadeSamplesRemaining (crossfadeSamplesRemaining p1 - 1)
                (set_crossfadeProgress (t + crossfadeIncrement)%Q p1) in
    let p3 := if crossfadeSamplesRemaining p2 <=? 0
              then set_crossfadeProgress 1 (set_currentMode (targetMode p2) p2)
              else p2 in
    (p3, (sampleL, sampleR))
  else
    (p1, (selectSample (currentMode p1) pinkSampleL brownSampleL,
          selectSample (currentMode p1) pinkSampleR brownSampleR)).

(** What one iteration of the sample loop outputs for mode [m]: the
    pink or the brown sample of each channel, as the loop body computes
    them from the state [p] it is entered with. *)
Definition modeSamples (m : Mode) (p : NoiseProcessor) : R * R :=
  let whiteL := snd (nextSignedFloat (stateL p)) in
  let whiteR := snd (nextSignedFloat (stateR p)) in
  (selectSample m (snd (pinkFilter (pinkL p) whiteL))
                  (snd (brownFilter (brownL p) whiteL)),
   selectSample m (snd (pinkFilter (pinkR p) whiteR))
                  (snd (brownFilter (brownR p) whiteR))).

(** [oldGain * old + newGain * new] on both channels. *)
Definition blend (t : Q) (old new : R * R) : R * R :=
  ((oldGain t * fst old + newGain t * fst new)%R,
   (oldGain t * snd old + newGain t * snd new)%R).

(** [for (let i = 0; i < blockSize; i++)] *)
Fixpoint renderLoop (n : nat) (crossfading : bool) (crossfadeIncrement : Q)
    (p : NoiseProcessor) : NoiseProcessor * list (R * R) :=
  match n with
  | O => (p, [])
  | S m =>
      let r := renderSample crossfading crossfadeIncrement p in
      let rest := renderLoop m crossfading crossfadeIncrement (fst r) in
      (fst rest, snd r :: snd rest)
  end.

Record Rendered : Type := mkRendered {
  after : NoiseProcessor;
  posted : list PortMessage;
  samples : list (R * R)
}.

(** Lines 276-280. *)
Definition crossfadingOf (p : NoiseProcessor) : bool :=
  0 <? crossfadeSamplesRemaining p.

Definition crossfadeIncrementOf (p : NoiseProcessor) : Q :=
  if crossfadingOf p then 1 / inject_Z (crossfadeSamplesRemaining p) else 0.

(** [process] when both output channels are present, each of length
    [blockSize]. *)
Definition processBlock (blockSize : nat) (p : NoiseProcessor) : Rendered :=
  let rq := requestSeed blockSize p in
  let p2 := mixQueued (fst rq) in
  let r := renderLoop blockSize (crossfadingOf p2) (crossfadeIncrementOf p2) p2 in
  mkRendered (fst r) (snd rq) (snd r).

(** [process]: [None] stands for a call without a stereo output buffer,
    where the method returns before touching anything. *)
Definition process (output : option nat) (p : NoiseProcessor) : Rendered :=
  match output with
  | None => mkRendered p [] []
  | Some blockSize => processBlock blockSize p
  end.

(** ** The processor driven by its host *)

Inductive Event : Type :=
| Message (msg : WorkletMessage)
| Render (blockSize : nat).

Definition step (sampleRate : Q) (e : Event) (p : NoiseProcessor) : NoiseProcessor :=
  match e with
  | Message msg => handleMessage sampleRate msg p
  | Render blockSize => after (processBlock blockSize p)
  end.

Definition run (sampleRate : Q) (events : list Event) (p : NoiseProcessor)
  : NoiseProcessor :=
  fold_left (fun acc e => step sampleRate e acc) events p.

(** Render calls only, one per block size, and the samples they produce. *)
Definition renders (blocks : list nat) : list Event := map Render blocks.

Definition totalSamples (blocks : list nat) : Z := Z.of_nat (list_sum blocks).

(** States the processor can be in between two callbacks. *)
Definition reachable (sampleRate : Q) (p : NoiseProcessor) : Prop :=
  exists currentFrame events,
    p = run sampleRate events (newNoiseProcessor sampleRate currentFrame).

(** ** EntropyRng.ts *)

Module EntropyRng.

Definition POOL_SIZE : nat := 8.

(** [Math.imul(a, b) >>> 0] *)
Definition imul32 (a b : Z) : Z := JS.ushr (JS.imul a b) 0.

(** [((x << k) | (x >>> (32 - k))) >>> 0] *)
Definition rotl32 (x k : Z) : Z :=
  JS.ushr (JS.bor (JS.shl x k) (JS.ushr x (32 - k))) 0.

(** [mixWord]: an index outside the array reads [undefined] and returns. *)
Definition mixWord (pool : list Z) (word : Z) (index : nat) : list Z :=
  match pool !! index with
  | None => pool
  | Some poolVal =>
      let mixed := JS.ushr (JS.bxor poolVal (rotl32 word 13)) 0 in
      <[index := JS.ushr (JS.bxor (imul32 mixed 2654435769) (rotl32 mixed 17)) 0]> pool
  end.

(** The fields of the class that the mixing operations touch. *)
Record t : Type := mk {
  pool : list Z;
  counter : Z;
  eventBuffer : list Z;
  stirIndex : nat
}.

(** [new EntropyRng()]: [csprng] is what [crypto.getRandomValues] wrote
    into the eight pool slots. *)
Definition create (csprng : list Z) : t :=
  mk (firstn POOL_SIZE (csprng ++ repeat 0 POOL_SIZE)) 0 [] 0.

Definition stir (word : Z) (rng : t) : t :=
  mk (mixWord (pool rng) (JS.ushr word 0) (stirIndex rng))
     (counter rng) (eventBuffer rng)
     ((stirIndex rng + 1) mod POOL_SIZE)%nat.

(** [processEventBuffer] *)
Definition processEventBuffer (rng : t) : t :=
  let r := fold_left (fun acc word => stir word acc) (eventBuffer rng) rng in
  mk (pool r) (counter r) [] (stirIndex r).

(** [nextU32], with the word [fresh] drawn from [crypto.getRandomValues]. *)
Definition nextU32 (fresh : Z) (rng : t) : t * Z :=
  let r1 := mk (pool rng) (counter rng + 1) (eventBuffer rng) (stirIndex rng) in
  let r2 := stir (counter r1) r1 in
  let poolIndex := Z.to_nat (counter r2 mod Z.of_nat POOL_SIZE) in
  match pool r2 !! poolIndex with
  | None => (r2, fresh)
  | Some poolVal =>
      let output := JS.ushr (JS.bxor poolVal fresh) 0 in
      (stir output r2, output)
  end.

(** The operations that mix into the pool. *)
Inductive Op : Type :=
| Stir (word : Z)
| NextU32 (fresh : Z)
| ProcessEventBuffer.

Definition apply (op : Op) (rng : t) : t :=
  match op with
  | Stir word => stir word rng
  | NextU32 fresh => fst (nextU32 fresh rng)
  | ProcessEventBuffer => processEventBuffer rng
  end.

(** [stir] as the specification words it, on the slot value alone. *)
Definition stirred (slot w : Z) : Z :=
  let m := Z.lxor slot (XoshiroSpec.rotl w 13) in
  Z.lxor ((m * 2654435769) mod 2 ^ 32) (XoshiroSpec.rotl m 17).

End EntropyRng.

(** ** The crossfade fields on their own

    The four crossfade fields evolve without reading any other field
    except the constant [crossfadeDuration].  [Fade] is that quadruple and
    the functions below are the projections of [renderSample],
    [renderLoop], [processBlock] and [handleMessage] on it (lemmas
    [fadeOf_renderSample] to [fadeOf_run]); being free of real numbers,
    they evaluate. *)

Record Fade : Type := mkFade {
  fCurrent : Mode;
  fTarget : Mode;
  fProgress : Q;
  fRemaining : Z
}.

Definition fadeOf (p : NoiseProcessor) : Fade :=
  mkFade (currentMode p) (targetMode p) (crossfadeProgress p)
         (crossfadeSamplesRemaining p).

Definition fadeSample (crossfading : bool) (crossfadeIncrement : Q) (f : Fade) : Fade :=
  if crossfading then
    if fRemaining f - 1 <=? 0
    then mkFade (fTarget f) (fTarget f) 1 (fRemaining f - 1)
    else mkFade (fCurrent f) (fTarget f) (fProgress f + crossfadeIncrement)%Q
                (fRemaining f - 1)
  else f.

Fixpoint fadeLoop (n : nat) (crossfading : bool) (crossfadeIncrement : Q)
    (f : Fade) : Fade :=
  match n with
  | O => f
  | S m => fadeLoop m crossfading crossfadeIncrement
             (fadeSample crossfading crossfadeIncrement f)
  end.

Definition fadeBlock (blockSize : nat) (f : Fade) : Fade :=
  fadeLoop blockSize (0 <? fRemaining f)
    (if 0 <? fRemaining f then 1 / inject_Z (fRemaining f) else 0) f.

Definition fadeMessage (sampleRate duration : Q) (msg : WorkletMessage)
    (f : Fade) : Fade :=
  match msg with
  | SetMode mode =>
      if Mode_eqb mode (fTarget f) then f
      else if Qle_bool 1 (fProgress f)
           then mkFade (fCurrent f) mode 0 (Qfloor (duration * sampleRate))
           else mkFade (fCurrent f) mode (fProgress f) (fRemaining f)
  | _ => f
  end.

Definition fadeStep (sampleRate duration : Q) (e : Event) (f : Fade) : Fade :=
  match e with
  | Message msg => fadeMessage sampleRate duration msg f
  | Render blockSize => fadeBlock blockSize f
  end.

Definition fadeRun (sampleRate duration : Q) (events : list Event) (f : Fade) : Fade :=
  fold_left (fun acc e => fadeStep sampleRate duration e acc) events f.

(** The fields that the sample loop, the seed request and the message
    handler leave alone or update without reading the audio path. *)
Record Control : Type := mkControl {
  cQueue : list (list Z);
  cCounter : Z;
  cThreshold : Z;
  cInitialized : bool;
  cDuration : Q
}.

Definition controlOf (p : NoiseProcessor) : Control :=
  mkControl (seedQueue p) (samplesSinceLastSeed p) (seedRequestThreshold p)
            (initialized p) (crossfadeDuration p).

(** A fade of [len] samples from [c] to [m], [t] samples after it was
    armed: either still counting down, or collapsed. *)
Definition fadeAt (len : Z) (c m : Mode) (t : Z) (f : Fade) : Prop :=
  (t < len /\ fRemaining f = len - t /\ fCurrent f = c /\ fTarget f = m)
  \/ (len <= t /\ fProgress f = 1%Q /\ fCurrent f = m /\ fTarget f = m
      /\ len - t <= fRemaining f <= 0).

(** What does hold at rest: once the remaining count is not positive,
    progress is 1 and both modes agree. *)
Definition restInv (f : Fade) : Prop :=
  fRemaining f <= 0 -> fProgress f = 1%Q /\ fCurrent f = fTarget f.

(** The crossfade length armed by a mode change. *)
Definition crossfadeLength (sampleRate : Q) : Z := Qfloor (0.05 * sampleRate).

(** Progress as the specification words it: it "increments by
    [1/remaining] each sample", [remaining] being the count that the same
    sentence lets reach 0. *)
Module FadeSpec.

Fixpoint progressAfter (k : nat) (remaining : Z) (progress : Q) : Q :=
  match k with
  | O => progress
  | S j => progressAfter j (remaining - 1) (progress + 1 / inject_Z remaining)%Q
  end.

End FadeSpec.

(** ** Render blocks of a constant size, with the messages delivered
    before each of them *)

(** What each block posts, in block order. *)
Fixpoint postedPerBlock (sampleRate : Q) (blockSize : nat)
    (feeds : list (list WorkletMessage)) (p : NoiseProcessor)
  : list (list PortMessage) :=
  match feeds with
  | [] => []
  | msgs :: rest =>
      let r := processBlock blockSize (handleMessages sampleRate msgs p) in
      posted r :: postedPerBlock sampleRate blockSize rest (after r)
  end.

(** The queue depth met by every block is below 2. *)
Fixpoint queueBelow2 (sampleRate : Q) (blockSize : nat)
    (feeds : list (list WorkletMessage)) (p : NoiseProcessor) : Prop :=
  match feeds with
  | [] => True
  | msgs :: rest =>
      let q := handleMessages sampleRate msgs p in
      (length (seedQueue q) < 2)%nat
      /\ queueBelow2 sampleRate blockSize rest (after (processBlock blockSize q))
  end.

(** [ceil(t / b)] for positive [b]. *)
Definition ceilDiv (t b : Z) : Z := (t + b - 1) / b.

(** Both brown states carry the constants of the sample rate and a
    clamped accumulator. *)
Definition brownsOk (sr : Q) (p : NoiseProcessor) : Prop :=
  (brownConstants sr (brownL p) /\ brownClamped (brownL p))
  /\ (brownConstants sr (brownR p) /\ brownClamped (brownR p)).

(** The pool has its 8 slots and the cursor points at one of them. *)
Definition poolOk (rng : EntropyRng.t) : Prop :=
  length (EntropyRng.pool rng) = EntropyRng.POOL_SIZE
  /\ (EntropyRng.stirIndex rng < EntropyRng.POOL_SIZE)%nat.

(** ** The generator read backwards *)

(** The map [x -> (x << 9) mod 2^32] that [xoshiroNext] calls [t]. *)
Definition shl9 (x : Z) : Z := Z.shiftl x 9 mod 2 ^ 32.

(** The state before a step, computed back from the state after it. *)
Definition xoshiroPrev (st : XoshiroState) : XoshiroState :=
  let a3 := XoshiroSpec.rotl (s3 st) 21 in
  let p0 := Z.lxor (s0 st) a3 in
  let u := Z.lxor (s1 st) (s2 st) in
  let p1 := Z.lxor (Z.lxor (Z.lxor u (shl9 u)) (shl9 (shl9 u))) (shl9 (shl9 (shl9 u))) in
  let a2 := Z.lxor (s1 st) p1 in
  mkXoshiro p0 p1 (Z.lxor a2 p0) (Z.lxor a3 p1).

Definition zeroState : XoshiroState := mkXoshiro 0 0 0 0.

(** ** Bounds on filter states and output frames *)

(** The accumulators of a pink state within the bounds that white samples
    of magnitude at most 1 can drive them to. *)
Definition pinkBounded (st : PinkState) : Prop :=
  (-42.15 <= b0 st <= 42.15)%R /\ (-8.02 <= b1 st <= 8.02)%R
  /\ (-2.45 <= b2 st <= 2.45)%R.

(** The gain of the brown filter at a sample rate. *)
Definition brownGain (sampleRate : Q) : R := gain (initBrownState sampleRate).

Definition filtersOk (sr : Q) (p : NoiseProcessor) : Prop :=
  brownsOk sr p /\ pinkBounded (pinkL p) /\ pinkBounded (pinkR p).

(** Both samples of an output frame are at most [m] in magnitude. *)
Definition frameWithin (m : R) (frame : R * R) : Prop :=
  (- m <= fst frame <= m)%R /\ (- m <= snd frame <= m)%R.

(** The largest magnitude a sample of mode [m] can have. *)
Definition modeBound (sampleRate : Q) (m : Mode) : R :=
  match m with Pink => 8.45%R | Brown => brownGain sampleRate end.

(** ** Progress of a fade over whole blocks *)

(** Progress gained over [k] successive blocks of [size] samples by a fade
    with [remaining] samples to go at the first of them: each block adds
    [size / remaining-at-its-start]. *)
Fixpoint blockSum (k size : nat) (remaining : Z) : Q :=
  match k with
  | O => 0
  | S j => inject_Z (Z.of_nat size) / inject_Z remaining
           + blockSum j size (remaining - Z.of_nat size)
  end.

(** ** Messages as the port delivers them *)

(** A message as the port can deliver it: seed payloads are [Uint32Array]s. *)
Definition wfMessage (msg : WorkletMessage) : Prop :=
  match msg with
  | EntropySeeds seeds => Forall word32 seeds
  | InitialSeeds seeds => Forall word32 seeds
  | SetMode _ => True
  end.

Definition wfEvent (e : Event) : Prop :=
  match e with
  | Message msg => wfMessage msg
  | Render _ => True
  end.

Definition statesOk (p : NoiseProcessor) : Prop :=
  wordState (stateL p) /\ wordState (stateR p).

(** ** The crossfade fields of reachable states *)

(** What holds of the crossfade fields of every reachable state. *)
Definition fadeSane (len : Z) (f : Fade) : Prop :=
  (fRemaining f <= 0 -> fProgress f = 1%Q /\ fCurrent f = fTarget f)
  /\ fRemaining f <= len
  /\ (0 <= fProgress f)%Q.

(** ** EntropyRng.ts: [getWords] and the event handlers *)

(** [x & y] *)
Definition band (x y : Z) : Z := Z.land (JS.ToInt32 x) (JS.ToInt32 y).

(** [EntropyRng.getWords(count)]: [fresh i] is the word that
    [crypto.getRandomValues] hands to the [i]-th call of [nextU32]. *)
Fixpoint getWordsFrom (i count : nat) (fresh : nat -> Z) (rng : EntropyRng.t)
  : EntropyRng.t * list Z :=
  match count with
  | O => (rng, [])
  | S m =>
      let r := EntropyRng.nextU32 (fresh i) rng in
      let rest := getWordsFrom (S i) m fresh (fst r) in
      (fst rest, JS.ushr (snd r) 0 :: snd rest)
  end.

Definition getWords (count : nat) (fresh : nat -> Z) (rng : EntropyRng.t)
  : EntropyRng.t * list Z :=
  getWordsFrom 0 count fresh rng.

(** [addEventEntropy(values)]: each value is pushed as [v >>> 0]. *)
Definition addEventEntropy (values : list Z) (rng : EntropyRng.t) : EntropyRng.t :=
  EntropyRng.mk (EntropyRng.pool rng) (EntropyRng.counter rng)
    (EntropyRng.eventBuffer rng ++ map (fun v => JS.ushr v 0) values)
    (EntropyRng.stirIndex rng).

(** [onMouseMove(e)], for the integer parts of [e.clientX], [e.clientY]
    and [e.timeStamp * 1000] (the last is [micros]); the bit operators
    drop the fraction first. *)
Definition onMouseMove (clientX clientY micros : Z) (rng : EntropyRng.t)
  : EntropyRng.t :=
  let word1 := JS.bor (JS.shl (band clientX 65535) 16) (band clientY 65535) in
  let word2 := JS.ushr micros 0 in
  addEventEntropy [word1; word2] rng.

(** [onKeyDown(e)], for [e.keyCode] and the integer part [micros] of
    [e.timeStamp * 1000]. *)
Definition onKeyDown (keyCode micros : Z) (rng : EntropyRng.t) : EntropyRng.t :=
  let word := JS.bor (JS.shl (band keyCode 255) 24) (band micros 16777215) in
  addEventEntropy [JS.ushr word 0] rng.

(** ** EntropyFeeder.ts *)

Module EntropyFeeder.

Definition WORDS_PER_FEED : nat := 8.

(** The fields of the class.  [port] is [this.port !== null] (one message
    port is modelled), [intervalId] is [this.intervalId !== null], the
    interval timer being armed. *)
Record t : Type := mk {
  rng : EntropyRng.t;
  port : bool;
  intervalId : bool;
  running : bool
}.

Definition create (r : EntropyRng.t) : t := mk r false false false.

(** [connect(port)]: stores the port and installs its message handler. *)
Definition connect (f : t) : t := mk (rng f) true (intervalId f) (running f).

(** [sendSeeds()], with the CSPRNG words [fresh] of its [getWords] call;
    returns the messages posted to the worklet. *)
Definition sendSeeds (fresh : nat -> Z) (f : t) : t * list WorkletMessage :=
  if port f
  then
    let r := getWords WORDS_PER_FEED fresh (rng f) in
    (mk (fst r) (port f) (intervalId f) (running f), [EntropySeeds (snd r)])
  else (f, []).

(** [start()] *)
Definition start (fresh : nat -> Z) (f : t) : t * list WorkletMessage :=
  if running f then (f, [])
  else
    let r := sendSeeds fresh (mk (rng f) (port f) (intervalId f) true) in
    (mk (rng (fst r)) (port (fst r)) true (running (fst r)), snd r).

(** [stop()] *)
Definition stop (f : t) : t := mk (rng f) (port f) false false.

(** [dispose()] *)
Definition dispose (f : t) : t :=
  let f1 := stop f in
  mk (rng f1) false (intervalId f1) (running f1).

(** What the host does with a feeder: the four public methods, a firing of
    the interval timer, and a message arriving on the port ([Some NeedSeed]
    for [{type: 'need-seed'}], [None] for any other data). *)
Inductive Call : Type :=
| Connect
| Start (fresh : nat -> Z)
| Stop
| Dispose
| Tick (fresh : nat -> Z)
| Receive (data : option PortMessage) (fresh : nat -> Z).

(** The timer callback runs only while the interval is armed, the message
    handler only while it is installed on the port. *)
Definition step (c : Call) (f : t) : t * list WorkletMessage :=
  match c with
  | Connect => (connect f, [])
  | Start fresh => start fresh f
  | Stop => (stop f, [])
  | Dispose => (dispose f, [])
  | Tick fresh => if intervalId f then sendSeeds fresh f else (f, [])
  | Receive data fresh =>
      if port f
      then match data with
           | Some NeedSeed => sendSeeds fresh f
           | None => (f, [])
           end
      else (f, [])
  end.

Fixpoint run (calls : list Call) (f : t) : t * list WorkletMessage :=
  match calls with
  | [] => (f, [])
  | c :: rest =>
      let r := step c f in
      let r' := run rest (fst r) in
      (fst r', snd r ++ snd r')
  end.

Definition isConnect (c : Call) : bool :=
  match c with Connect => true | _ => false end.

End EntropyFeeder.

(** A posted message is one batch of [WORDS_PER_FEED] words. *)
Definition seedBatch (msg : WorkletMessage) : Prop :=
  match msg with
  | EntropySeeds seeds =>
      length seeds = EntropyFeeder.WORDS_PER_FEED /\ Forall word32 seeds
  | _ => False
  end.



(** ** state.ts: dB and linear mappings *)

(** A level in dB as these functions produce and test it: a finite number
    or [-Infinity]. *)
Inductive Db : Type :=
| MinusInfinity
| FiniteDb (x : R).

(** [sliderToDb(s, minDb, maxDb)] *)
Definition sliderToDb (s minDb maxDb : R) : Db :=
  if Rle_dec s 0 then MinusInfinity
  else FiniteDb (minDb + (maxDb - minDb) * s)%R.

(** [dbToSlider(db, minDb, maxDb)] *)
Definition dbToSlider (db : Db) (minDb maxDb : R) : R :=
  match db with
  | MinusInfinity => 0%R
  | FiniteDb x =>
      if Rle_dec x minDb then 0%R
      else if Rge_dec x maxDb then 1%R
      else ((x - minDb) / (maxDb - minDb))%R
  end.

(** [dbToGain(db)]: [Math.pow(10, db / 20)]. *)
Definition dbToGain (db : Db) : R :=
  match db with
  | MinusInfinity => 0%R
  | FiniteDb x => if Rle_dec x (-100) then 0%R else Rpower 10 (x / 20)
  end.

(** [gainToDb(gain)]: [20 * Math.log10(gain)]. *)
Definition gainToDb (gain : R) : Db :=
  if Rle_dec gain 0 then MinusInfinity
  else FiniteDb (20 * (ln gain / ln 10))%R.

(** ** AudioEngine: the calls that reach the worklet and the master gain *)

(** [db === this.currentVolumeDb] on finite numbers and [-Infinity]. *)
Definition Db_eqb (x y : Db) : bool :=
  match x, y with
  | MinusInfinity, MinusInfinity => true
  | FiniteDb a, FiniteDb b => if Req_dec_T a b then true else false
  | _, _ => false
  end.

Module AudioEngine.

(** The fields that [setMode], [setPlaying], [setVolumeDb], [init] and
    [dispose] read or write.  [ctx] and [noiseNode] are the non-null
    tests; [masterGain] is [None] while the node is null and otherwise
    holds the value its gain was last set or ramped to. *)
Record t : Type := mk {
  ctx : bool;
  noiseNode : bool;
  masterGain : option R;
  entropyFeeder : option EntropyFeeder.t;
  currentMode : Mode;
  currentVolumeDb : Db;
  isMuted : bool
}.

Definition create : t := mk false false None None Pink (FiniteDb (-12)) true.

(** [init()].  [loaded] tells whether [audioWorklet.addModule] resolved
    (otherwise [init] throws after [ctx] was assigned); [pool] and
    [initialSeeds] are what [crypto.getRandomValues] wrote into the
    entropy pool and into the seed array, [fresh] the words drawn by the
    feeder's first batch.  Returns the messages posted to the worklet.
    Entropy events that arrive while [addModule] is awaited are not
    modelled: the feeder starts from the pool as it was filled. *)
Definition init (loaded : bool) (pool initialSeeds : list Z) (fresh : nat -> Z)
    (e : t) : t * list WorkletMessage :=
  if ctx e then (e, [])
  else if loaded then
    let seeds := firstn 8 (initialSeeds ++ repeat 0 8) in
    let f := EntropyFeeder.start fresh
               (EntropyFeeder.connect
                  (EntropyFeeder.create (EntropyRng.create pool))) in
    (mk true true (Some 0%R) (Some (fst f))
        (currentMode e) (currentVolumeDb e) (isMuted e),
     InitialSeeds seeds :: snd f)
  else
    (mk true (noiseNode e) (masterGain e) (entropyFeeder e)
        (currentMode e) (currentVolumeDb e) (isMuted e), []).

(** [setPlaying(playing)] *)
Definition setPlaying (playing : bool) (e : t) : t :=
  match ctx e, masterGain e with
  | true, Some _ =>
      mk (ctx e) (noiseNode e)
         (Some (if playing then dbToGain (currentVolumeDb e) else 0%R))
         (entropyFeeder e) (currentMode e) (currentVolumeDb e) (negb playing)
  | _, _ => e
  end.

(** [setMode(mode)] *)
Definition setMode (mode : Mode) (e : t) : t * list WorkletMessage :=
  if Mode_eqb mode (currentMode e) then (e, [])
  else
    (mk (ctx e) (noiseNode e) (masterGain e) (entropyFeeder e)
        mode (currentVolumeDb e) (isMuted e),
     if noiseNode e then [SetMode mode] else []).

(** [setVolumeDb(db)] *)
Definition setVolumeDb (db : Db) (e : t) : t :=
  if Db_eqb db (currentVolumeDb e) then e
  else
    let gain :=
      match negb (isMuted e) && ctx e, masterGain e with
      | true, Some _ => Some (dbToGain db)
      | _, _ => masterGain e
      end in
    mk (ctx e) (noiseNode e) gain (entropyFeeder e) (currentMode e) db (isMuted e).

(** [dispose()] *)
Definition dispose (e : t) : t :=
  mk false false None (option_map EntropyFeeder.dispose (entropyFeeder e))
     (currentMode e) (currentVolumeDb e) (isMuted e).

Inductive Call : Type :=
| Init (loaded : bool) (pool initialSeeds : list Z) (fresh : nat -> Z)
| SetPlaying (playing : bool)
| SetMode (mode : Mode)
| SetVolumeDb (db : Db)
| Dispose.

Definition step (c : Call) (e : t) : t * list WorkletMessage :=
  match c with
  | Init loaded pool initialSeeds fresh => init loaded pool initialSeeds fresh e
  | SetPlaying playing => (setPlaying playing e, [])
  | SetMode mode => setMode mode e
  | SetVolumeDb db => (setVolumeDb db e, [])
  | Dispose => (dispose e, [])
  end.

Fixpoint run (calls : list Call) (e : t) : t * list WorkletMessage :=
  match calls with
  | [] => (e, [])
  | c :: rest =>
      let r := step c e in
      let r' := run rest (fst r) in
      (fst r', snd r ++ snd r')
  end.

Definition isDispose (c : Call) : bool :=
  match c with Dispose => true | _ => false end.

Definition isInit (c : Call) : bool :=
  match c with Init _ _ _ _ => true | _ => false end.

End AudioEngine.

(** The master gain follows the mute flag and the volume. *)
Definition gainOk (e : AudioEngine.t) : Prop :=
  match AudioEngine.masterGain e with
  | None => AudioEngine.isMuted e = true
  | Some g =>
      AudioEngine.ctx e = true
      /\ g = if AudioEngine.isMuted e then 0%R
             else dbToGain (AudioEngine.currentVolumeDb e)
  end.

(** ** PomodoroController *)

Module Pomodoro.

Definition WORK_DURATION_MS : R := 25 * 60 * 1000.
Definition BREAK_DURATION_MS : R := 5 * 60 * 1000.
Definition LPF_MIN_HZ : R := 4500.
Definition LPF_MAX_HZ : R := 6000.
Definition LPF_CENTER_HZ : R := 5250.
Definition LPF_TAU_SEC : R := 8.
Definition LPF_TARGET_UPDATE_INTERVAL : R := 10.
Definition VOLUME_DROP_DB : R := -3.

Inductive Phase : Type := Work | Break.

Record State : Type := mkState {
  elapsedMs : R;
  lpfHz : R;
  targetLpfHz : R;
  volumeOffsetDb : R
}.

(** What [onUpdate] receives. *)
Record Update : Type := mkUpdate {
  uPhase : Phase;
  uMinutes : Z;
  uLpfHz : R;
  uVolumeOffsetDb : R
}.

(** [rafId] is [this.rafId !== null]. *)
Record t : Type := mk {
  phase : Phase;
  state : State;
  lastTime : R;
  rafId : bool;
  running : bool
}.

Definition initialState : State :=
  mkState 0 LPF_CENTER_HZ LPF_CENTER_HZ 0.

Definition create : t := mk Work initialState 0 false false.

(** [Math.ceil] *)
Definition ceil (x : R) : Z := 1 - up (- x).

(** [getBreakVolumeOffset(breakElapsedMs)] *)
Definition getBreakVolumeOffset (breakElapsedMs : R) : R :=
  let halfBreak := (BREAK_DURATION_MS / 2)%R in
  if Rlt_dec breakElapsedMs halfBreak
  then (VOLUME_DROP_DB * (breakElapsedMs / halfBreak))%R
  else (VOLUME_DROP_DB * (1 - (breakElapsedMs - halfBreak) / halfBreak))%R.

(** [stepLpf(dtSec)]: [roll] and [r] are the values of the two [rng()]
    calls (the second is made only when the first is below the
    threshold). *)
Definition stepLpf (dtSec roll r : R) (s : State) : State :=
  let threshold := (dtSec / LPF_TARGET_UPDATE_INTERVAL)%R in
  let target :=
    if Rlt_dec roll threshold
    then
      let span := (LPF_MAX_HZ - LPF_MIN_HZ)%R in
      Rmax LPF_MIN_HZ
        (Rmin LPF_MAX_HZ (LPF_CENTER_HZ + span * 0.5 * (r * 2 - 1)))%R
    else targetLpfHz s in
  let alpha := (1 - exp (- dtSec / LPF_TAU_SEC))%R in
  mkState (elapsedMs s) (lpfHz s + (target - lpfHz s) * alpha)%R target
          (volumeOffsetDb s).

(** [emitUpdate()] *)
Definition emitUpdate (c : t) : Update :=
  let duration :=
    match phase c with Work => WORK_DURATION_MS | Break => BREAK_DURATION_MS end in
  let remainingMs := (duration - elapsedMs (state c))%R in
  mkUpdate (phase c) (Z.max 1 (ceil (remainingMs / 60000)))
           (lpfHz (state c)) (volumeOffsetDb (state c)).

(** [tick(now)] *)
Definition tick (now roll r : R) (c : t) : t * list Update :=
  if negb (running c) then (c, [])
  else
    let dtMs := (now - lastTime c)%R in
    let dtSec := Rmin (dtMs / 1000) 1 in
    let s1 := mkState (elapsedMs (state c) + dtMs)%R (lpfHz (state c))
                      (targetLpfHz (state c)) (volumeOffsetDb (state c)) in
    let s2 := stepLpf dtSec roll r s1 in
    let pe :=
      match phase c with
      | Work =>
          if Rge_dec (elapsedMs s2) WORK_DURATION_MS then (Break, 0%R)
          else (Work, elapsedMs s2)
      | Break =>
          if Rge_dec (elapsedMs s2) BREAK_DURATION_MS then (Work, 0%R)
          else (Break, elapsedMs s2)
      end in
    let offset :=
      match fst pe with
      | Break => getBreakVolumeOffset (snd pe)
      | Work => 0%R
      end in
    let c' := mk (fst pe) (mkState (snd pe) (lpfHz s2) (targetLpfHz s2) offset)
                 now true true in
    (c', [emitUpdate c']).

(** [start()], called at time [now]. *)
Definition start (now : R) (c : t) : t * list Update :=
  if running c then (c, [])
  else
    let c' := mk (phase c) (state c) now true true in
    (c', [emitUpdate c']).

(** [stop()] *)
Definition stop (c : t) : t := mk Work initialState (lastTime c) false false.

Inductive Call : Type :=
| Start (now : R)
| Tick (now roll r : R)
| Stop.

Definition step (e : Call) (c : t) : t * list Update :=
  match e with
  | Start now => start now c
  | Tick now roll r => tick now roll r c
  | Stop => (stop c, [])
  end.

Fixpoint run (calls : list Call) (c : t) : t * list Update :=
  match calls with
  | [] => (c, [])
  | e :: rest =>
      let r := step e c in
      let r' := run rest (fst r) in
      (fst r', snd r ++ snd r')
  end.

(** The clock readings of the calls never go back from [from]. *)
Fixpoint chronological (from : R) (calls : list Call) : Prop :=
  match calls with
  | [] => True
  | Start now :: rest => (from <= now)%R /\ chronological now rest
  | Tick now _ _ :: rest => (from <= now)%R /\ chronological now rest
  | Stop :: rest => chronological from rest
  end.

Definition duration (ph : Phase) : R :=
  match ph with Work => WORK_DURATION_MS | Break => BREAK_DURATION_MS end.

End Pomodoro.

Definition pomodoroOk (clock : R) (c : Pomodoro.t) : Prop :=
  let s := Pomodoro.state c in
  (0 <= Pomodoro.elapsedMs s < Pomodoro.duration (Pomodoro.phase c))%R
  /\ (4500 <= Pomodoro.lpfHz s <= 6000)%R
  /\ (4500 <= Pomodoro.targetLpfHz s <= 6000)%R
  /\ (-3 <= Pomodoro.volumeOffsetDb s <= 0)%R
  /\ (Pomodoro.phase c = Pomodoro.Work -> Pomodoro.volumeOffsetDb s = 0%R)
  /\ (Pomodoro.running c = true -> (Pomodoro.lastTime c <= clock)%R).

Definition updateOk (u : Pomodoro.Update) : Prop :=
  1 <= Pomodoro.uMinutes u
        <= match Pomodoro.uPhase u with Pomodoro.Work => 25 | Pomodoro.Break => 5 end
  /\ (4500 <= Pomodoro.uLpfHz u <= 6000)%R
  /\ (-3 <= Pomodoro.uVolumeOffsetDb u <= 0)%R
  /\ (Pomodoro.uPhase u = Pomodoro.Work -> Pomodoro.uVolumeOffsetDb u = 0%R).

(** ** Lemmas on the 32-bit operators *)

Lemma two32_val : 2 ^ 32 = 4294967296.
Proof. reflexivity. Qed.

Lemma word32b_ok z : word32b z = true -> word32 z.
Proof. unfold word32b, word32. lia. Qed.

Lemma wordStateb_ok st : wordStateb st = true -> wordState st.
Proof.
  unfold wordStateb, wordState. rewrite !andb_true_iff.
  intros [[[H0 H1] H2] H3]. auto using word32b_ok.
Qed.

Lemma words32b_ok l : forallb word32b l = true -> Forall word32 l.
Proof.
  induction l as [| z l IH]; cbn [forallb]; [constructor |].
  rewrite andb_true_iff. intros [Hz Hl].
  constructor; [apply word32b_ok; exact Hz | apply IH; exact Hl].
Qed.

Lemma ToUint32_range z : word32 (JS.ToUint32 z).
Proof. unfold word32, JS.ToUint32. apply Z.mod_pos_bound. reflexivity. Qed.

Lemma ToUint32_word z : word32 z -> JS.ToUint32 z = z.
Proof. unfold word32, JS.ToUint32. intros H. apply Z.mod_small. exact H. Qed.

Lemma ToUint32_ToInt32 z : JS.ToUint32 (JS.ToInt32 z) = JS.ToUint32 z.
Proof.
  unfold JS.ToUint32, JS.ToInt32.
  rewrite (Z.mod_eq (z + 2 ^ 31) (2 ^ 32)) by discriminate.
  replace (z + 2 ^ 31 - 2 ^ 32 * ((z + 2 ^ 31) / 2 ^ 32) - 2 ^ 31)
    with (z + (- ((z + 2 ^ 31) / 2 ^ 32)) * 2 ^ 32) by ring.
  apply Z.mod_add. discriminate.
Qed.

Lemma ToUint32_lxor a b :
  JS.ToUint32 (Z.lxor a b) = Z.lxor (JS.ToUint32 a) (JS.ToUint32 b).
Proof.
  unfold JS.ToUint32. rewrite <- !Z.land_ones by lia.
  apply Z.bits_inj'. intros n Hn.
  rewrite Z.lxor_spec, !Z.land_spec, Z.lxor_spec.
  destruct (Z.testbit (Z.ones 32) n), (Z.testbit a n), (Z.testbit b n); reflexivity.
Qed.

Lemma ToUint32_lor a b :
  JS.ToUint32 (Z.lor a b) = Z.lor (JS.ToUint32 a) (JS.ToUint32 b).
Proof.
  unfold JS.ToUint32. rewrite <- !Z.land_ones by lia.
  apply Z.bits_inj'. intros n Hn.
  rewrite Z.lor_spec, !Z.land_spec, Z.lor_spec.
  destruct (Z.testbit (Z.ones 32) n), (Z.testbit a n), (Z.testbit b n); reflexivity.
Qed.

Lemma ToUint32_shiftl a k :
  0 <= k -> JS.ToUint32 (Z.shiftl (JS.ToInt32 a) k) = JS.ToUint32 (Z.shiftl a k).
Proof.
  intros Hk. rewrite !Z.shiftl_mul_pow2 by exact Hk.
  pose proof (ToUint32_ToInt32 a) as E. unfold JS.ToUint32 in *.
  rewrite <- (Z.mul_mod_idemp_l (JS.ToInt32 a)) by discriminate.
  rewrite <- (Z.mul_mod_idemp_l a) by discriminate.
  rewrite E. reflexivity.
Qed.

Lemma word32_lxor a b : word32 a -> word32 b -> word32 (Z.lxor a b).
Proof.
  intros Ha Hb.
  rewrite <- (ToUint32_word a Ha), <- (ToUint32_word b Hb), <- ToUint32_lxor.
  apply ToUint32_range.
Qed.

Lemma word32_shiftr a k : word32 a -> 0 <= k -> word32 (Z.shiftr a k).
Proof.
  unfold word32. intros [H0 H1] Hk. rewrite Z.shiftr_div_pow2 by exact Hk.
  assert (0 < 2 ^ k) by (apply Z.pow_pos_nonneg; lia).
  split.
  - apply Z.div_pos; lia.
  - apply Z.le_lt_trans with a; [| exact H1].
    apply Z.div_le_upper_bound; nia.
Qed.

Lemma ushr_0 x : JS.ushr x 0 = JS.ToUint32 x.
Proof. unfold JS.ushr. apply Z.shiftr_0_r. Qed.

Lemma count_small k : 0 <= k < 32 -> JS.ToUint32 k mod 32 = k.
Proof.
  intros H. unfold JS.ToUint32.
  rewrite (Z.mod_small k (2 ^ 32)) by (rewrite two32_val; lia).
  apply Z.mod_small. exact H.
Qed.

Lemma bxor_u32 x y :
  JS.ushr (JS.bxor x y) 0 = Z.lxor (JS.ToUint32 x) (JS.ToUint32 y).
Proof.
  rewrite ushr_0. unfold JS.bxor.
  rewrite ToUint32_lxor, !ToUint32_ToInt32. reflexivity.
Qed.

Lemma bxor_words x y :
  word32 x -> word32 y -> JS.ushr (JS.bxor x y) 0 = Z.lxor x y.
Proof.
  intros Hx Hy. rewrite bxor_u32, (ToUint32_word x Hx), (ToUint32_word y Hy).
  reflexivity.
Qed.

Lemma shl_u32 x k :
  0 <= k < 32 -> JS.ushr (JS.shl x k) 0 = Z.shiftl x k mod 2 ^ 32.
Proof.
  intros Hk. rewrite ushr_0. unfold JS.shl.
  rewrite ToUint32_ToInt32, (count_small k Hk), ToUint32_shiftl by lia.
  reflexivity.
Qed.

Lemma rotl_spec_eq x k :
  word32 x -> 0 < k < 32 -> rotl x k = XoshiroSpec.rotl x k.
Proof.
  intros Hx Hk. unfold rotl, XoshiroSpec.rotl.
  rewrite ushr_0. unfold JS.bor.
  rewrite ToUint32_lor, !ToUint32_ToInt32.
  fold (JS.ToUint32 (Z.lor (Z.shiftl x k) (Z.shiftr x (32 - k)))).
  rewrite ToUint32_lor. f_equal.
  - rewrite <- ushr_0. apply shl_u32. lia.
  - unfold JS.ushr. rewrite (ToUint32_word x Hx), count_small by lia.
    rewrite ToUint32_word; [reflexivity |].
    apply word32_shiftr; [exact Hx | lia].
Qed.

Lemma rotl_word x k : word32 (rotl x k).
Proof. unfold rotl. rewrite ushr_0. apply ToUint32_range. Qed.

(** ** The xoshiro128++ step against its specification *)

Lemma xoshiroNext_spec st : wordState st -> xoshiroNext st = XoshiroSpec.next st.
Proof.
  intros (H0 & H1 & H2 & H3).
  unfold xoshiroNext, XoshiroSpec.next.
  assert (W2 : word32 (Z.lxor (s2 st) (s0 st))) by (apply word32_lxor; assumption).
  assert (W3 : word32 (Z.lxor (s3 st) (s1 st))) by (apply word32_lxor; assumption).
  assert (WT : word32 (Z.shiftl (s1 st) 9 mod 2 ^ 32)) by apply ToUint32_range.
  rewrite (bxor_words (s2 st) (s0 st)) by assumption.
  rewrite (bxor_words (s3 st) (s1 st)) by assumption.
  rewrite (bxor_words (s1 st) _ H1 W2).
  rewrite (bxor_words (s0 st) _ H0 W3).
  rewrite (shl_u32 (s1 st) 9) by lia.
  rewrite (bxor_words _ _ W2 WT).
  rewrite (rotl_spec_eq _ 11 W3) by lia.
  rewrite !ushr_0.
  rewrite (rotl_spec_eq (JS.ToUint32 (s0 st + s3 st)) 7) by (try apply ToUint32_range; lia).
  reflexivity.
Qed.

Lemma xoshiroNext_words st :
  wordState (fst (xoshiroNext st)) /\ word32 (snd (xoshiroNext st)).
Proof.
  unfold xoshiroNext, wordState; cbn [fst snd s0 s1 s2 s3].
  rewrite !ushr_0.
  repeat split; try apply ToUint32_range; apply rotl_word.
Qed.

Lemma advance_words n : forall st, wordState st -> wordState (advance n st).
Proof.
  induction n as [| n IH]; intros st H; cbn [advance]; [exact H |].
  apply IH. apply xoshiroNext_words.
Qed.

Lemma fst_let_pair (A B C : Type) (x : A * B) (g : B -> C) :
  fst (let r := x in (fst r, g (snd r))) = fst x.
Proof. reflexivity. Qed.

Lemma nextSignedFloat_state st : fst (nextSignedFloat st) = fst (xoshiroNext st).
Proof.
  exact (fst_let_pair _ _ _ (xoshiroNext st)
           (fun z => (IZR z / 4294967296 * 2 - 1)%R)).
Qed.

Lemma whiteRun_S n st :
  whiteRun (S n) st
  = (fst (whiteRun n (fst (nextSignedFloat st))),
     snd (nextSignedFloat st) :: snd (whiteRun n (fst (nextSignedFloat st)))).
Proof. reflexivity. Qed.

Lemma whiteRun_state n : forall st, fst (whiteRun n st) = advance n st.
Proof.
  induction n as [| n IH]; intros st; [reflexivity |].
  rewrite whiteRun_S. cbn [fst advance].
  rewrite IH, nextSignedFloat_state. reflexivity.
Qed.

Lemma signedFloat_range z :
  word32 z -> (-1 <= IZR z / 4294967296 * 2 - 1 < 1)%R.
Proof.
  unfold word32. rewrite two32_val. intros [Hlo Hhi].
  apply IZR_le in Hlo. apply IZR_lt in Hhi.
  split; Lra.lra.
Qed.

(** C3.  For a state of four 32-bit words, [xoshiroNext] returns the result
    and the new state of the specified xoshiro128++ step (all arithmetic
    modulo 2^32, [rotl] as the masked shift-or), the new state is again four
    32-bit words, [nextSignedFloat] returns [result / 2^32 * 2 - 1], a value
    of [[-1, 1)], and runs of the generator are functions of the starting
    state: equal starting states give equal output sequences and equal
    final states for every number of calls. *)
Theorem C3_xoshiro_step (st : XoshiroState) (H : wordState st) :
  xoshiroNext st = XoshiroSpec.next st
  /\ wordState (fst (xoshiroNext st))
  /\ word32 (snd (xoshiroNext st))
  /\ nextSignedFloat st
     = (fst (XoshiroSpec.next st),
        (IZR (snd (XoshiroSpec.next st)) / 4294967296 * 2 - 1)%R)
  /\ (-1 <= snd (nextSignedFloat st) < 1)%R
  /\ (forall st' n, st' = st ->
        xoshiroRun n st' = xoshiroRun n st /\ whiteRun n st' = whiteRun n st).
Proof.
  pose proof (xoshiroNext_words st) as [Hs Hr].
  split; [apply xoshiroNext_spec; exact H |].
  split; [exact Hs |]. split; [exact Hr |].
  split.
  - unfold nextSignedFloat. rewrite (xoshiroNext_spec st H). reflexivity.
  - split.
    + unfold nextSignedFloat. cbn [snd]. apply signedFloat_range. exact Hr.
    + intros st' n ->. split; reflexivity.
Qed.

Lemma wordState_1234 : wordState (mkXoshiro 1 2 3 4).
Proof. unfold wordState, word32; cbn [s0 s1 s2 s3]. rewrite two32_val. lia. Qed.

(** The step at the seed of the specification's golden vector. *)
Lemma C3_xoshiro_step_witness :
  xoshiroNext (mkXoshiro 1 2 3 4) = (mkXoshiro 7 0 1026 12288, 641)
  /\ (-1 <= snd (nextSignedFloat (mkXoshiro 1 2 3 4)) < 1)%R.
Proof.
  pose proof (C3_xoshiro_step (mkXoshiro 1 2 3 4) wordState_1234) as (E & _ & _ & _ & Hr & _).
  split; [rewrite E; vm_compute; reflexivity | exact Hr].
Defined.

(** ** Entropy mixing against its specification *)

Lemma mixWordAt_spec i word st :
  wordState st -> word32 word ->
  mixWordAt i word st = MixSpec.mixAt i word st /\ wordState (mixWordAt i word st).
Proof.
  intros (H0 & H1 & H2 & H3) Hw.
  assert (R5 : rotl word 5 = XoshiroSpec.rotl word 5)
    by (apply rotl_spec_eq; [exact Hw | lia]).
  assert (R13 : rotl word 13 = XoshiroSpec.rotl word 13)
    by (apply rotl_spec_eq; [exact Hw | lia]).
  assert (R21 : rotl word 21 = XoshiroSpec.rotl word 21)
    by (apply rotl_spec_eq; [exact Hw | lia]).
  pose proof (rotl_word word 5) as W5.
  pose proof (rotl_word word 13) as W13.
  pose proof (rotl_word word 21) as W21.
  unfold mixWordAt, MixSpec.mixAt, MixSpec.xorField, MixSpec.rotated, MixSpec.rotation.
  destruct (i mod 4)%nat as [| [| [| k]]]; cbn [Z.eqb].
  - rewrite (bxor_words _ _ H0 Hw).
    split; [reflexivity |].
    unfold wordState; cbn [s0 s1 s2 s3].
    auto using word32_lxor.
  - rewrite (bxor_words _ _ H1 W5), R5.
    split; [reflexivity |].
    unfold wordState; cbn [s0 s1 s2 s3]. rewrite <- R5.
    auto using word32_lxor.
  - rewrite (bxor_words _ _ H2 W13), R13.
    split; [reflexivity |].
    unfold wordState; cbn [s0 s1 s2 s3]. rewrite <- R13.
    auto using word32_lxor.
  - rewrite (bxor_words _ _ H3 W21), R21.
    split; [reflexivity |].
    unfold wordState; cbn [s0 s1 s2 s3]. rewrite <- R21.
    auto using word32_lxor.
Qed.

Lemma mixLoop_spec words : forall i st,
  wordState st -> Forall word32 words ->
  mixLoop i words st = MixSpec.mixFrom i words st /\ wordState (mixLoop i words st).
Proof.
  induction words as [| word rest IH]; intros i st Hst Hws; cbn [mixLoop MixSpec.mixFrom].
  - split; [reflexivity | exact Hst].
  - inversion Hws as [| ? ? Hw Hrest]; subst.
    destruct (mixWordAt_spec i word st Hst Hw) as [E W].
    rewrite <- E. apply IH; assumption.
Qed.

Lemma mixEntropy_spec st words :
  wordState st -> Forall word32 words ->
  mixEntropy st words = advance 8 (MixSpec.mixFrom 0 words st)
  /\ wordState (mixEntropy st words).
Proof.
  intros Hst Hws. unfold mixEntropy.
  destruct (mixLoop_spec words 0%nat st Hst Hws) as [E W].
  split; [rewrite E; reflexivity | apply advance_words; exact W].
Qed.

(** ** Which fields each phase of [process] touches *)

Ltac fields :=
  cbn [stateL stateR pinkL pinkR brownL brownR currentMode targetMode
       crossfadeProgress crossfadeSamplesRemaining crossfadeDuration
       seedQueue samplesSinceLastSeed seedRequestThreshold initialized
       set_states set_filters set_currentMode set_targetMode
       set_crossfadeProgress set_crossfadeSamplesRemaining set_seedQueue
       set_samplesSinceLastSeed set_initialized
       fst snd after posted samples
       fadeOf fCurrent fTarget fProgress fRemaining].

Lemma renderSample_control c inc p :
  controlOf (fst (renderSample c inc p)) = controlOf p.
Proof.
  unfold renderSample, controlOf. destruct c; fields; [| reflexivity].
  match goal with |- context [if ?t then _ else _] => destruct t end;
    fields; reflexivity.
Qed.

Lemma renderLoop_control n : forall c inc p,
  controlOf (fst (renderLoop n c inc p)) = controlOf p.
Proof.
  induction n as [| n IH]; intros c inc p; cbn [renderLoop fst]; [reflexivity |].
  rewrite IH. apply renderSample_control.
Qed.

Lemma renderSample_states c inc p :
  stateL (fst (renderSample c inc p)) = fst (nextSignedFloat (stateL p))
  /\ stateR (fst (renderSample c inc p)) = fst (nextSignedFloat (stateR p)).
Proof.
  unfold renderSample. destruct c; fields; [| split; reflexivity].
  match goal with |- context [if ?t then _ else _] => destruct t end;
    fields; split; reflexivity.
Qed.

Lemma renderLoop_states n : forall c inc p,
  stateL (fst (renderLoop n c inc p)) = advance n (stateL p)
  /\ stateR (fst (renderLoop n c inc p)) = advance n (stateR p).
Proof.
  induction n as [| n IH]; intros c inc p; cbn [renderLoop fst advance];
    [split; reflexivity |].
  destruct (IH c inc (fst (renderSample c inc p))) as [EL ER].
  destruct (renderSample_states c inc p) as [SL SR].
  rewrite EL, ER, SL, SR, !nextSignedFloat_state. split; reflexivity.
Qed.

Lemma fadeOf_renderSample c inc p :
  fadeOf (fst (renderSample c inc p)) = fadeSample c inc (fadeOf p).
Proof.
  unfold renderSample, fadeSample. destruct c; fields; [| reflexivity].
  destruct (crossfadeSamplesRemaining p - 1 <=? 0); fields; reflexivity.
Qed.

Lemma fadeOf_renderLoop n : forall c inc p,
  fadeOf (fst (renderLoop n c inc p)) = fadeLoop n c inc (fadeOf p).
Proof.
  induction n as [| n IH]; intros c inc p; cbn [renderLoop fadeLoop fst];
    [reflexivity |].
  rewrite IH, fadeOf_renderSample. reflexivity.
Qed.

Lemma fadeOf_requestSeed n p : fadeOf (fst (requestSeed n p)) = fadeOf p.
Proof.
  unfold requestSeed.
  match goal with |- context [if ?t then _ else _] => destruct t end;
    fields; reflexivity.
Qed.

Lemma fadeOf_mixQueued p : fadeOf (mixQueued p) = fadeOf p.
Proof. unfold mixQueued. destruct (seedQueue p); fields; reflexivity. Qed.

Lemma fadeOf_processBlock n p :
  fadeOf (after (processBlock n p)) = fadeBlock n (fadeOf p).
Proof.
  unfold processBlock, fadeBlock. cbn [after].
  rewrite fadeOf_renderLoop.
  unfold crossfadingOf, crossfadeIncrementOf, crossfadingOf.
  replace (crossfadeSamplesRemaining (mixQueued (fst (requestSeed n p))))
    with (fRemaining (fadeOf (mixQueued (fst (requestSeed n p))))) by reflexivity.
  rewrite fadeOf_mixQueued, fadeOf_requestSeed. reflexivity.
Qed.

Lemma fadeOf_handleMessage sr msg p :
  fadeOf (handleMessage sr msg p)
  = fadeMessage sr (crossfadeDuration p) msg (fadeOf p).
Proof.
  destruct msg as [seeds | seeds | mode]; cbn [handleMessage fadeMessage].
  - reflexivity.
  - destruct (negb (initialized p) && (8 <=? length seeds)%nat); reflexivity.
  - fields. destruct (Mode_eqb mode (targetMode p)); [reflexivity |].
    destruct (Qle_bool 1 (crossfadeProgress p)); reflexivity.
Qed.

Lemma handleMessage_duration sr msg p :
  crossfadeDuration (handleMessage sr msg p) = crossfadeDuration p.
Proof.
  destruct msg as [seeds | seeds | mode]; cbn [handleMessage].
  - reflexivity.
  - destruct (negb (initialized p) && (8 <=? length seeds)%nat); reflexivity.
  - destruct (Mode_eqb mode (targetMode p)); [reflexivity |]. fields.
    destruct (Qle_bool 1 (crossfadeProgress p)); reflexivity.
Qed.

Lemma requestSeed_duration n p :
  crossfadeDuration (fst (requestSeed n p)) = crossfadeDuration p.
Proof.
  unfold requestSeed.
  match goal with |- context [if ?t then _ else _] => destruct t end; reflexivity.
Qed.

Lemma mixQueued_duration p : crossfadeDuration (mixQueued p) = crossfadeDuration p.
Proof. unfold mixQueued. destruct (seedQueue p); reflexivity. Qed.

Lemma processBlock_duration n p :
  crossfadeDuration (after (processBlock n p)) = crossfadeDuration p.
Proof.
  unfold processBlock. cbn [after].
  change (cDuration (controlOf (fst (renderLoop n
            (crossfadingOf (mixQueued (fst (requestSeed n p))))
            (crossfadeIncrementOf (mixQueued (fst (requestSeed n p))))
            (mixQueued (fst (requestSeed n p))))))
          = crossfadeDuration p).
  rewrite renderLoop_control. cbn [controlOf cDuration].
  rewrite mixQueued_duration. apply requestSeed_duration.
Qed.

Lemma step_duration sr e p : crossfadeDuration (step sr e p) = crossfadeDuration p.
Proof.
  destruct e; cbn [step]; [apply handleMessage_duration | apply processBlock_duration].
Qed.

Lemma fadeOf_step sr e p :
  fadeOf (step sr e p) = fadeStep sr (crossfadeDuration p) e (fadeOf p).
Proof.
  destruct e; cbn [step fadeStep]; [apply fadeOf_handleMessage | apply fadeOf_processBlock].
Qed.

Lemma fadeOf_run sr events : forall p,
  fadeOf (run sr events p) = fadeRun sr (crossfadeDuration p) events (fadeOf p).
Proof.
  induction events as [| e rest IH]; intros p; cbn [run fadeRun fold_left];
    [reflexivity |].
  fold (run sr rest (step sr e p)).
  fold (fadeRun sr (crossfadeDuration p) rest
          (fadeStep sr (crossfadeDuration p) e (fadeOf p))).
  rewrite IH, step_duration, fadeOf_step. reflexivity.
Qed.

Lemma requestSeed_frame n p :
  stateL (fst (requestSeed n p)) = stateL p
  /\ stateR (fst (requestSeed n p)) = stateR p
  /\ seedQueue (fst (requestSeed n p)) = seedQueue p.
Proof.
  unfold requestSeed.
  match goal with |- context [if ?t then _ else _] => destruct t end;
    fields; repeat split; reflexivity.
Qed.

Lemma processBlock_queue n p :
  seedQueue (after (processBlock n p)) = tl (seedQueue p).
Proof.
  unfold processBlock. cbn [after].
  change (cQueue (controlOf (fst (renderLoop n
            (crossfadingOf (mixQueued (fst (requestSeed n p))))
            (crossfadeIncrementOf (mixQueued (fst (requestSeed n p))))
            (mixQueued (fst (requestSeed n p))))))
          = tl (seedQueue p)).
  rewrite renderLoop_control. cbn [controlOf cQueue].
  destruct (requestSeed_frame n p) as (_ & _ & Eq).
  unfold mixQueued. rewrite Eq.
  destruct (seedQueue p); fields; [exact Eq | reflexivity].
Qed.

Lemma processBlock_states n p :
  stateL (after (processBlock n p))
  = advance n (stateL (mixQueued (fst (requestSeed n p))))
  /\ stateR (after (processBlock n p))
     = advance n (stateR (mixQueued (fst (requestSeed n p)))).
Proof. unfold processBlock. cbn [after]. apply renderLoop_states. Qed.

Lemma mixQueued_cons p seed rest :
  seedQueue p = seed :: rest ->
  mixQueued p
  = set_states (mixEntropy (stateL p) (firstn (length seed / 2) seed))
               (mixEntropy (stateR p) (skipn (length seed / 2) seed))
               (set_seedQueue rest p).
Proof.
  intros E. unfold mixQueued. rewrite E. unfold subarray.
  rewrite Nat.sub_0_r. reflexivity.
Qed.

(** C4.  With the batch [seed] at the head of the queue, one render block
    removes that batch and no other (the rest of the queue stays pending);
    its words [0 .. floor(n/2)-1] are mixed into the left generator and the
    remaining words into the right one; mixing XORs word [i] of its share
    into state field [i mod 4] rotated left by 0, 5, 13 or 21 bits and then
    steps the generator exactly 8 times, dropping the outputs; the block's
    samples are then drawn from the mixed states. *)
Theorem C4_one_batch_per_block
    (blockSize : nat) (p : NoiseProcessor) (seed : list Z) (rest : list (list Z))
    (Hq : seedQueue p = seed :: rest)
    (HL : wordState (stateL p)) (HR : wordState (stateR p))
    (Hs : Forall word32 seed) :
  let half := (length seed / 2)%nat in
  let mixed := mixQueued (fst (requestSeed blockSize p)) in
  seedQueue (after (processBlock blockSize p)) = rest
  /\ stateL mixed = advance 8 (MixSpec.mixFrom 0 (firstn half seed) (stateL p))
  /\ stateR mixed = advance 8 (MixSpec.mixFrom 0 (skipn half seed) (stateR p))
  /\ stateL (after (processBlock blockSize p)) = advance blockSize (stateL mixed)
  /\ stateR (after (processBlock blockSize p)) = advance blockSize (stateR mixed).
Proof.
  intros half mixed.
  destruct (requestSeed_frame blockSize p) as (EL & ER & EQ).
  assert (Em : mixed
               = set_states
                   (mixEntropy (stateL p) (firstn half seed))
                   (mixEntropy (stateR p) (skipn half seed))
                   (set_seedQueue rest (fst (requestSeed blockSize p)))).
  { unfold mixed. rewrite (mixQueued_cons _ seed rest) by (rewrite EQ; exact Hq).
    rewrite EL, ER. reflexivity. }
  split; [rewrite processBlock_queue, Hq; reflexivity |].
  split.
  { rewrite Em. fields.
    exact (proj1 (mixEntropy_spec _ _ HL (Forall_take _ half _ Hs))). }
  split.
  { rewrite Em. fields.
    exact (proj1 (mixEntropy_spec _ _ HR (Forall_drop _ half _ Hs))). }
  apply processBlock_states.
Qed.

(** Two batches are pending; a block of 128 samples takes the first only. *)
Lemma C4_one_batch_per_block_witness :
  let p := handleMessages 48000
             [EntropySeeds [1; 2; 3; 4; 5; 6; 7; 8]; EntropySeeds [9; 10]]
             (newNoiseProcessor 48000 0) in
  seedQueue (after (processBlock 128 p)) = [[9; 10]].
Proof.
  intros p.
  refine (proj1 (C4_one_batch_per_block 128 p [1; 2; 3; 4; 5; 6; 7; 8] [[9; 10]]
                   _ _ _ _)).
  - reflexivity.
  - apply wordStateb_ok. vm_compute. reflexivity.
  - apply wordStateb_ok. vm_compute. reflexivity.
  - apply words32b_ok. vm_compute. reflexivity.
Defined.

(** ** Messages *)

Lemma Mode_eqb_eq m1 m2 : Mode_eqb m1 m2 = true <-> m1 = m2.
Proof. destruct m1, m2; cbn; split; intros H; congruence. Qed.

Lemma Mode_eqb_neq m1 m2 : m1 <> m2 -> Mode_eqb m1 m2 = false.
Proof. destruct m1, m2; cbn; intros H; congruence. Qed.

Lemma Qle_bool_false x y : (y < x)%Q -> Qle_bool x y = false.
Proof.
  intros H. destruct (Qle_bool x y) eqn:E; [| reflexivity].
  apply Qle_bool_iff in E. exfalso. exact (Qlt_not_le _ _ H E).
Qed.

Lemma run_app sr ev1 ev2 p : run sr (ev1 ++ ev2) p = run sr ev2 (run sr ev1 p).
Proof. unfold run. apply fold_left_app. Qed.

Lemma run_duration sr events : forall p,
  crossfadeDuration (run sr events p) = crossfadeDuration p.
Proof.
  induction events as [| e rest IH]; intros p; cbn [run fold_left]; [reflexivity |].
  fold (run sr rest (step sr e p)). rewrite IH. apply step_duration.
Qed.

Lemma reachable_duration sr p : reachable sr p -> crossfadeDuration p = 0.05%Q.
Proof. intros (cf & events & ->). rewrite run_duration. reflexivity. Qed.

Lemma reachable_step sr e p : reachable sr p -> reachable sr (step sr e p).
Proof.
  intros (cf & events & ->). exists cf, (events ++ [e]).
  rewrite run_app. reflexivity.
Qed.

Lemma reachable_new sr cf : reachable sr (newNoiseProcessor sr cf).
Proof. exists cf, []. reflexivity. Qed.

Lemma reachable_run sr events p : reachable sr p -> reachable sr (run sr events p).
Proof.
  intros (cf & ev0 & ->). exists cf, (ev0 ++ events). rewrite run_app. reflexivity.
Qed.

Lemma reachable_message sr msg p :
  reachable sr p -> reachable sr (handleMessage sr msg p).
Proof. intros H. exact (reachable_step sr (Message msg) p H). Qed.

(** The two branches of a ['set-mode'] message whose mode differs from
    [targetMode]: received with [progress >= 1] it sets the target, resets
    progress to 0 and arms [floor(0.05 * sampleRate)] samples; received with
    [progress < 1] it changes [targetMode] and nothing else, so progress and
    the remaining count of the running fade stay as they are. *)
Lemma set_mode_branches
    (sampleRate : Q) (p : NoiseProcessor) (mode : Mode)
    (Hreach : reachable sampleRate p) (Hne : mode <> targetMode p) :
  let q := handleMessage sampleRate (SetMode mode) p in
  ((1 <= crossfadeProgress p)%Q ->
     q = set_crossfadeSamplesRemaining (crossfadeLength sampleRate)
           (set_crossfadeProgress 0 (set_targetMode mode p))
     /\ targetMode q = mode /\ crossfadeProgress q = 0%Q
     /\ crossfadeSamplesRemaining q = Qfloor (0.05 * sampleRate))
  /\ ((crossfadeProgress p < 1)%Q ->
        q = set_targetMode mode p
        /\ targetMode q = mode
        /\ crossfadeProgress q = crossfadeProgress p
        /\ crossfadeSamplesRemaining q = crossfadeSamplesRemaining p).
Proof.
  intros q. unfold q. cbn [handleMessage].
  rewrite (Mode_eqb_neq _ _ Hne). fields.
  rewrite (reachable_duration _ _ Hreach).
  split; intros Hp.
  - apply Qle_bool_iff in Hp. rewrite Hp. repeat split; reflexivity.
  - rewrite (Qle_bool_false _ _ Hp). repeat split; reflexivity.
Qed.

(** At rest a request arms 2400 samples at 48 kHz. *)
Lemma set_mode_at_rest :
  crossfadeSamplesRemaining
    (handleMessage 48000 (SetMode Brown) (newNoiseProcessor 48000 0)) = 2400.
Proof.
  assert (Hreach : reachable 48000 (newNoiseProcessor 48000 0))
    by (exists 0, []; reflexivity).
  assert (Hne : Brown <> targetMode (newNoiseProcessor 48000 0))
    by (cbn; discriminate).
  destruct (set_mode_branches 48000 (newNoiseProcessor 48000 0) Brown Hreach Hne)
    as [Harm _].
  destruct Harm as (_ & _ & _ & Hrem); [cbn; discriminate |].
  rewrite Hrem. reflexivity.
Defined.

(** ** The frame of entropy mixing *)

(** C10.  An ['entropy-seeds'] message appends its batch to the seed queue
    and changes no other field; the mixing step at the start of a render
    block takes the head batch off the queue and, besides that, changes
    the two PRNG states only: the pink and brown filter states (with the
    brown constants) and the four crossfade fields are unchanged, as are
    the remaining fields. *)
Theorem C10_mixing_frame (sampleRate : Q) (p : NoiseProcessor) (batch : list Z) :
  let q := handleMessage sampleRate (EntropySeeds batch) p in
  let m := mixQueued p in
  (seedQueue q = seedQueue p ++ [batch]
   /\ stateL q = stateL p /\ stateR q = stateR p
   /\ pinkL q = pinkL p /\ pinkR q = pinkR p
   /\ brownL q = brownL p /\ brownR q = brownR p
   /\ fadeOf q = fadeOf p /\ crossfadeDuration q = crossfadeDuration p
   /\ samplesSinceLastSeed q = samplesSinceLastSeed p
   /\ seedRequestThreshold q = seedRequestThreshold p
   /\ initialized q = initialized p)
  /\ (seedQueue m = tl (seedQueue p)
      /\ pinkL m = pinkL p /\ pinkR m = pinkR p
      /\ brownL m = brownL p /\ brownR m = brownR p
      /\ currentMode m = currentMode p /\ targetMode m = targetMode p
      /\ crossfadeProgress m = crossfadeProgress p
      /\ crossfadeSamplesRemaining m = crossfadeSamplesRemaining p
      /\ crossfadeDuration m = crossfadeDuration p
      /\ samplesSinceLastSeed m = samplesSinceLastSeed p
      /\ seedRequestThreshold m = seedRequestThreshold p
      /\ initialized m = initialized p).
Proof.
  intros q m. split.
  - unfold q. cbn [handleMessage]. fields. repeat split; reflexivity.
  - unfold m, mixQueued. destruct (seedQueue p) as [| seed rest] eqn:E; fields.
    + rewrite E. repeat split; reflexivity.
    + repeat split; reflexivity.
Qed.

(** ** Initial seeds *)

Lemma initState_low seeds :
  (8 <= length seeds)%nat ->
  initState (subarray 0 4 seeds)
  = mkXoshiro (nth 0 seeds 0) (nth 1 seeds 0) (nth 2 seeds 0) (nth 3 seeds 0)
  /\ initState (subarray 4 8 seeds)
     = mkXoshiro (nth 4 seeds 0) (nth 5 seeds 0) (nth 6 seeds 0) (nth 7 seeds 0).
Proof.
  intros H.
  do 8 (destruct seeds as [| ? seeds]; [cbn [length] in H; lia |]).
  split; reflexivity.
Qed.

Lemma handleMessage_initialized sr msg p :
  initialized p = true -> initialized (handleMessage sr msg p) = true.
Proof.
  intros H. destruct msg as [seeds | seeds | mode]; cbn [handleMessage].
  - exact H.
  - rewrite H. cbn [negb andb]. exact H.
  - destruct (Mode_eqb mode (targetMode p)); [exact H |]. fields.
    destruct (Qle_bool 1 (crossfadeProgress p)); exact H.
Qed.

Lemma requestSeed_control_rest n p :
  initialized (fst (requestSeed n p)) = initialized p
  /\ seedRequestThreshold (fst (requestSeed n p)) = seedRequestThreshold p.
Proof.
  unfold requestSeed.
  match goal with |- context [if ?t then _ else _] => destruct t end;
    split; reflexivity.
Qed.

Lemma mixQueued_control_rest p :
  initialized (mixQueued p) = initialized p
  /\ seedRequestThreshold (mixQueued p) = seedRequestThreshold p
  /\ samplesSinceLastSeed (mixQueued p) = samplesSinceLastSeed p.
Proof. unfold mixQueued. destruct (seedQueue p); repeat split; reflexivity. Qed.

Lemma processBlock_control n p :
  initialized (after (processBlock n p)) = initialized p
  /\ seedRequestThreshold (after (processBlock n p)) = seedRequestThreshold p
  /\ samplesSinceLastSeed (after (processBlock n p))
     = samplesSinceLastSeed (fst (requestSeed n p)).
Proof.
  unfold processBlock. cbn [after].
  pose proof (renderLoop_control n
                (crossfadingOf (mixQueued (fst (requestSeed n p))))
                (crossfadeIncrementOf (mixQueued (fst (requestSeed n p))))
                (mixQueued (fst (requestSeed n p)))) as E.
  unfold controlOf in E. injection E as _ Ec Et Ei _.
  destruct (mixQueued_control_rest (fst (requestSeed n p))) as (Mi & Mt & Mc).
  destruct (requestSeed_control_rest n p) as (Ri & Rt).
  rewrite Ei, Et, Ec, Mi, Mt, Mc, Ri, Rt. repeat split; reflexivity.
Qed.

Lemma run_initialized sr events : forall p,
  initialized p = true -> initialized (run sr events p) = true.
Proof.
  induction events as [| e rest IH]; intros p H; cbn [run fold_left]; [exact H |].
  fold (run sr rest (step sr e p)). apply IH.
  destruct e; cbn [step].
  - apply handleMessage_initialized. exact H.
  - destruct (processBlock_control blockSize p) as (Ei & _). rewrite Ei. exact H.
Qed.

(** C5, as amended.  The first ['initial-seeds'] message with at least 8
    words replaces both generator states, words 0-3 going to the left and
    words 4-7 to the right channel, and marks the processor initialised;
    an ['initial-seeds'] message that is short, or that arrives once the
    processor is initialised (which it then stays for ever), leaves the
    whole state unchanged.  An ['entropy-seeds'] batch is never rejected
    for its size: it is appended to the queue whatever its length, and
    when an empty batch is consumed both generators are still stepped 8
    times. *)
Theorem C5_seed_payloads (sampleRate : Q) (p : NoiseProcessor) (seeds : list Z) :
  (initialized p = false -> (8 <= length seeds)%nat ->
     handleMessage sampleRate (InitialSeeds seeds) p
     = set_initialized true
         (set_states
            (mkXoshiro (nth 0 seeds 0) (nth 1 seeds 0) (nth 2 seeds 0) (nth 3 seeds 0))
            (mkXoshiro (nth 4 seeds 0) (nth 5 seeds 0) (nth 6 seeds 0) (nth 7 seeds 0))
            p))
  /\ (initialized p = true \/ (length seeds < 8)%nat ->
        handleMessage sampleRate (InitialSeeds seeds) p = p)
  /\ (initialized p = true ->
        forall events later,
          let p' := run sampleRate events p in
          initialized p' = true
          /\ handleMessage sampleRate (InitialSeeds later) p' = p')
  /\ handleMessage sampleRate (EntropySeeds seeds) p
     = set_seedQueue (seedQueue p ++ [seeds]) p
  /\ (forall rest, seedQueue p = [] :: rest ->
        mixQueued p
        = set_states (advance 8 (stateL p)) (advance 8 (stateR p))
                     (set_seedQueue rest p)).
Proof.
  split; [| split; [| split; [| split]]].
  - intros Hi Hlen. cbn [handleMessage]. rewrite Hi.
    apply Nat.leb_le in Hlen. rewrite Hlen. cbn [negb andb].
    destruct (initState_low seeds (proj1 (Nat.leb_le _ _) Hlen)) as [EL ER].
    rewrite EL, ER. reflexivity.
  - intros [Hi | Hlen]; cbn [handleMessage].
    + rewrite Hi. reflexivity.
    + apply Nat.leb_gt in Hlen. rewrite Hlen, andb_false_r. reflexivity.
  - intros Hi events later p'.
    assert (Hi' : initialized p' = true) by (apply run_initialized; exact Hi).
    split; [exact Hi' |]. cbn [handleMessage]. rewrite Hi'. reflexivity.
  - reflexivity.
  - intros rest E. rewrite (mixQueued_cons _ [] rest E). reflexivity.
Qed.

(** Eight words at start-up are taken; the same message again is ignored. *)
Lemma C5_seed_payloads_witness :
  let p := newNoiseProcessor 48000 0 in
  let q := handleMessage 48000 (InitialSeeds [11; 12; 13; 14; 15; 16; 17; 18]) p in
  stateL q = mkXoshiro 11 12 13 14 /\ stateR q = mkXoshiro 15 16 17 18
  /\ handleMessage 48000 (InitialSeeds [21; 22; 23; 24; 25; 26; 27; 28]) q = q.
Proof.
  intros p q.
  pose proof (C5_seed_payloads 48000 p [11; 12; 13; 14; 15; 16; 17; 18])
    as (Hfirst & _).
  pose proof (C5_seed_payloads 48000 q [21; 22; 23; 24; 25; 26; 27; 28])
    as (_ & Hlater & _).
  assert (Eq : q = set_initialized true
                     (set_states (mkXoshiro 11 12 13 14) (mkXoshiro 15 16 17 18) p)).
  { apply Hfirst; [reflexivity | cbn [length]; lia]. }
  split; [rewrite Eq; reflexivity |].
  split; [rewrite Eq; reflexivity |].
  apply Hlater. left. rewrite Eq. reflexivity.
Defined.

(** C5 as stated fails on an empty ['entropy-seeds'] batch: handling it
    mutates the queue, and consuming it moves both generators. *)
Lemma C5_counterexample :
  let p := newNoiseProcessor 48000 0 in
  let q := handleMessage 48000 (EntropySeeds []) p in
  seedQueue p = [] /\ seedQueue q = [[]]
  /\ (q = p -> False)
  /\ stateL q = mkXoshiro 0 2654435769 1013904242 3668340011
  /\ stateL (mixQueued q) = mkXoshiro 3006862273 3063485830 1014998023 2044436705.
Proof.
  intros p q.
  split; [reflexivity |]. split; [reflexivity |].
  split; [intros E; apply (f_equal seedQueue) in E; discriminate E |].
  split; vm_compute; reflexivity.
Defined.

(** ** The crossfade state machine *)

Lemma fadeLoop_off n : forall inc f, fadeLoop n false inc f = f.
Proof. induction n as [| n IH]; intros inc f; cbn [fadeLoop fadeSample]; auto. Qed.

Lemma fadeLoop_on_count n : forall inc f,
  fRemaining (fadeLoop n true inc f) = fRemaining f - Z.of_nat n
  /\ fTarget (fadeLoop n true inc f) = fTarget f.
Proof.
  induction n as [| n IH]; intros inc f; cbn [fadeLoop].
  - split; [cbn; lia | reflexivity].
  - destruct (IH inc (fadeSample true inc f)) as [Er Et]. rewrite Er, Et.
    unfold fadeSample. destruct (fRemaining f - 1 <=? 0); fields; split; lia || reflexivity.
Qed.

Lemma fadeLoop_on_running n : forall inc f,
  Z.of_nat n < fRemaining f ->
  fCurrent (fadeLoop n true inc f) = fCurrent f
  /\ (fProgress (fadeLoop n true inc f)
      == fProgress f + inject_Z (Z.of_nat n) * inc)%Q.
Proof.
  induction n as [| n IH]; intros inc f H; cbn [fadeLoop].
  - split; [reflexivity |]. change (inject_Z (Z.of_nat 0)) with 0%Q. Lqa.lra.
  - assert (E : fadeSample true inc f
                = mkFade (fCurrent f) (fTarget f) (fProgress f + inc)%Q
                         (fRemaining f - 1)).
    { unfold fadeSample. destruct (fRemaining f - 1 <=? 0) eqn:L; [lia | reflexivity]. }
    rewrite E. destruct (IH inc (mkFade (fCurrent f) (fTarget f)
                                   (fProgress f + inc)%Q (fRemaining f - 1)))
      as [Ec Ep]; [fields; lia |].
    rewrite Ec, Ep. fields. split; [reflexivity |].
    rewrite Nat2Z.inj_succ. unfold Z.succ. rewrite inject_Z_plus.
    change (inject_Z 1) with 1%Q. Lqa.lra.
Qed.

Lemma fadeLoop_on_done n : forall inc f,
  (0 < n)%nat -> fRemaining f <= Z.of_nat n ->
  fCurrent (fadeLoop n true inc f) = fTarget f
  /\ fProgress (fadeLoop n true inc f) = 1%Q.
Proof.
  induction n as [| n IH]; intros inc f Hn H; [lia |]. cbn [fadeLoop].
  destruct n as [| m].
  - cbn [fadeLoop]. unfold fadeSample.
    destruct (fRemaining f - 1 <=? 0) eqn:L; [split; reflexivity | lia].
  - destruct (IH inc (fadeSample true inc f)) as [Ec Ep]; [lia | |].
    + unfold fadeSample. destruct (fRemaining f - 1 <=? 0); fields; lia.
    + rewrite Ec, Ep. split; [| reflexivity].
      unfold fadeSample. destruct (fRemaining f - 1 <=? 0); reflexivity.
Qed.

Lemma fadeBlock_rest n f : fRemaining f <= 0 -> fadeBlock n f = f.
Proof.
  intros H. unfold fadeBlock.
  destruct (0 <? fRemaining f) eqn:L; [lia | apply fadeLoop_off].
Qed.

Lemma fadeBlock_running n f :
  Z.of_nat n < fRemaining f ->
  fRemaining (fadeBlock n f) = fRemaining f - Z.of_nat n
  /\ fTarget (fadeBlock n f) = fTarget f
  /\ fCurrent (fadeBlock n f) = fCurrent f
  /\ (fProgress (fadeBlock n f)
      == fProgress f + inject_Z (Z.of_nat n) / inject_Z (fRemaining f))%Q.
Proof.
  intros H. unfold fadeBlock.
  destruct (0 <? fRemaining f) eqn:L; [| lia].
  destruct (fadeLoop_on_count n (1 / inject_Z (fRemaining f)) f) as [Er Et].
  destruct (fadeLoop_on_running n (1 / inject_Z (fRemaining f)) f H) as [Ec Ep].
  repeat split; try assumption.
  rewrite Ep. unfold Qdiv. Lqa.lra.
Qed.

Lemma fadeBlock_done n f :
  0 < fRemaining f <= Z.of_nat n ->
  fRemaining (fadeBlock n f) = fRemaining f - Z.of_nat n
  /\ fTarget (fadeBlock n f) = fTarget f
  /\ fCurrent (fadeBlock n f) = fTarget f
  /\ fProgress (fadeBlock n f) = 1%Q.
Proof.
  intros H. unfold fadeBlock.
  destruct (0 <? fRemaining f) eqn:L; [| lia].
  destruct (fadeLoop_on_count n (1 / inject_Z (fRemaining f)) f) as [Er Et].
  destruct (fadeLoop_on_done n (1 / inject_Z (fRemaining f)) f) as [Ec Ep];
    [lia | lia |].
  repeat split; assumption.
Qed.

Lemma fadeAt_block len c m t n f :
  fadeAt len c m t f -> fadeAt len c m (t + Z.of_nat n) (fadeBlock n f).
Proof.
  intros [(Ht & Er & Ec & Em) | (Ht & Ep & Ec & Em & Er)].
  - destruct (Z_lt_le_dec (Z.of_nat n) (fRemaining f)) as [L | L].
    + destruct (fadeBlock_running n f L) as (Br & Bt & Bc & _).
      left. rewrite Br, Bt, Bc. repeat split; try assumption; lia.
    + destruct (fadeBlock_done n f) as (Br & Bt & Bc & Bp); [lia |].
      right. rewrite Br, Bt, Bc, Bp. repeat split; try assumption; lia.
  - rewrite fadeBlock_rest by lia. right. repeat split; try assumption; lia.
Qed.

Lemma fadeAt_renders sr d len c m blocks : forall t f,
  fadeAt len c m t f ->
  fadeAt len c m (t + totalSamples blocks) (fadeRun sr d (renders blocks) f).
Proof.
  induction blocks as [| n rest IH]; intros t f H.
  - unfold totalSamples. cbn. rewrite Z.add_0_r. exact H.
  - cbn [renders map fadeRun fold_left fadeStep].
    fold (renders rest). fold (fadeRun sr d (renders rest) (fadeBlock n f)).
    replace (t + totalSamples (n :: rest))
      with (t + Z.of_nat n + totalSamples rest)
      by (unfold totalSamples, list_sum; cbn [fold_right]; lia).
    apply IH. apply fadeAt_block. exact H.
Qed.

(** ** The equal-power blend *)

Lemma gains_0 t : (t == 0)%Q -> oldGain t = 1%R /\ newGain t = 0%R.
Proof.
  intros E. unfold oldGain, newGain.
  rewrite (Qreals.Qeq_eqR _ _ E), RMicromega.Q2R_0, Rmult_0_r.
  split; [apply cos_0 | apply sin_0].
Qed.

Lemma gains_1 t : (t == 1)%Q -> oldGain t = 0%R /\ newGain t = 1%R.
Proof.
  intros E. unfold oldGain, newGain.
  rewrite (Qreals.Qeq_eqR _ _ E), RMicromega.Q2R_1, Rmult_1_r.
  replace (0.5 * PI)%R with (PI / 2)%R by Lra.lra.
  split; [apply cos_PI2 | apply sin_PI2].
Qed.

Lemma cos_PI4_bounds : (0.7071 < cos (PI / 4) < 0.7072)%R.
Proof.
  assert (Hpos : (0 < cos (PI / 4))%R).
  { apply cos_gt_0; pose proof PI_RGT_0; Lra.lra. }
  assert (Hsq : (cos (PI / 4) * cos (PI / 4) = 1 / 2)%R).
  { rewrite cos_PI4.
    assert (Hs : (sqrt 2 * sqrt 2 = 2)%R) by (apply sqrt_def; Lra.lra).
    assert (Hn : (sqrt 2 <> 0)%R).
    { intros Z0. rewrite Z0 in Hs. Lra.lra. }
    field_simplify; [| exact Hn]. rewrite <- Hs at 2. field. exact Hn. }
  split; Lra.nra.
Qed.

Lemma gains_half t :
  (t == 0.5)%Q -> oldGain t = cos (PI / 4) /\ newGain t = cos (PI / 4).
Proof.
  intros E. unfold oldGain, newGain.
  rewrite (Qreals.Qeq_eqR _ _ E).
  replace (0.5 * PI * Q2R 0.5)%R with (PI / 4)%R.
  - split; [reflexivity |]. rewrite sin_PI4, cos_PI4. reflexivity.
  - unfold Q2R. cbn. Lra.lra.
Qed.

Lemma renderSample_output inc p :
  snd (renderSample true inc p)
  = blend (crossfadeProgress p) (modeSamples (currentMode p) p)
          (modeSamples (targetMode p) p)
  /\ snd (renderSample false inc p) = modeSamples (currentMode p) p.
Proof. split; reflexivity. Qed.

Lemma blend_at_0 t old new : (t == 0)%Q -> blend t old new = old.
Proof.
  intros E. destruct (gains_0 t E) as [Eo En]. destruct old as [oL oR].
  unfold blend. rewrite Eo, En. cbn [fst snd]. f_equal; ring.
Qed.

Lemma blend_at_1 t old new : (t == 1)%Q -> blend t old new = new.
Proof.
  intros E. destruct (gains_1 t E) as [Eo En]. destruct new as [nL nR].
  unfold blend. rewrite Eo, En. cbn [fst snd]. f_equal; ring.
Qed.

Lemma armed_fade sr p mode :
  reachable sr p -> (1 <= crossfadeProgress p)%Q -> mode <> targetMode p ->
  fadeOf (handleMessage sr (SetMode mode) p)
  = mkFade (currentMode p) mode 0 (crossfadeLength sr).
Proof.
  intros Hreach Hrest Hne.
  rewrite fadeOf_handleMessage, (reachable_duration _ _ Hreach).
  cbn [fadeMessage]. fields.
  rewrite (Mode_eqb_neq _ _ Hne).
  apply Qle_bool_iff in Hrest. rewrite Hrest. reflexivity.
Qed.

Lemma progress_processBlock n p :
  crossfadeProgress (after (processBlock n p)) = fProgress (fadeBlock n (fadeOf p)).
Proof. rewrite <- fadeOf_processBlock. reflexivity. Qed.

Lemma remaining_processBlock n p :
  crossfadeSamplesRemaining (after (processBlock n p))
  = fRemaining (fadeBlock n (fadeOf p)).
Proof. rewrite <- fadeOf_processBlock. reflexivity. Qed.

(** C1, as amended.  A ['set-mode'] request at rest arms a crossfade of
    [R = floor(0.05 * sampleRate)] samples with progress 0.  The increment
    is fixed when a render block starts: in the block that begins the fade
    every sample adds [1/R], so progress is [k/R] after [k < R] samples of
    it.  With nothing but render calls after the request, however the
    samples are split into blocks, the fade is still counting down
    ([R - t] samples remain, [currentMode] unchanged) after [t < R] samples
    and has collapsed (progress 1, [currentMode = targetMode]) after
    [t >= R] samples, the count being 0 at exactly [R].  A sample rendered
    while fading is [cos(0.5 pi t) * old + sin(0.5 pi t) * new] on each
    channel: the old-mode output at progress 0, the new-mode output at
    progress 1, and both gains are [cos(pi/4)], about 0.7071, at 0.5. *)
Theorem C1_crossfade
    (sampleRate : Q) (p : NoiseProcessor) (mode : Mode)
    (Hreach : reachable sampleRate p)
    (Hrest : (1 <= crossfadeProgress p)%Q)
    (Hne : mode <> targetMode p)
    (Hlen : 0 < crossfadeLength sampleRate) :
  let len := crossfadeLength sampleRate in
  let q := handleMessage sampleRate (SetMode mode) p in
  (crossfadeSamplesRemaining q = len /\ crossfadeProgress q = 0%Q
   /\ targetMode q = mode /\ currentMode q = currentMode p)
  /\ (forall k, Z.of_nat k < len ->
        (crossfadeProgress (after (processBlock k q))
         == inject_Z (Z.of_nat k) / inject_Z len)%Q)
  /\ (forall blocks,
        let q' := run sampleRate (renders blocks) q in
        let t := totalSamples blocks in
        (t < len ->
           crossfadeSamplesRemaining q' = len - t
           /\ currentMode q' = currentMode p /\ targetMode q' = mode)
        /\ (len <= t ->
              crossfadeProgress q' = 1%Q /\ currentMode q' = mode
              /\ targetMode q' = mode /\ crossfadeSamplesRemaining q' <= 0)
        /\ (t = len -> crossfadeSamplesRemaining q' = 0))
  /\ (forall inc s,
        snd (renderSample true inc s)
        = blend (crossfadeProgress s) (modeSamples (currentMode s) s)
                (modeSamples (targetMode s) s)
        /\ snd (renderSample false inc s) = modeSamples (currentMode s) s)
  /\ (forall t old new, (t == 0)%Q -> blend t old new = old)
  /\ (forall t old new, (t == 1)%Q -> blend t old new = new)
  /\ (forall t, (t == 0.5)%Q ->
        oldGain t = cos (PI / 4) /\ newGain t = cos (PI / 4))
  /\ (0.7071 < cos (PI / 4) < 0.7072)%R.
Proof.
  intros len q.
  pose proof (armed_fade sampleRate p mode Hreach Hrest Hne) as Ef.
  fold q in Ef. fold len in Ef.
  assert (Er : crossfadeSamplesRemaining q = len)
    by exact (f_equal fRemaining Ef).
  assert (Ep : crossfadeProgress q = 0%Q) by exact (f_equal fProgress Ef).
  assert (Et : targetMode q = mode) by exact (f_equal fTarget Ef).
  assert (Ec : currentMode q = currentMode p) by exact (f_equal fCurrent Ef).
  split; [repeat split; assumption |].
  split.
  { intros k Hk.
    change (crossfadeProgress (after (processBlock k q)))
      with (fProgress (fadeOf (after (processBlock k q)))).
    rewrite fadeOf_processBlock, Ef.
    destruct (fadeBlock_running k (mkFade (currentMode p) mode 0 len))
      as (_ & _ & _ & Hp); [exact Hk |].
    rewrite Hp. cbn [fProgress fRemaining]. Lqa.lra. }
  split.
  { intros blocks q' t.
    assert (Hat : fadeAt len (currentMode p) mode (0 + t) (fadeOf q')).
    { unfold q'. rewrite fadeOf_run, Ef.
      apply fadeAt_renders. left. cbn [fRemaining fCurrent fTarget].
      repeat split; try reflexivity; lia. }
    rewrite Z.add_0_l in Hat. unfold fadeAt in Hat. cbn [fadeOf fRemaining fCurrent fTarget fProgress] in Hat.
    split; [| split].
    - intros Ht. destruct Hat as [(_ & Hr & Hc & Hm) | (Hge & _)]; [| lia].
      repeat split; assumption.
    - intros Ht. destruct Hat as [(Hlt & _) | (_ & Hp & Hc & Hm & Hr)]; [lia |].
      repeat split; try assumption; lia.
    - intros Ht. destruct Hat as [(Hlt & _) | (_ & _ & _ & _ & Hr)]; lia. }
  split; [intros inc s; apply renderSample_output |].
  split; [apply blend_at_0 |].
  split; [apply blend_at_1 |].
  split; [apply gains_half | apply cos_PI4_bounds].
Qed.

(** At 48 kHz the fade is 2400 samples: 128 samples in, progress is
    128/2400; after 18 blocks of 128 and one of 96 it has collapsed. *)
Lemma C1_crossfade_witness :
  let q := handleMessage 48000 (SetMode Brown) (newNoiseProcessor 48000 0) in
  (crossfadeProgress (after (processBlock 128 q)) == 128 # 2400)%Q
  /\ crossfadeSamplesRemaining (run 48000 (renders (repeat 128%nat 18 ++ [96%nat])) q) = 0.
Proof.
  intros q.
  assert (Hreach : reachable 48000 (newNoiseProcessor 48000 0))
    by (exists 0, []; reflexivity).
  assert (Hrest : (1 <= crossfadeProgress (newNoiseProcessor 48000 0))%Q)
    by (cbn; discriminate).
  assert (Hne : Brown <> targetMode (newNoiseProcessor 48000 0))
    by (cbn; discriminate).
  assert (Hlen : 0 < crossfadeLength 48000) by reflexivity.
  destruct (C1_crossfade 48000 (newNoiseProcessor 48000 0) Brown
              Hreach Hrest Hne Hlen) as (_ & Hlin & Hdone & _).
  split.
  - apply (Qeq_trans _ _ _ (Hlin 128%nat eq_refl)). vm_compute. reflexivity.
  - destruct (Hdone (repeat 128%nat 18 ++ [96%nat])) as (_ & _ & Hexact).
    apply Hexact. reflexivity.
Defined.

(** C1 as stated fails inside a render block: after the 128 samples of
    the block that starts a 2400-sample fade, progress is 128/2400, not
    the sum [1/2400 + 1/2399 + ... + 1/2273] of the reciprocals of the
    remaining count. *)
Lemma C1_counterexample :
  let q := handleMessage 48000 (SetMode Brown) (newNoiseProcessor 48000 0) in
  crossfadeSamplesRemaining q = 2400
  /\ Qeq_bool (crossfadeProgress (after (processBlock 128 q))) (128 # 2400) = true
  /\ Qeq_bool (crossfadeProgress (after (processBlock 128 q)))
              (FadeSpec.progressAfter 128 (crossfadeSamplesRemaining q)
                                      (crossfadeProgress q)) = false
  /\ Qle_bool (FadeSpec.progressAfter 2 2400 0)
              (crossfadeProgress (after (processBlock 2 q))) = false.
Proof.
  intros q.
  rewrite !progress_processBlock.
  repeat split; vm_compute; reflexivity.
Defined.

Lemma run_fade sr events p :
  currentMode (run sr events p)
  = fCurrent (fadeRun sr (crossfadeDuration p) events (fadeOf p))
  /\ targetMode (run sr events p)
     = fTarget (fadeRun sr (crossfadeDuration p) events (fadeOf p))
  /\ crossfadeProgress (run sr events p)
     = fProgress (fadeRun sr (crossfadeDuration p) events (fadeOf p))
  /\ crossfadeSamplesRemaining (run sr events p)
     = fRemaining (fadeRun sr (crossfadeDuration p) events (fadeOf p)).
Proof. rewrite <- fadeOf_run. repeat split; reflexivity. Qed.

Lemma remaining_handleMessage sr msg p :
  crossfadeSamplesRemaining (handleMessage sr msg p)
  = fRemaining (fadeMessage sr (crossfadeDuration p) msg (fadeOf p)).
Proof. rewrite <- fadeOf_handleMessage. reflexivity. Qed.

Lemma restInv_step sr e f :
  0 < crossfadeLength sr -> restInv f -> restInv (fadeStep sr 0.05 e f).
Proof.
  intros Hlen Hinv. destruct e as [msg | n]; cbn [fadeStep].
  - destruct msg as [seeds | seeds | mode]; cbn [fadeMessage]; try exact Hinv.
    destruct (Mode_eqb mode (fTarget f)); [exact Hinv |].
    destruct (Qle_bool 1 (fProgress f)) eqn:L.
    + intros H. cbn [fRemaining] in H. unfold crossfadeLength in Hlen. lia.
    + intros H. cbn [fRemaining] in H. destruct (Hinv H) as [Ep _].
      rewrite Ep in L. discriminate L.
  - destruct (Z_lt_le_dec 0 (fRemaining f)) as [Hpos | Hrest].
    + destruct (Z_lt_le_dec (Z.of_nat n) (fRemaining f)) as [L | L].
      * destruct (fadeBlock_running n f L) as (Br & _). intros H. lia.
      * destruct (fadeBlock_done n f) as (_ & Bt & Bc & Bp); [lia |].
        intros _. rewrite Bp, Bc, Bt. split; reflexivity.
    + rewrite fadeBlock_rest by exact Hrest. exact Hinv.
Qed.

Lemma restInv_run sr events : forall f,
  0 < crossfadeLength sr -> restInv f -> restInv (fadeRun sr 0.05 events f).
Proof.
  induction events as [| e rest IH]; intros f Hlen Hinv; cbn [fadeRun fold_left];
    [exact Hinv |].
  fold (fadeRun sr 0.05 rest (fadeStep sr 0.05 e f)).
  apply IH; [exact Hlen |]. apply restInv_step; assumption.
Qed.

Lemma reachable_at_rest sr p :
  reachable sr p -> 0 < crossfadeLength sr ->
  crossfadeSamplesRemaining p <= 0 ->
  crossfadeProgress p = 1%Q /\ currentMode p = targetMode p.
Proof.
  intros (cf & events & ->) Hlen H.
  assert (Hinv : restInv (fadeOf (run sr events (newNoiseProcessor sr cf)))).
  { rewrite fadeOf_run. apply restInv_run; [exact Hlen |].
    intros _. split; reflexivity. }
  exact (Hinv H).
Qed.

Lemma fadeRun_running sr d size k : forall f,
  Z.of_nat k * Z.of_nat size < fRemaining f ->
  fRemaining (fadeRun sr d (renders (repeat size k)) f)
  = fRemaining f - Z.of_nat k * Z.of_nat size
  /\ fTarget (fadeRun sr d (renders (repeat size k)) f) = fTarget f
  /\ fCurrent (fadeRun sr d (renders (repeat size k)) f) = fCurrent f
  /\ (fProgress (fadeRun sr d (renders (repeat size k)) f)
      == fProgress f + blockSum k size (fRemaining f))%Q.
Proof.
  induction k as [| k IH]; intros f H.
  - cbn [repeat renders map fadeRun fold_left blockSum].
    repeat split; try reflexivity; [lia | Lqa.lra].
  - cbn [repeat renders map fadeRun fold_left fadeStep blockSum].
    fold (renders (repeat size k)).
    fold (fadeRun sr d (renders (repeat size k)) (fadeBlock size f)).
    destruct (fadeBlock_running size f) as (Br & Bt & Bc & Bp); [nia |].
    destruct (IH (fadeBlock size f)) as (Er & Et & Ec & Ep); [rewrite Br; nia |].
    rewrite Er, Et, Ec, Ep, Br, Bt, Bc, Bp.
    repeat split; try reflexivity; [nia | Lqa.lra].
Qed.

(** C2 at a failing input.  At 48 kHz a mode change followed by 13 render
    blocks of 128 samples leaves the processor in the middle of its fade
    (736 samples remain, [currentMode] still differs from [targetMode])
    with progress above 1.12; a mode change received in that state arms a
    new 2400-sample fade.  After 19 blocks the fade has collapsed with
    progress 1 and equal modes, and the remaining count is -32. *)
Theorem C2_progress_overshoot :
  let start := handleMessage 48000 (SetMode Brown) (newNoiseProcessor 48000 0) in
  let mid := run 48000 (renders (repeat 128%nat 13)) start in
  let done := run 48000 (renders (repeat 128%nat 19)) start in
  reachable 48000 mid
  /\ crossfadeSamplesRemaining mid = 736
  /\ currentMode mid = Pink /\ targetMode mid = Brown
  /\ Qle_bool 1 (crossfadeProgress mid) = true
  /\ Qle_bool 1.12 (crossfadeProgress mid) = true
  /\ crossfadeSamplesRemaining (handleMessage 48000 (SetMode Pink) mid) = 2400
  /\ reachable 48000 done
  /\ crossfadeSamplesRemaining done = -32
  /\ crossfadeProgress done = 1%Q
  /\ currentMode done = Brown /\ targetMode done = Brown.
Proof.
  intros start mid done.
  assert (Rstart : reachable 48000 start)
    by (apply reachable_message, reachable_new).
  assert (Rmid : reachable 48000 mid) by (apply reachable_run; exact Rstart).
  assert (Rdone : reachable 48000 done) by (apply reachable_run; exact Rstart).
  assert (Ef : fadeOf start = mkFade Pink Brown 0 2400) by reflexivity.
  split; [exact Rmid |].
  destruct (run_fade 48000 (renders (repeat 128%nat 13)) start) as (Mc & Mt & Mp & Mr).
  destruct (run_fade 48000 (renders (repeat 128%nat 19)) start) as (Dc & Dt & Dp & Dr).
  fold mid in Mc, Mt, Mp, Mr. fold done in Dc, Dt, Dp, Dr.
  rewrite (reachable_duration _ _ Rstart), Ef in Mc, Mt, Mp, Mr, Dc, Dt, Dp, Dr.
  destruct (fadeRun_running 48000 0.05 128 13 (mkFade Pink Brown 0 2400))
    as (Kr & Kt & Kc & Kp); [reflexivity |].
  cbn [fRemaining fTarget fCurrent fProgress] in Kr, Kt, Kc, Kp.
  assert (Hsum : (1.12 <= blockSum 13 128 2400)%Q) by (vm_compute; discriminate).
  assert (Hp : (1.12 <= crossfadeProgress mid)%Q).
  { rewrite Mp. rewrite Kp. Lqa.lra. }
  assert (Hp1 : Qle_bool 1 (crossfadeProgress mid) = true).
  { apply Qle_bool_iff. Lqa.lra. }
  (* the fade's end: 18 running blocks, then the collapsing one *)
  destruct (fadeRun_running 48000 0.05 128 18 (mkFade Pink Brown 0 2400))
    as (Lr & Lt & Lc & _); [reflexivity |].
  cbn [fRemaining fTarget fCurrent] in Lr, Lt, Lc.
  assert (Hd : fadeRun 48000 0.05 (renders (repeat 128%nat 19)) (mkFade Pink Brown 0 2400)
               = fadeBlock 128
                   (fadeRun 48000 0.05 (renders (repeat 128%nat 18))
                      (mkFade Pink Brown 0 2400))).
  { change 19%nat with (18 + 1)%nat. rewrite repeat_app. unfold renders.
    rewrite map_app. unfold fadeRun. rewrite fold_left_app. reflexivity. }
  destruct (fadeBlock_done 128
              (fadeRun 48000 0.05 (renders (repeat 128%nat 18))
                 (mkFade Pink Brown 0 2400))) as (Fr & Ft & Fc & Fp);
    [rewrite Lr; lia |].
  rewrite <- Hd in Fr, Ft, Fc, Fp. rewrite Lr in Fr. rewrite Lt in Ft, Fc.
  split; [rewrite Mr, Kr; reflexivity |].
  split; [rewrite Mc, Kc; reflexivity |].
  split; [rewrite Mt, Kt; reflexivity |].
  split; [exact Hp1 |].
  split; [apply Qle_bool_iff; exact Hp |].
  split.
  { rewrite remaining_handleMessage, (reachable_duration _ _ Rmid).
    cbn [fadeMessage fadeOf fTarget fProgress]. rewrite Mt, Kt, Hp1. reflexivity. }
  split; [exact Rdone |].
  split; [rewrite Dr, Fr; reflexivity |].
  split; [rewrite Dp; exact Fp |].
  split; [rewrite Dc; exact Fc | rewrite Dt; exact Ft].
Qed.

(** C7 at a failing input.  At 48 kHz, after a mode change to brown, a
    second request (back to pink) is delivered at two moments of the fade.
    After one render block of 128 samples (2272 samples remain, progress
    below 1) it changes the target only: the remaining count and progress
    stay as they are.  After 13 blocks the fade is still running (736
    samples remain, [currentMode] is pink, [targetMode] is brown), but
    progress has passed 1, so the same request arms a new fade: 2400
    samples, progress 0. *)
Theorem C7_restart_mid_fade :
  let start := handleMessage 48000 (SetMode Brown) (newNoiseProcessor 48000 0) in
  let early := run 48000 (renders [128%nat]) start in
  let mid := run 48000 (renders (repeat 128%nat 13)) start in
  let kept := handleMessage 48000 (SetMode Pink) early in
  let again := handleMessage 48000 (SetMode Pink) mid in
  (reachable 48000 early
   /\ currentMode early = Pink /\ targetMode early = Brown
   /\ crossfadeSamplesRemaining early = 2272
   /\ targetMode kept = Pink
   /\ crossfadeSamplesRemaining kept = 2272
   /\ crossfadeProgress kept = crossfadeProgress early)
  /\ (reachable 48000 mid
      /\ currentMode mid = Pink /\ targetMode mid = Brown
      /\ crossfadeSamplesRemaining mid = 736
      /\ targetMode again = Pink
      /\ crossfadeSamplesRemaining again = 2400
      /\ crossfadeProgress again = 0%Q).
Proof.
  intros start early mid kept again.
  assert (Rstart : reachable 48000 start)
    by (apply reachable_message, reachable_new).
  assert (Rearly : reachable 48000 early) by (apply reachable_run; exact Rstart).
  assert (Rmid : reachable 48000 mid) by (apply reachable_run; exact Rstart).
  assert (Ef : fadeOf start = mkFade Pink Brown 0 2400) by reflexivity.
  destruct (run_fade 48000 (renders [128%nat]) start) as (Ec & Et & Ep & Er).
  destruct (run_fade 48000 (renders (repeat 128%nat 13)) start) as (Mc & Mt & Mp & Mr).
  fold early in Ec, Et, Ep, Er. fold mid in Mc, Mt, Mp, Mr.
  rewrite (reachable_duration _ _ Rstart), Ef in Ec, Et, Ep, Er, Mc, Mt, Mp, Mr.
  destruct (fadeRun_running 48000 0.05 128 1 (mkFade Pink Brown 0 2400))
    as (Jr & Jt & Jc & Jp); [reflexivity |].
  destruct (fadeRun_running 48000 0.05 128 13 (mkFade Pink Brown 0 2400))
    as (Kr & Kt & Kc & Kp); [reflexivity |].
  cbn [fRemaining fTarget fCurrent fProgress repeat] in Jr, Jt, Jc, Jp.
  cbn [fRemaining fTarget fCurrent fProgress] in Kr, Kt, Kc, Kp.
  rewrite Jc in Ec. rewrite Jt in Et. rewrite Jr in Er.
  rewrite Kc in Mc. rewrite Kt in Mt. rewrite Kr in Mr.
  clear Jr Jt Jc Kr Kt Kc.
  unfold kept, again. clear kept again.
  clearbody early mid. clear Ef Rstart start.
  assert (Hlow : (crossfadeProgress early < 1)%Q).
  { rewrite Ep.
    assert (Hs : (blockSum 1 128 2400 < 1)%Q) by (vm_compute; reflexivity).
    Lqa.lra. }
  assert (Hhigh : (1 <= crossfadeProgress mid)%Q).
  { rewrite Mp.
    assert (Hs : (1 <= blockSum 13 128 2400)%Q) by (vm_compute; discriminate).
    Lqa.lra. }
  assert (Ne : Pink <> targetMode early) by (rewrite Et; discriminate).
  assert (Nm : Pink <> targetMode mid) by (rewrite Mt; discriminate).
  destruct (set_mode_branches 48000 early Pink Rearly Ne) as [_ Hk].
  destruct (Hk Hlow) as (_ & Gt & Gp & Gr).
  destruct (set_mode_branches 48000 mid Pink Rmid Nm) as [Ha _].
  destruct (Ha Hhigh) as (_ & At & Ap & Ar).
  split.
  - split; [exact Rearly |]. split; [exact Ec |]. split; [exact Et |].
    split; [rewrite Er; reflexivity |]. split; [exact Gt |].
    split; [rewrite Gr, Er; reflexivity | exact Gp].
  - split; [exact Rmid |]. split; [exact Mc |]. split; [exact Mt |].
    split; [rewrite Mr; reflexivity |]. split; [exact At |].
    split; [rewrite Ar; reflexivity | exact Ap].
Qed.

(** ** Seed requests *)

Lemma handleMessage_counter sr msg p :
  samplesSinceLastSeed (handleMessage sr msg p) = samplesSinceLastSeed p
  /\ seedRequestThreshold (handleMessage sr msg p) = seedRequestThreshold p.
Proof.
  destruct msg as [seeds | seeds | mode]; cbn [handleMessage].
  - split; reflexivity.
  - destruct (negb (initialized p) && (8 <=? length seeds)%nat); split; reflexivity.
  - destruct (Mode_eqb mode (targetMode p)); [split; reflexivity |]. fields.
    destruct (Qle_bool 1 (crossfadeProgress p)); split; reflexivity.
Qed.

Lemma handleMessages_counter sr msgs : forall p,
  samplesSinceLastSeed (handleMessages sr msgs p) = samplesSinceLastSeed p
  /\ seedRequestThreshold (handleMessages sr msgs p) = seedRequestThreshold p.
Proof.
  induction msgs as [| msg rest IH]; intros p; cbn [handleMessages fold_left];
    [split; reflexivity |].
  fold (handleMessages sr rest (handleMessage sr msg p)).
  destruct (IH (handleMessage sr msg p)) as [Ec Et].
  destruct (handleMessage_counter sr msg p) as [Hc Ht].
  rewrite Ec, Et, Hc, Ht. split; reflexivity.
Qed.

Lemma processBlock_request n p :
  let total := samplesSinceLastSeed p + Z.of_nat n in
  (seedRequestThreshold p <= total /\ (length (seedQueue p) < 2)%nat ->
     posted (processBlock n p) = [NeedSeed]
     /\ samplesSinceLastSeed (after (processBlock n p)) = 0)
  /\ (total < seedRequestThreshold p \/ (2 <= length (seedQueue p))%nat ->
        posted (processBlock n p) = []
        /\ samplesSinceLastSeed (after (processBlock n p)) = total).
Proof.
  intros total.
  destruct (processBlock_control n p) as (_ & _ & Ec). rewrite Ec.
  unfold processBlock. cbn [posted]. unfold requestSeed. fold total.
  split.
  - intros [Ht Hq]. apply Z.leb_le in Ht. apply Nat.ltb_lt in Hq.
    rewrite Ht, Hq. split; reflexivity.
  - intros H.
    assert (E : (seedRequestThreshold p <=? total)
                && (length (seedQueue p) <? 2)%nat = false).
    { apply andb_false_iff. destruct H as [H | H];
        [left; apply Z.leb_gt; exact H | right; apply Nat.ltb_ge; exact H]. }
    rewrite E. split; reflexivity.
Qed.

Lemma ceilDiv_le t b m : 0 < b -> (t <= m * b <-> ceilDiv t b <= m).
Proof.
  intros Hb. unfold ceilDiv.
  pose proof (Z.div_mod (t + b - 1) b ltac:(lia)) as E.
  pose proof (Z.mod_pos_bound (t + b - 1) b Hb) as Hm.
  split; intros H; nia.
Qed.

Lemma succ_mod j c :
  0 < c ->
  (j + 1) mod c = if j mod c + 1 =? c then 0 else j mod c + 1.
Proof.
  intros Hc.
  pose proof (Z.div_mod j c ltac:(lia)) as E.
  pose proof (Z.mod_pos_bound j c Hc) as Hm.
  destruct (j mod c + 1 =? c) eqn:L.
  - apply Z.eqb_eq in L. symmetry.
    apply (Z.mod_unique_pos (j + 1) c (j / c + 1) 0); [lia | nia].
  - apply Z.eqb_neq in L. symmetry.
    apply (Z.mod_unique_pos (j + 1) c (j / c) (j mod c + 1)); [lia | nia].
Qed.

Lemma posted_periodic sr (blockSize : nat) feeds : forall p j0,
  0 <= j0 ->
  0 < seedRequestThreshold p -> (0 < blockSize)%nat ->
  samplesSinceLastSeed p
  = (j0 mod ceilDiv (seedRequestThreshold p) (Z.of_nat blockSize))
    * Z.of_nat blockSize ->
  queueBelow2 sr blockSize feeds p ->
  forall j, (j < length feeds)%nat ->
    nth j (postedPerBlock sr blockSize feeds p) []
    = if (j0 + Z.of_nat j + 1)
           mod ceilDiv (seedRequestThreshold p) (Z.of_nat blockSize) =? 0
      then [NeedSeed] else [].
Proof.
  induction feeds as [| msgs rest IH]; intros p j0 Hj0 HT HB Hc Hq j Hj;
    [cbn [length] in Hj; lia |].
  cbn [postedPerBlock queueBelow2] in *.
  destruct Hq as [Hlen Hrest].
  set (q := handleMessages sr msgs p) in *.
  destruct (handleMessages_counter sr msgs p) as [Qc Qt]. fold q in Qc, Qt.
  set (T := seedRequestThreshold p) in *.
  set (B := Z.of_nat blockSize) in *.
  assert (HBz : 0 < B) by (unfold B; lia).
  assert (Hcpos : 0 < ceilDiv T B).
  { destruct (Z_lt_le_dec 0 (ceilDiv T B)) as [L | L]; [exact L |].
    apply (ceilDiv_le T B 0 HBz) in L. lia. }
  pose proof (Z.mod_pos_bound j0 (ceilDiv T B) Hcpos) as Hk.
  set (k := j0 mod ceilDiv T B) in *.
  pose proof (succ_mod j0 (ceilDiv T B) Hcpos) as Hs. fold k in Hs.
  destruct (processBlock_request blockSize q) as [Hemit Hskip].
  destruct (processBlock_control blockSize q) as (_ & Pt & _).
  rewrite Qc, Qt, Hc in Hemit, Hskip. fold T B in Hemit, Hskip.
  assert (Hnext :
    posted (processBlock blockSize q)
    = (if (j0 + 1) mod ceilDiv T B =? 0 then [NeedSeed] else [])
    /\ samplesSinceLastSeed (after (processBlock blockSize q))
       = ((j0 + 1) mod ceilDiv T B) * B).
  { rewrite Hs. destruct (k + 1 =? ceilDiv T B) eqn:L.
    - apply Z.eqb_eq in L. cbn [Z.eqb Z.mul].
      apply Hemit. split; [| exact Hlen].
      replace (k * B + B) with ((k + 1) * B) by ring.
      apply (ceilDiv_le T B (k + 1) HBz). lia.
    - apply Z.eqb_neq in L.
      assert (Hne : (k + 1 =? 0) = false) by (apply Z.eqb_neq; lia).
      rewrite Hne.
      replace ((k + 1) * B) with (k * B + B) by ring.
      apply Hskip. left.
      destruct (Z_lt_le_dec (k * B + B) T) as [Lt | Ge]; [exact Lt |].
      replace (k * B + B) with ((k + 1) * B) in Ge by ring.
      apply (ceilDiv_le T B (k + 1) HBz) in Ge. lia. }
  destruct Hnext as [Hpost Hcount].
  destruct j as [| j'].
  - cbn [nth]. rewrite Hpost. replace (j0 + Z.of_nat 0 + 1) with (j0 + 1) by lia.
    reflexivity.
  - cbn [nth].
    assert (Et : seedRequestThreshold (after (processBlock blockSize q)) = T)
      by (rewrite Pt; exact Qt).
    rewrite (IH (after (processBlock blockSize q)) (j0 + 1)).
    + rewrite Et. fold B.
      replace (j0 + 1 + Z.of_nat j' + 1) with (j0 + Z.of_nat (S j') + 1) by lia.
      reflexivity.
    + lia.
    + rewrite Et. exact HT.
    + exact HB.
    + rewrite Et. fold B. exact Hcount.
    + exact Hrest.
    + cbn [length] in Hj. lia.
Qed.

Lemma run_threshold sr events : forall p,
  seedRequestThreshold (run sr events p) = seedRequestThreshold p.
Proof.
  induction events as [| e rest IH]; intros p; cbn [run fold_left]; [reflexivity |].
  fold (run sr rest (step sr e p)). rewrite IH.
  destruct e; cbn [step].
  - apply handleMessage_counter.
  - apply processBlock_control.
Qed.

Lemma reachable_threshold sr p :
  reachable sr p -> seedRequestThreshold p = Qfloor (sr * 0.5).
Proof. intros (cf & events & ->). rewrite run_threshold. reflexivity. Qed.

Lemma handleMessages_nil sr p : handleMessages sr [] p = p.
Proof. reflexivity. Qed.

Lemma queueBelow2_quiet sr blockSize n : forall p,
  seedQueue p = [] -> queueBelow2 sr blockSize (repeat [] n) p.
Proof.
  induction n as [| n IH]; intros p Hq; cbn [repeat queueBelow2]; [exact I |].
  rewrite handleMessages_nil. split.
  - rewrite Hq. cbn [length]. lia.
  - apply IH. rewrite processBlock_queue, Hq. reflexivity.
Qed.

(** C6.  A render block of [n] samples adds [n] to the counter of samples
    since the last request; it posts exactly one ['need-seed'] and resets
    the counter to 0 when the counter has reached the threshold and fewer
    than 2 batches are queued, and posts nothing (keeping the sum)
    otherwise, in particular whenever 2 or more batches are queued.  The
    threshold of every reachable state is [floor(sampleRate * 0.5)].
    Hence, from a counter of 0, with a threshold [T > 0], blocks of a
    constant size [B > 0] and a queue depth below 2 at every block, block
    number [j] (counted from 1) posts one request exactly when [j] is a
    multiple of [ceil(T/B)] and nothing otherwise. *)
Theorem C6_seed_requests
    (sampleRate : Q) (blockSize : nat) (p : NoiseProcessor)
    (feeds : list (list WorkletMessage))
    (Hcount : samplesSinceLastSeed p = 0)
    (HT : 0 < seedRequestThreshold p)
    (HB : (0 < blockSize)%nat)
    (Hq : queueBelow2 sampleRate blockSize feeds p) :
  let period := ceilDiv (seedRequestThreshold p) (Z.of_nat blockSize) in
  (forall s n,
     let total := samplesSinceLastSeed s + Z.of_nat n in
     (seedRequestThreshold s <= total /\ (length (seedQueue s) < 2)%nat ->
        posted (processBlock n s) = [NeedSeed]
        /\ samplesSinceLastSeed (after (processBlock n s)) = 0)
     /\ (total < seedRequestThreshold s \/ (2 <= length (seedQueue s))%nat ->
           posted (processBlock n s) = []
           /\ samplesSinceLastSeed (after (processBlock n s)) = total))
  /\ (forall s, reachable sampleRate s ->
        seedRequestThreshold s = Qfloor (sampleRate * 0.5))
  /\ (forall j, (j < length feeds)%nat ->
        nth j (postedPerBlock sampleRate blockSize feeds p) []
        = if Z.of_nat (S j) mod period =? 0 then [NeedSeed] else []).
Proof.
  intros period.
  split; [intros s n; apply processBlock_request |].
  split; [intros s; apply reachable_threshold |].
  intros j Hj.
  rewrite (posted_periodic sampleRate blockSize feeds p 0); try assumption.
  - fold period. replace (0 + Z.of_nat j + 1) with (Z.of_nat (S j)) by lia.
    reflexivity.
  - lia.
Qed.

(** At 48 kHz the threshold is 24000 samples; with 128-sample blocks and
    an empty queue the first request is posted by block 188 and none by
    block 187. *)
Lemma C6_seed_requests_witness :
  let posts := postedPerBlock 48000 128 (repeat [] 188) (newNoiseProcessor 48000 0) in
  nth 186 posts [] = [] /\ nth 187 posts [] = [NeedSeed].
Proof.
  intros posts.
  assert (HT : 0 < seedRequestThreshold (newNoiseProcessor 48000 0)) by reflexivity.
  assert (HB : (0 < 128)%nat) by lia.
  pose proof (C6_seed_requests 48000 128 (newNoiseProcessor 48000 0)
                (repeat [] 188) eq_refl HT HB
                (queueBelow2_quiet 48000 128 188 (newNoiseProcessor 48000 0) eq_refl))
    as (_ & _ & Hper).
  split.
  - unfold posts. rewrite (Hper 186%nat) by (rewrite repeat_length; lia).
    reflexivity.
  - unfold posts. rewrite (Hper 187%nat) by (rewrite repeat_length; lia).
    reflexivity.
Defined.

(** ** The brown filter *)

Lemma brownFilter_step br w :
  b (fst (brownFilter br w))
  = Rmax (-1) (Rmin 1 (decay br * b br + scale br * w))
  /\ decay (fst (brownFilter br w)) = decay br
  /\ scale (fst (brownFilter br w)) = scale br
  /\ gain (fst (brownFilter br w)) = gain br
  /\ snd (brownFilter br w) = (b (fst (brownFilter br w)) * gain br)%R
  /\ brownClamped (fst (brownFilter br w)).
Proof.
  unfold brownFilter, brownClamped. cbn [fst snd b decay scale gain].
  set (x := (decay br * b br + scale br * w)%R).
  unfold Rmax, Rmin.
  destruct (Rlt_dec 1 x) as [H1 | H1];
    destruct (Rle_dec 1 x) as [L1 | L1]; try Lra.lra.
  - destruct (Rlt_dec 1 (-1)) as [H2 | H2]; [Lra.lra |].
    destruct (Rle_dec (-1) 1) as [L2 | L2]; [| Lra.lra].
    repeat split; try reflexivity; Lra.lra.
  - assert (E : x = 1%R) by Lra.lra.
    destruct (Rlt_dec x (-1)) as [H2 | H2]; [Lra.lra |].
    destruct (Rle_dec (-1) 1) as [L2 | L2]; [| Lra.lra].
    repeat split; try reflexivity; Lra.lra.
  - destruct (Rlt_dec x (-1)) as [H2 | H2];
      destruct (Rle_dec (-1) x) as [L2 | L2]; try Lra.lra;
      repeat split; try reflexivity; Lra.lra.
Qed.

Lemma initBrownState_constants sr :
  brownConstants sr (initBrownState sr) /\ brownClamped (initBrownState sr).
Proof.
  unfold brownConstants, brownClamped, initBrownState. cbn [b decay scale gain].
  repeat split; try reflexivity; Lra.lra.
Qed.

Lemma brownFilter_constants sr br w :
  brownConstants sr br -> brownConstants sr (fst (brownFilter br w)).
Proof.
  intros (Hd & Hs & Hg).
  destruct (brownFilter_step br w) as (_ & Ed & Es & Eg & _).
  unfold brownConstants. rewrite Ed, Es, Eg. repeat split; assumption.
Qed.

Lemma brownRun_ok sr whites : forall br,
  brownConstants sr br ->
  Forall (fun r : BrownState * R =>
            brownClamped (fst r)
            /\ snd r = (b (fst r) * gain (fst r))%R
            /\ brownConstants sr (fst r))
         (snd (brownRun br whites))
  /\ length (snd (brownRun br whites)) = length whites
  /\ brownConstants sr (fst (brownRun br whites)).
Proof.
  induction whites as [| w rest IH]; intros br Hc; cbn [brownRun fst snd].
  - split; [constructor | split; [reflexivity | exact Hc]].
  - pose proof (brownFilter_constants sr br w Hc) as Hc'.
    destruct (IH (fst (brownFilter br w)) Hc') as (Hall & Hlen & Hlast).
    destruct (brownFilter_step br w) as (_ & _ & _ & Eg & Eout & Hcl).
    split; [| split; [cbn [length]; rewrite Hlen; reflexivity | exact Hlast]].
    constructor; [| exact Hall].
    split; [exact Hcl |]. split; [rewrite Eg; exact Eout | exact Hc'].
Qed.

Lemma renderSample_brown c inc p :
  brownL (fst (renderSample c inc p))
  = fst (brownFilter (brownL p) (snd (nextSignedFloat (stateL p))))
  /\ brownR (fst (renderSample c inc p))
     = fst (brownFilter (brownR p) (snd (nextSignedFloat (stateR p)))).
Proof.
  unfold renderSample. destruct c; fields; [| split; reflexivity].
  match goal with |- context [if ?t then _ else _] => destruct t end;
    fields; split; reflexivity.
Qed.

Lemma renderLoop_browns sr n : forall c inc p,
  brownsOk sr p -> brownsOk sr (fst (renderLoop n c inc p)).
Proof.
  induction n as [| n IH]; intros c inc p H; cbn [renderLoop fst]; [exact H |].
  apply IH. destruct H as [[HLc _] [HRc _]].
  destruct (renderSample_brown c inc p) as [EL ER].
  unfold brownsOk. rewrite EL, ER.
  split; (split; [apply brownFilter_constants; assumption | apply brownFilter_step]).
Qed.

Lemma requestSeed_browns n p :
  brownL (fst (requestSeed n p)) = brownL p
  /\ brownR (fst (requestSeed n p)) = brownR p.
Proof.
  unfold requestSeed.
  match goal with |- context [if ?t then _ else _] => destruct t end;
    split; reflexivity.
Qed.

Lemma mixQueued_browns p :
  brownL (mixQueued p) = brownL p /\ brownR (mixQueued p) = brownR p.
Proof. unfold mixQueued. destruct (seedQueue p); split; reflexivity. Qed.

Lemma handleMessage_browns sr msg p :
  brownL (handleMessage sr msg p) = brownL p
  /\ brownR (handleMessage sr msg p) = brownR p.
Proof.
  destruct msg as [seeds | seeds | mode]; cbn [handleMessage].
  - split; reflexivity.
  - destruct (negb (initialized p) && (8 <=? length seeds)%nat); split; reflexivity.
  - destruct (Mode_eqb mode (targetMode p)); [split; reflexivity |]. fields.
    destruct (Qle_bool 1 (crossfadeProgress p)); split; reflexivity.
Qed.

Lemma step_browns sr e p : brownsOk sr p -> brownsOk sr (step sr e p).
Proof.
  intros H. destruct e as [msg | n]; cbn [step].
  - destruct (handleMessage_browns sr msg p) as [EL ER].
    unfold brownsOk. rewrite EL, ER. exact H.
  - unfold processBlock. cbn [after]. apply renderLoop_browns.
    destruct (mixQueued_browns (fst (requestSeed n p))) as [ML MR].
    destruct (requestSeed_browns n p) as [QL QR].
    unfold brownsOk. rewrite ML, MR, QL, QR. exact H.
Qed.

Lemma reachable_browns sr p : reachable sr p -> brownsOk sr p.
Proof.
  intros (cf & events & ->).
  generalize (newNoiseProcessor sr cf)
             (conj (initBrownState_constants sr) (initBrownState_constants sr)
              : brownsOk sr (newNoiseProcessor sr cf)).
  induction events as [| e rest IH]; intros p0 H0; cbn [run fold_left]; [exact H0 |].
  fold (run sr rest (step sr e p0)). apply IH. apply step_browns. exact H0.
Qed.

(** C8.  Feeding any finite sequence of white samples to the brown filter
    built by [initBrownState]: after every update the accumulator lies in
    [[-1, 1]], the returned sample is the accumulator times [gain], and
    [decay = exp(-1/(sampleRate*0.02))], [scale = 1 - decay] and
    [gain = 0.5*sqrt((1+decay)/(1-decay))] are the values computed at
    construction; one update is [b := decay*b + scale*w] clamped to
    [[-1, 1]] and leaves the three constants alone; and the two brown
    states of every reachable processor state satisfy the same. *)
Theorem C8_brown_clamp (sampleRate : Q) (whites : list R) :
  let trace := snd (brownRun (initBrownState sampleRate) whites) in
  Forall (fun r : BrownState * R =>
            (-1 <= b (fst r) <= 1)%R
            /\ snd r = (b (fst r) * gain (fst r))%R
            /\ brownConstants sampleRate (fst r))
         trace
  /\ length trace = length whites
  /\ (forall br w,
        b (fst (brownFilter br w))
        = Rmax (-1) (Rmin 1 (decay br * b br + scale br * w))
        /\ decay (fst (brownFilter br w)) = decay br
        /\ scale (fst (brownFilter br w)) = scale br
        /\ gain (fst (brownFilter br w)) = gain br
        /\ snd (brownFilter br w) = (b (fst (brownFilter br w)) * gain br)%R)
  /\ (forall p, reachable sampleRate p ->
        brownConstants sampleRate (brownL p) /\ (-1 <= b (brownL p) <= 1)%R
        /\ brownConstants sampleRate (brownR p) /\ (-1 <= b (brownR p) <= 1)%R).
Proof.
  intros trace.
  destruct (brownRun_ok sampleRate whites (initBrownState sampleRate)
              (proj1 (initBrownState_constants sampleRate))) as (Hall & Hlen & _).
  split; [exact Hall |]. split; [exact Hlen |].
  split.
  - intros br w. destruct (brownFilter_step br w) as (E1 & E2 & E3 & E4 & E5 & _).
    repeat split; assumption.
  - intros p Hp. destruct (reachable_browns sampleRate p Hp) as [[HLc HLb] [HRc HRb]].
    split; [exact HLc |]. split; [exact HLb |]. split; [exact HRc | exact HRb].
Qed.

(** ** The entropy pool *)

Lemma imul32_spec a c :
  word32 a -> word32 c -> EntropyRng.imul32 a c = (a * c) mod 2 ^ 32.
Proof.
  intros Ha Hc. unfold EntropyRng.imul32, JS.imul.
  rewrite ushr_0, ToUint32_ToInt32, (ToUint32_word a Ha), (ToUint32_word c Hc).
  reflexivity.
Qed.

Lemma rotl32_rotl x k : EntropyRng.rotl32 x k = rotl x k.
Proof. reflexivity. Qed.

Lemma mixWord_spec pool w i slot :
  Forall word32 pool -> word32 w -> pool !! i = Some slot ->
  EntropyRng.mixWord pool w i = <[i := EntropyRng.stirred slot w]> pool
  /\ word32 (EntropyRng.stirred slot w).
Proof.
  intros Hpool Hw Hslot.
  assert (Hs : word32 slot).
  { apply (proj1 (Forall_lookup _ _) Hpool i slot Hslot). }
  assert (W13 : word32 (rotl w 13)) by apply rotl_word.
  assert (Hm : JS.ushr (JS.bxor slot (EntropyRng.rotl32 w 13)) 0
               = Z.lxor slot (XoshiroSpec.rotl w 13)).
  { rewrite rotl32_rotl, (bxor_words _ _ Hs W13).
    rewrite (rotl_spec_eq w 13 Hw) by lia. reflexivity. }
  assert (Wm : word32 (Z.lxor slot (XoshiroSpec.rotl w 13))).
  { rewrite <- (rotl_spec_eq w 13 Hw) by lia. apply word32_lxor; assumption. }
  assert (Wc : word32 2654435769) by (unfold word32; rewrite two32_val; lia).
  assert (E : JS.ushr (JS.bxor (EntropyRng.imul32 (Z.lxor slot (XoshiroSpec.rotl w 13))
                                                  2654435769)
                               (EntropyRng.rotl32 (Z.lxor slot (XoshiroSpec.rotl w 13)) 17)) 0
              = EntropyRng.stirred slot w).
  { unfold EntropyRng.stirred.
    rewrite (imul32_spec _ _ Wm Wc), rotl32_rotl.
    rewrite bxor_words; [| apply ToUint32_range | apply rotl_word].
    rewrite (rotl_spec_eq _ 17 Wm) by lia. reflexivity. }
  split.
  - unfold EntropyRng.mixWord. rewrite Hslot, Hm, E. reflexivity.
  - rewrite <- E, ushr_0. apply ToUint32_range.
Qed.

Lemma mixWord_length pool w i : length (EntropyRng.mixWord pool w i) = length pool.
Proof.
  unfold EntropyRng.mixWord. destruct (pool !! i); [apply length_insert | reflexivity].
Qed.

Lemma stir_ok w rng : poolOk rng -> poolOk (EntropyRng.stir w rng).
Proof.
  intros [Hl Hi]. unfold poolOk, EntropyRng.stir.
  cbn [EntropyRng.pool EntropyRng.stirIndex].
  split; [rewrite mixWord_length; exact Hl |].
  apply Nat.mod_upper_bound. unfold EntropyRng.POOL_SIZE. lia.
Qed.

Lemma stirs_ok ws : forall rng,
  poolOk rng -> poolOk (fold_left (fun acc word => EntropyRng.stir word acc) ws rng).
Proof.
  induction ws as [| w rest IH]; intros rng H; cbn [fold_left]; [exact H |].
  apply IH. apply stir_ok. exact H.
Qed.

Lemma apply_ok op rng : poolOk rng -> poolOk (EntropyRng.apply op rng).
Proof.
  intros H. destruct op as [word | fresh |]; cbn [EntropyRng.apply].
  - apply stir_ok. exact H.
  - unfold EntropyRng.nextU32.
    set (r1 := EntropyRng.mk (EntropyRng.pool rng) (EntropyRng.counter rng + 1)
                 (EntropyRng.eventBuffer rng) (EntropyRng.stirIndex rng)).
    assert (H1 : poolOk r1) by exact H.
    pose proof (stir_ok (EntropyRng.counter r1) r1 H1) as H2.
    destruct (EntropyRng.pool (EntropyRng.stir (EntropyRng.counter r1) r1) !! _);
      cbn [fst]; [apply stir_ok; exact H2 | exact H2].
  - unfold EntropyRng.processEventBuffer.
    exact (stirs_ok (EntropyRng.eventBuffer rng) rng H).
Qed.

Lemma create_ok csprng : poolOk (EntropyRng.create csprng).
Proof.
  unfold poolOk, EntropyRng.create, EntropyRng.POOL_SIZE.
  cbn [EntropyRng.pool EntropyRng.stirIndex].
  split; [| lia].
  rewrite length_take, length_app, repeat_length. lia.
Qed.

(** C9.  For a pool of 8 words with its cursor in range and a 32-bit
    word [w], [stir w] replaces the slot at the cursor by
    [imul32(m, 0x9e3779b9) XOR rotl32(m, 17)] with
    [m = slot XOR rotl32(w, 13)] (the multiplication taken modulo 2^32),
    leaves every other slot, the counter and the event buffer unchanged,
    and moves the cursor to [(cursor + 1) mod 8], which is again in range;
    and after any sequence of pool operations on a newly created pool the
    pool still has 8 slots and the cursor is in range. *)
Theorem C9_stir
    (rng : EntropyRng.t) (w slot : Z)
    (Hok : poolOk rng)
    (Hpool : Forall word32 (EntropyRng.pool rng))
    (Hw : word32 w)
    (Hslot : EntropyRng.pool rng !! EntropyRng.stirIndex rng = Some slot) :
  let rng' := EntropyRng.stir w rng in
  let m := JS.ushr (JS.bxor slot (EntropyRng.rotl32 w 13)) 0 in
  EntropyRng.pool rng'
  = <[EntropyRng.stirIndex rng :=
        JS.ushr (JS.bxor (EntropyRng.imul32 m 2654435769)
                         (EntropyRng.rotl32 m 17)) 0]> (EntropyRng.pool rng)
  /\ EntropyRng.pool rng' !! EntropyRng.stirIndex rng
     = Some (EntropyRng.stirred slot w)
  /\ (forall j, j <> EntropyRng.stirIndex rng ->
        EntropyRng.pool rng' !! j = EntropyRng.pool rng !! j)
  /\ EntropyRng.stirIndex rng' = ((EntropyRng.stirIndex rng + 1) mod 8)%nat
  /\ EntropyRng.counter rng' = EntropyRng.counter rng
  /\ EntropyRng.eventBuffer rng' = EntropyRng.eventBuffer rng
  /\ poolOk rng'
  /\ Forall word32 (EntropyRng.pool rng')
  /\ (forall csprng ops,
        poolOk (fold_left (fun acc op => EntropyRng.apply op acc) ops
                          (EntropyRng.create csprng))).
Proof.
  intros rng' m.
  destruct Hok as [Hlen Hidx].
  destruct (mixWord_spec _ w _ slot Hpool Hw Hslot) as [Emix Wst].
  assert (Ew : JS.ushr w 0 = w) by (rewrite ushr_0; apply ToUint32_word; exact Hw).
  assert (Epool : EntropyRng.pool rng'
                  = <[EntropyRng.stirIndex rng := EntropyRng.stirred slot w]>
                      (EntropyRng.pool rng)).
  { unfold rng', EntropyRng.stir. cbn [EntropyRng.pool]. rewrite Ew. exact Emix. }
  split.
  { unfold rng', EntropyRng.stir. cbn [EntropyRng.pool]. rewrite Ew.
    unfold EntropyRng.mixWord. rewrite Hslot. reflexivity. }
  split.
  { rewrite Epool. apply list_lookup_insert_eq.
    rewrite Hlen. exact Hidx. }
  split.
  { intros j Hj. rewrite Epool. apply list_lookup_insert_ne. congruence. }
  split; [reflexivity |]. split; [reflexivity |]. split; [reflexivity |].
  split; [apply stir_ok; split; assumption |].
  split; [rewrite Epool; apply Forall_insert; assumption |].
  intros csprng ops.
  generalize (EntropyRng.create csprng) (create_ok csprng).
  induction ops as [| op rest IH]; intros r Hr; cbn [fold_left]; [exact Hr |].
  apply IH. apply apply_ok. exact Hr.
Qed.

(** Stirring 1 into the all-zero pool with the cursor on slot 7: slot 7
    becomes (8192 * 0x9e3779b9 mod 2^32) XOR rotl(8192, 17) = 2939625472 and
    the cursor wraps to 0. *)
Lemma C9_stir_witness :
  let rng := EntropyRng.mk (repeat 0 8) 0 [] 7 in
  EntropyRng.pool (EntropyRng.stir 1 rng) = [0; 0; 0; 0; 0; 0; 0; 2939625472]
  /\ EntropyRng.stirIndex (EntropyRng.stir 1 rng) = 0%nat.
Proof.
  intros rng.
  assert (Hok : poolOk rng) by (split; [reflexivity | unfold EntropyRng.POOL_SIZE; cbn; lia]).
  assert (Hpool : Forall word32 (EntropyRng.pool rng))
    by (apply words32b_ok; reflexivity).
  assert (Hw : word32 1) by (apply word32b_ok; reflexivity).
  destruct (C9_stir rng 1 0 Hok Hpool Hw eq_refl) as (Ep & _ & _ & Ei & _).
  split; [rewrite Ep; vm_compute; reflexivity | rewrite Ei; reflexivity].
Defined.

(** ** The generator step is a bijection *)

Lemma word32_testbit_high x i : word32 x -> 32 <= i -> Z.testbit x i = false.
Proof.
  intros Hx Hi. rewrite <- (ToUint32_word x Hx). unfold JS.ToUint32.
  apply Z.mod_pow2_bits_high. lia.
Qed.

Lemma shiftl_testbit x k i : Z.testbit (Z.shiftl x k) i = Z.testbit x (i - k) \/ i < 0.
Proof.
  destruct (Z_lt_le_dec i 0) as [L | L]; [right; exact L | left].
  apply Z.shiftl_spec. exact L.
Qed.

Lemma shl9_testbit x i :
  Z.testbit (shl9 x) i = (i <? 32) && Z.testbit x (i - 9).
Proof.
  unfold shl9. rewrite Z.testbit_mod_pow2 by lia.
  destruct (Z_lt_le_dec i 0) as [L | L].
  - rewrite !Z.testbit_neg_r by lia. reflexivity.
  - rewrite Z.shiftl_spec by exact L. reflexivity.
Qed.

Lemma rotl_testbit x k i :
  word32 x -> 0 < k < 32 -> 0 <= i ->
  Z.testbit (XoshiroSpec.rotl x k) i
  = (i <? 32) && (if i <? k then Z.testbit x (i + 32 - k) else Z.testbit x (i - k)).
Proof.
  intros Hx Hk L. unfold XoshiroSpec.rotl.
  rewrite Z.testbit_mod_pow2 by lia.
  rewrite Z.lor_spec, Z.shiftl_spec, Z.shiftr_spec by lia.
  destruct (i <? 32) eqn:L32; [| reflexivity]. cbn [andb].
  apply Z.ltb_lt in L32.
  destruct (i <? k) eqn:Lk.
  - apply Z.ltb_lt in Lk. rewrite (Z.testbit_neg_r x (i - k)) by lia.
    rewrite orb_false_l. f_equal. lia.
  - apply Z.ltb_ge in Lk.
    rewrite (word32_testbit_high x (i + (32 - k)) Hx) by lia.
    apply orb_false_r.
Qed.

Lemma spec_rotl_word x k : word32 (XoshiroSpec.rotl x k).
Proof. unfold XoshiroSpec.rotl. apply ToUint32_range. Qed.

Lemma rotl_inverse x k :
  word32 x -> 0 < k < 32 ->
  XoshiroSpec.rotl (XoshiroSpec.rotl x k) (32 - k) = x.
Proof.
  intros Hx Hk. apply Z.bits_inj'. intros i Hi.
  rewrite rotl_testbit by (try apply spec_rotl_word; lia).
  destruct (i <? 32) eqn:L32.
  - apply Z.ltb_lt in L32. cbn [andb].
    destruct (i <? 32 - k) eqn:L1.
    + apply Z.ltb_lt in L1.
      rewrite rotl_testbit by (try assumption; lia).
      replace (i + 32 - (32 - k) <? 32) with true by (symmetry; apply Z.ltb_lt; lia).
      replace (i + 32 - (32 - k) <? k) with false by (symmetry; apply Z.ltb_ge; lia).
      cbn [andb]. f_equal. lia.
    + apply Z.ltb_ge in L1.
      rewrite rotl_testbit by (try assumption; lia).
      replace (i - (32 - k) <? 32) with true by (symmetry; apply Z.ltb_lt; lia).
      replace (i - (32 - k) <? k) with true by (symmetry; apply Z.ltb_lt; lia).
      cbn [andb]. f_equal. lia.
  - apply Z.ltb_ge in L32. cbn [andb]. symmetry.
    apply word32_testbit_high; assumption.
Qed.

Lemma shl9_unmix x :
  word32 x ->
  let u := Z.lxor x (shl9 x) in
  Z.lxor (Z.lxor (Z.lxor u (shl9 u)) (shl9 (shl9 u))) (shl9 (shl9 (shl9 u))) = x.
Proof.
  intros Hx u. apply Z.bits_inj'. intros i Hi.
  unfold u.
  repeat (rewrite ?Z.lxor_spec, ?shl9_testbit).
  destruct (Z_lt_le_dec i 32) as [L | L].
  - replace (i <? 32) with true by (symmetry; apply Z.ltb_lt; lia).
    replace (i - 9 <? 32) with true by (symmetry; apply Z.ltb_lt; lia).
    replace (i - 9 - 9 <? 32) with true by (symmetry; apply Z.ltb_lt; lia).
    replace (i - 9 - 9 - 9 <? 32) with true by (symmetry; apply Z.ltb_lt; lia).
    cbn [andb].
    rewrite (Z.testbit_neg_r x (i - 9 - 9 - 9 - 9)) by lia.
    destruct (Z.testbit x i), (Z.testbit x (i - 9)), (Z.testbit x (i - 9 - 9)),
      (Z.testbit x (i - 9 - 9 - 9)); reflexivity.
  - replace (i <? 32) with false by (symmetry; apply Z.ltb_ge; lia).
    cbn [andb]. rewrite (word32_testbit_high x i Hx L). reflexivity.
Qed.

Ltac xor_bits :=
  apply Z.bits_inj'; intros ?i _; rewrite !Z.lxor_spec;
  repeat match goal with
         | |- context [Z.testbit ?x ?i] => destruct (Z.testbit x i)
         end;
  reflexivity.

Lemma lxor_cancel_r a c : Z.lxor (Z.lxor a c) c = a.
Proof. rewrite Z.lxor_assoc, Z.lxor_nilpotent. apply Z.lxor_0_r. Qed.

Lemma lxor_cancel_l a c : Z.lxor c (Z.lxor c a) = a.
Proof. rewrite <- Z.lxor_assoc, Z.lxor_nilpotent. apply Z.lxor_0_l. Qed.

Lemma xoshiroPrev_next st :
  wordState st -> xoshiroPrev (fst (xoshiroNext st)) = st.
Proof.
  intros H. pose proof H as (H0 & H1 & H2 & H3).
  rewrite (xoshiroNext_spec st H).
  destruct st as [a0 a1 a2 a3]. cbn [s0 s1 s2 s3] in *.
  unfold XoshiroSpec.next, xoshiroPrev. cbn [fst s0 s1 s2 s3].
  assert (W31 : word32 (Z.lxor a3 a1)) by (apply word32_lxor; assumption).
  replace (XoshiroSpec.rotl (XoshiroSpec.rotl (Z.lxor a3 a1) 11) 21)
    with (Z.lxor a3 a1) by (symmetry; apply (rotl_inverse _ 11 W31); lia).
  fold (shl9 a1).
  assert (Eu : Z.lxor (Z.lxor a1 (Z.lxor a2 a0)) (Z.lxor (Z.lxor a2 a0) (shl9 a1))
               = Z.lxor a1 (shl9 a1)).
  { rewrite Z.lxor_assoc. f_equal. apply lxor_cancel_l. }
  rewrite Eu, (shl9_unmix a1 H1).
  f_equal; xor_bits.
Qed.

Lemma xoshiroNext_injective a c :
  wordState a -> wordState c ->
  fst (xoshiroNext a) = fst (xoshiroNext c) -> a = c.
Proof.
  intros Ha Hc E.
  rewrite <- (xoshiroPrev_next a Ha), <- (xoshiroPrev_next c Hc), E. reflexivity.
Qed.

Lemma advance_injective n : forall a c,
  wordState a -> wordState c -> advance n a = advance n c -> a = c.
Proof.
  induction n as [| n IH]; intros a c Ha Hc E; cbn [advance] in E; [exact E |].
  apply xoshiroNext_injective; try assumption.
  apply IH; try assumption; apply xoshiroNext_words.
Qed.

Lemma xoshiroNext_zero : xoshiroNext zeroState = (zeroState, 0).
Proof. vm_compute. reflexivity. Qed.

Lemma advance_zero n : advance n zeroState = zeroState.
Proof.
  induction n as [| n IH]; cbn [advance]; [reflexivity |].
  rewrite xoshiroNext_zero. exact IH.
Qed.

Lemma whiteRun_zero n :
  fst (whiteRun n zeroState) = zeroState
  /\ Forall (fun x => x = (-1)%R) (snd (whiteRun n zeroState)).
Proof.
  induction n as [| n [IHs IHo]]; [split; [reflexivity | constructor] |].
  rewrite whiteRun_S.
  assert (E : nextSignedFloat zeroState = (zeroState, (IZR 0 / 4294967296 * 2 - 1)%R)).
  { unfold nextSignedFloat. rewrite xoshiroNext_zero. reflexivity. }
  rewrite E. cbn [fst snd]. split; [exact IHs |].
  constructor; [Lra.lra | exact IHo].
Qed.

Lemma zero_wordState : wordState zeroState.
Proof. apply wordStateb_ok. reflexivity. Qed.

Lemma advance_nonzero st n :
  wordState st -> st <> zeroState -> advance n st <> zeroState.
Proof.
  intros H Hnz E. apply Hnz.
  apply (advance_injective n); [exact H | exact zero_wordState |].
  rewrite advance_zero. exact E.
Qed.

(** X1.  The xoshiro128++ step loses no information on states of four
    32-bit words: [xoshiroPrev] computes the state before a step back from
    the state after it, so two different word states never step to the same
    state, and neither do they after any number [n] of steps. *)
Theorem X1_xoshiro_invertible (st : XoshiroState) (H : wordState st) :
  xoshiroPrev (fst (xoshiroNext st)) = st
  /\ (forall other, wordState other ->
        fst (xoshiroNext other) = fst (xoshiroNext st) -> other = st)
  /\ (forall n other, wordState other ->
        advance n other = advance n st -> other = st).
Proof.
  split; [apply xoshiroPrev_next; exact H |].
  split; [intros other Ho E; apply xoshiroNext_injective; assumption |].
  intros n other Ho E. apply (advance_injective n); assumption.
Qed.

Lemma X1_xoshiro_invertible_witness :
  xoshiroPrev (mkXoshiro 7 0 1026 12288) = mkXoshiro 1 2 3 4.
Proof.
  pose proof (proj1 (X1_xoshiro_invertible (mkXoshiro 1 2 3 4) wordState_1234)) as E.
  replace (fst (xoshiroNext (mkXoshiro 1 2 3 4))) with (mkXoshiro 7 0 1026 12288) in E
    by (vm_compute; reflexivity).
  exact E.
Defined.

(** X2.  The all-zero state is the one fixed point to avoid: from it every
    step returns to it and every white sample is -1; a state of four 32-bit
    words that is not all zero never reaches it, whatever the number of
    steps. *)
Theorem X2_zero_state (st : XoshiroState) (H : wordState st)
    (Hnz : st <> zeroState) :
  (forall n, advance n st <> zeroState)
  /\ (forall n, advance n zeroState = zeroState
                /\ Forall (fun x => x = (-1)%R) (snd (whiteRun n zeroState))).
Proof.
  split.
  - intros n. apply advance_nonzero; assumption.
  - intros n. split; [apply advance_zero | apply whiteRun_zero].
Qed.

Lemma X2_zero_state_witness :
  wordState (mkXoshiro 1 2 3 4)
  /\ (advance 1000 (mkXoshiro 1 2 3 4) = zeroState -> False).
Proof.
  assert (Hnz : mkXoshiro 1 2 3 4 <> zeroState) by discriminate.
  split; [exact wordState_1234 |].
  exact (proj1 (X2_zero_state (mkXoshiro 1 2 3 4) wordState_1234 Hnz) 1000%nat).
Defined.

(** ** Bounded filters, bounded output *)

Lemma white_range st : (-1 <= snd (nextSignedFloat st) < 1)%R.
Proof.
  unfold nextSignedFloat. cbn [snd]. apply signedFloat_range.
  apply xoshiroNext_words.
Qed.

Lemma pinkFilter_bounded pk w :
  pinkBounded pk -> (-1 <= w <= 1)%R ->
  pinkBounded (fst (pinkFilter pk w))
  /\ (-8.45 <= snd (pinkFilter pk w) <= 8.45)%R.
Proof.
  intros (H0 & H1 & H2) Hw. unfold pinkBounded, pinkFilter.
  cbn [fst snd b0 b1 b2]. repeat split; Lra.lra.
Qed.

Lemma brownGain_nonneg sr : (0 <= brownGain sr)%R.
Proof.
  unfold brownGain, initBrownState. cbn [gain].
  pose proof (sqrt_pos ((1 + exp (-1 / (Q2R sr * 0.02)))
                        / (1 - exp (-1 / (Q2R sr * 0.02))))).
  Lra.lra.
Qed.

Lemma brownConstants_gain sr br : brownConstants sr br -> gain br = brownGain sr.
Proof.
  intros (Hd & Hs & Hg). rewrite Hg, Hd.
  unfold brownGain, initBrownState. cbn [gain]. Lra.lra.
Qed.

Lemma brownFilter_bounded sr br w :
  brownConstants sr br ->
  (- brownGain sr <= snd (brownFilter br w) <= brownGain sr)%R.
Proof.
  intros Hc.
  destruct (brownFilter_step br w) as (_ & _ & _ & _ & Eout & Hcl).
  rewrite Eout, (brownConstants_gain sr br Hc).
  unfold brownClamped in Hcl. pose proof (brownGain_nonneg sr). split; Lra.nra.
Qed.

Lemma renderSample_pink c inc p :
  pinkL (fst (renderSample c inc p))
  = fst (pinkFilter (pinkL p) (snd (nextSignedFloat (stateL p))))
  /\ pinkR (fst (renderSample c inc p))
     = fst (pinkFilter (pinkR p) (snd (nextSignedFloat (stateR p)))).
Proof.
  unfold renderSample. destruct c; fields; [| split; reflexivity].
  match goal with |- context [if ?t then _ else _] => destruct t end;
    fields; split; reflexivity.
Qed.

Lemma renderSample_filters sr c inc p :
  filtersOk sr p -> filtersOk sr (fst (renderSample c inc p)).
Proof.
  intros (Hb & HpL & HpR).
  pose proof (renderLoop_browns sr 1 c inc p Hb) as Hb'.
  cbn [renderLoop fst] in Hb'.
  destruct (renderSample_pink c inc p) as [EL ER].
  pose proof (white_range (stateL p)) as WL.
  pose proof (white_range (stateR p)) as WR.
  split; [exact Hb' |]. rewrite EL, ER.
  split; apply pinkFilter_bounded; try assumption; Lra.lra.
Qed.

Lemma modeSamples_within sr m p :
  filtersOk sr p ->
  frameWithin (modeBound sr m) (modeSamples m p).
Proof.
  intros ([[HLc _] [HRc _]] & HpL & HpR).
  pose proof (white_range (stateL p)) as WL.
  pose proof (white_range (stateR p)) as WR.
  unfold modeSamples, frameWithin, selectSample, modeBound. cbn [fst snd].
  destruct m; cbn [Mode_eqb].
  - destruct (pinkFilter_bounded (pinkL p) (snd (nextSignedFloat (stateL p))) HpL)
      as [_ HL]; [Lra.lra |].
    destruct (pinkFilter_bounded (pinkR p) (snd (nextSignedFloat (stateR p))) HpR)
      as [_ HR]; [Lra.lra |].
    split; Lra.lra.
  - split; apply (brownFilter_bounded sr); assumption.
Qed.

Lemma gains_unit t : (oldGain t * oldGain t + newGain t * newGain t = 1)%R.
Proof.
  unfold oldGain, newGain.
  pose proof (sin2_cos2 (0.5 * PI * Q2R t)) as H. unfold Rsqr in H. Lra.lra.
Qed.

Lemma gain_abs t : (-1 <= oldGain t <= 1)%R /\ (-1 <= newGain t <= 1)%R.
Proof.
  unfold oldGain, newGain.
  split; [apply COS_bound | apply SIN_bound].
Qed.

Lemma blend_within t old new mo mn :
  frameWithin mo old -> frameWithin mn new ->
  frameWithin (mo + mn) (blend t old new).
Proof.
  intros [Ho1 Ho2] [Hn1 Hn2].
  destruct (gain_abs t) as [Hc Hs].
  unfold blend, frameWithin. cbn [fst snd].
  split; split; Lra.nra.
Qed.

Lemma frameWithin_mono m1 m2 frame :
  (m1 <= m2)%R -> frameWithin m1 frame -> frameWithin m2 frame.
Proof. unfold frameWithin. intros H [[A B] [C D]]. repeat split; Lra.lra. Qed.

Lemma modeBound_range sr m : (0 <= modeBound sr m <= 8.45 + brownGain sr)%R.
Proof.
  pose proof (brownGain_nonneg sr). destruct m; unfold modeBound; Lra.lra.
Qed.

Lemma renderSample_within sr c inc p :
  filtersOk sr p ->
  frameWithin (2 * (8.45 + brownGain sr)) (snd (renderSample c inc p)).
Proof.
  intros H. destruct (renderSample_output inc p) as [Eon Eoff].
  pose proof (modeSamples_within sr (currentMode p) p H) as Hc.
  pose proof (modeSamples_within sr (targetMode p) p H) as Ht.
  pose proof (modeBound_range sr (currentMode p)) as Bc.
  pose proof (modeBound_range sr (targetMode p)) as Bt.
  destruct c.
  - rewrite Eon.
    apply (frameWithin_mono (modeBound sr (currentMode p) + modeBound sr (targetMode p)));
      [Lra.lra | apply blend_within; assumption].
  - rewrite Eoff. apply (frameWithin_mono (modeBound sr (currentMode p)));
      [Lra.lra | exact Hc].
Qed.

Lemma renderLoop_within sr n : forall c inc p,
  filtersOk sr p ->
  Forall (frameWithin (2 * (8.45 + brownGain sr))) (snd (renderLoop n c inc p))
  /\ length (snd (renderLoop n c inc p)) = n
  /\ filtersOk sr (fst (renderLoop n c inc p)).
Proof.
  induction n as [| n IH]; intros c inc p H; cbn [renderLoop fst snd].
  - split; [constructor | split; [reflexivity | exact H]].
  - destruct (IH c inc (fst (renderSample c inc p))
                (renderSample_filters sr c inc p H)) as (Hall & Hlen & Hok).
    split; [constructor; [apply renderSample_within; exact H | exact Hall] |].
    split; [cbn [length]; rewrite Hlen; reflexivity | exact Hok].
Qed.

Lemma renderSample_off_mode inc p :
  currentMode (fst (renderSample false inc p)) = currentMode p.
Proof. reflexivity. Qed.

Lemma renderLoop_steady sr n : forall inc p,
  filtersOk sr p ->
  Forall (frameWithin (modeBound sr (currentMode p)))
         (snd (renderLoop n false inc p)).
Proof.
  induction n as [| n IH]; intros inc p H; cbn [renderLoop fst snd];
    [constructor |].
  constructor.
  - destruct (renderSample_output inc p) as [_ Eoff]. rewrite Eoff.
    apply modeSamples_within. exact H.
  - rewrite <- (renderSample_off_mode inc p).
    apply IH. apply renderSample_filters. exact H.
Qed.

Lemma requestSeed_filters n p :
  pinkL (fst (requestSeed n p)) = pinkL p /\ pinkR (fst (requestSeed n p)) = pinkR p.
Proof.
  unfold requestSeed.
  match goal with |- context [if ?t then _ else _] => destruct t end;
    split; reflexivity.
Qed.

Lemma mixQueued_filters p :
  pinkL (mixQueued p) = pinkL p /\ pinkR (mixQueued p) = pinkR p.
Proof. unfold mixQueued. destruct (seedQueue p); split; reflexivity. Qed.

Lemma handleMessage_filters sr msg p :
  pinkL (handleMessage sr msg p) = pinkL p /\ pinkR (handleMessage sr msg p) = pinkR p.
Proof.
  destruct msg as [seeds | seeds | mode]; cbn [handleMessage].
  - split; reflexivity.
  - destruct (negb (initialized p) && (8 <=? length seeds)%nat); split; reflexivity.
  - destruct (Mode_eqb mode (targetMode p)); [split; reflexivity |]. fields.
    destruct (Qle_bool 1 (crossfadeProgress p)); split; reflexivity.
Qed.

Lemma prepared_filters sr n p :
  filtersOk sr p -> filtersOk sr (mixQueued (fst (requestSeed n p))).
Proof.
  intros (Hb & HL & HR).
  destruct (mixQueued_browns (fst (requestSeed n p))) as [ML MR].
  destruct (requestSeed_browns n p) as [QL QR].
  destruct (mixQueued_filters (fst (requestSeed n p))) as [PL PR].
  destruct (requestSeed_filters n p) as [RL RR].
  unfold filtersOk, brownsOk. rewrite ML, MR, QL, QR, PL, PR, RL, RR.
  split; [exact Hb | split; assumption].
Qed.

Lemma step_filters sr e p : filtersOk sr p -> filtersOk sr (step sr e p).
Proof.
  intros H. destruct e as [msg | n]; cbn [step].
  - destruct H as (Hb & HL & HR).
    destruct (handleMessage_browns sr msg p) as [EL ER].
    destruct (handleMessage_filters sr msg p) as [PL PR].
    unfold filtersOk, brownsOk. rewrite EL, ER, PL, PR.
    split; [exact Hb | split; assumption].
  - unfold processBlock. cbn [after].
    apply renderLoop_within. apply prepared_filters. exact H.
Qed.

Lemma new_filters sr cf : filtersOk sr (newNoiseProcessor sr cf).
Proof.
  split; [split; apply initBrownState_constants |].
  unfold pinkBounded. cbn. split; repeat split; Lra.lra.
Qed.

Lemma reachable_filters sr p : reachable sr p -> filtersOk sr p.
Proof.
  intros (cf & events & ->).
  generalize (newNoiseProcessor sr cf) (new_filters sr cf).
  induction events as [| e rest IH]; intros p0 H0; cbn [run fold_left]; [exact H0 |].
  fold (run sr rest (step sr e p0)). apply IH. apply step_filters. exact H0.
Qed.

(** X3.  The pink filter cannot run away.  With white samples in [-1, 1]
    (which [nextSignedFloat] always delivers) the three accumulators stay
    within 42.15, 8.02 and 2.45 in magnitude and the returned sample within
    8.45; the accumulators of both channels of every reachable processor
    state are within these bounds. *)
Theorem X3_pink_bounded (sampleRate : Q) (p : NoiseProcessor)
    (Hreach : reachable sampleRate p) :
  pinkBounded (pinkL p) /\ pinkBounded (pinkR p)
  /\ (forall pk w, pinkBounded pk -> (-1 <= w <= 1)%R ->
         pinkBounded (fst (pinkFilter pk w))
         /\ (-8.45 <= snd (pinkFilter pk w) <= 8.45)%R)
  /\ (forall st, (-1 <= snd (nextSignedFloat st) < 1)%R).
Proof.
  destruct (reachable_filters sampleRate p Hreach) as (_ & HL & HR).
  split; [exact HL |]. split; [exact HR |].
  split; [intros pk w; apply pinkFilter_bounded | apply white_range].
Qed.

Lemma X3_pink_bounded_witness :
  reachable 48000 (handleMessage 48000 (SetMode Brown) (newNoiseProcessor 48000 0))
  /\ pinkBounded
       (pinkL (handleMessage 48000 (SetMode Brown) (newNoiseProcessor 48000 0))).
Proof.
  assert (H : reachable 48000
                (handleMessage 48000 (SetMode Brown) (newNoiseProcessor 48000 0)))
    by apply reachable_message, reachable_new.
  split; [exact H |].
  exact (proj1 (X3_pink_bounded 48000 _ H)).
Defined.

(** X4.  A render block of [n] samples on a reachable state writes exactly
    [n] stereo frames.  Every sample is at most twice (8.45 + brown gain) in
    magnitude; when no fade is armed at the start of the block, every sample
    is within the bound of the current mode alone (8.45 for pink, the brown
    gain for brown). *)
Theorem X4_output_bounded (sampleRate : Q) (p : NoiseProcessor) (n : nat)
    (Hreach : reachable sampleRate p) :
  length (samples (processBlock n p)) = n
  /\ Forall (frameWithin (2 * (8.45 + brownGain sampleRate)))
            (samples (processBlock n p))
  /\ (crossfadeSamplesRemaining p <= 0 ->
        Forall (frameWithin (modeBound sampleRate (currentMode p)))
               (samples (processBlock n p))).
Proof.
  pose proof (prepared_filters sampleRate n p (reachable_filters _ _ Hreach)) as Hprep.
  unfold processBlock. cbn [samples].
  destruct (renderLoop_within sampleRate n
              (crossfadingOf (mixQueued (fst (requestSeed n p))))
              (crossfadeIncrementOf (mixQueued (fst (requestSeed n p))))
              (mixQueued (fst (requestSeed n p))) Hprep) as (Hall & Hlen & _).
  split; [exact Hlen |]. split; [exact Hall |].
  intros Hrest.
  assert (Ef : fadeOf (mixQueued (fst (requestSeed n p))) = fadeOf p)
    by (rewrite fadeOf_mixQueued; apply fadeOf_requestSeed).
  assert (Er : crossfadeSamplesRemaining (mixQueued (fst (requestSeed n p)))
               = crossfadeSamplesRemaining p) by exact (f_equal fRemaining Ef).
  assert (Ec : currentMode (mixQueued (fst (requestSeed n p))) = currentMode p)
    by exact (f_equal fCurrent Ef).
  unfold crossfadingOf. rewrite Er.
  replace (0 <? crossfadeSamplesRemaining p) with false
    by (symmetry; apply Z.ltb_ge; exact Hrest).
  rewrite <- Ec. apply renderLoop_steady. exact Hprep.
Qed.

Lemma X4_output_bounded_witness :
  reachable 48000 (handleMessage 48000 (SetMode Brown) (newNoiseProcessor 48000 0))
  /\ length (samples (processBlock 128
        (handleMessage 48000 (SetMode Brown) (newNoiseProcessor 48000 0)))) = 128%nat.
Proof.
  assert (H : reachable 48000
                (handleMessage 48000 (SetMode Brown) (newNoiseProcessor 48000 0)))
    by apply reachable_message, reachable_new.
  split; [exact H |].
  exact (proj1 (X4_output_bounded 48000 _ 128 H)).
Defined.

(** ** Generator states stay 32-bit words *)

Lemma nth_word l : forall i d, Forall word32 l -> word32 d -> word32 (nth i l d).
Proof.
  induction l as [| x l IH]; intros i d Hl Hd; destruct i; cbn [nth]; try exact Hd.
  - inversion Hl; assumption.
  - apply IH; [inversion Hl; assumption | exact Hd].
Qed.

Lemma initState_words seeds : Forall word32 seeds -> wordState (initState seeds).
Proof.
  intros H. unfold initState, wordState. cbn [s0 s1 s2 s3].
  refine (conj _ (conj _ (conj _ _)));
    (apply nth_word; [exact H | apply word32b_ok; reflexivity]).
Qed.

Lemma subarray_words lo hi seeds :
  Forall word32 seeds -> Forall word32 (subarray lo hi seeds).
Proof. intros H. unfold subarray. apply Forall_take, Forall_drop, H. Qed.

Lemma fallbackSeeds_words cf : Forall word32 (fallbackSeeds cf).
Proof.
  unfold fallbackSeeds. cbn [seq map].
  repeat constructor; rewrite ushr_0; apply ToUint32_range.
Qed.

Lemma mixWordAt_words i word st : wordState st -> wordState (mixWordAt i word st).
Proof.
  intros (H0 & H1 & H2 & H3). unfold mixWordAt, wordState.
  destruct (i mod 4)%nat as [| [| [| k]]]; cbn [s0 s1 s2 s3];
    refine (conj _ (conj _ (conj _ _)));
    first [assumption | rewrite ushr_0; apply ToUint32_range].
Qed.

Lemma mixLoop_words words : forall i st, wordState st -> wordState (mixLoop i words st).
Proof.
  induction words as [| w rest IH]; intros i st H; cbn [mixLoop]; [exact H |].
  apply IH. apply mixWordAt_words. exact H.
Qed.

Lemma mixEntropy_words st words : wordState st -> wordState (mixEntropy st words).
Proof. intros H. unfold mixEntropy. apply advance_words, mixLoop_words, H. Qed.

Lemma handleMessage_states sr msg p :
  wfMessage msg -> statesOk p -> statesOk (handleMessage sr msg p).
Proof.
  intros Hm Hp. destruct msg as [seeds | seeds | mode]; cbn [handleMessage].
  - exact Hp.
  - destruct (negb (initialized p) && (8 <=? length seeds)%nat); [| exact Hp].
    split; fields; apply initState_words, subarray_words, Hm.
  - destruct (Mode_eqb mode (targetMode p)); [exact Hp |]. fields.
    destruct (Qle_bool 1 (crossfadeProgress p)); exact Hp.
Qed.

Lemma mixQueued_states p : statesOk p -> statesOk (mixQueued p).
Proof.
  intros [HL HR]. unfold mixQueued. destruct (seedQueue p); [split; assumption |].
  split; fields; apply mixEntropy_words; assumption.
Qed.

Lemma processBlock_statesOk n p : statesOk p -> statesOk (after (processBlock n p)).
Proof.
  intros Hp.
  destruct (processBlock_states n p) as [EL ER].
  destruct (requestSeed_frame n p) as (QL & QR & _).
  assert (Hq : statesOk (fst (requestSeed n p))).
  { unfold statesOk. rewrite QL, QR. exact Hp. }
  destruct (mixQueued_states _ Hq) as [ML MR].
  unfold statesOk. rewrite EL, ER. split; apply advance_words; assumption.
Qed.

Lemma new_states sr cf : statesOk (newNoiseProcessor sr cf).
Proof.
  split; cbn [newNoiseProcessor stateL stateR];
    apply initState_words, subarray_words, fallbackSeeds_words.
Qed.

(** X5.  Whatever messages and render calls arrive, seed payloads being
    arrays of 32-bit words, the four fields of both generator states are
    32-bit words at every moment: construction, seeding, entropy mixing and
    stepping all keep them in range. *)
Theorem X5_word_states (sampleRate : Q) (currentFrame : Z) (events : list Event)
    (Hwf : Forall wfEvent events) :
  let p := run sampleRate events (newNoiseProcessor sampleRate currentFrame) in
  wordState (stateL p) /\ wordState (stateR p).
Proof.
  intros p. unfold p.
  generalize (newNoiseProcessor sampleRate currentFrame)
             (new_states sampleRate currentFrame).
  induction Hwf as [| e rest He Hrest IH]; intros p0 H0; cbn [run fold_left];
    [exact H0 |].
  fold (run sampleRate rest (step sampleRate e p0)). apply IH.
  destruct e as [msg | n]; cbn [step].
  - apply handleMessage_states; assumption.
  - apply processBlock_statesOk. exact H0.
Qed.

Lemma X5_word_states_witness :
  let p := run 48000 [Message (InitialSeeds [1; 2; 3; 4; 5; 6; 7; 8]);
                      Message (EntropySeeds [9; 10; 11]); Render 128]
               (newNoiseProcessor 48000 0) in
  wordState (stateL p) /\ wordState (stateR p).
Proof.
  apply (X5_word_states 48000 0).
  apply Forall_cons; [apply words32b_ok; reflexivity |].
  apply Forall_cons; [apply words32b_ok; reflexivity |].
  apply Forall_cons; [exact I | apply Forall_nil].
Defined.

(** ** Fallback seeding, mode requests and the fade invariant *)

Lemma lxor_inj_l a c d : Z.lxor a c = Z.lxor a d -> c = d.
Proof.
  intros E. rewrite <- (lxor_cancel_l c a), <- (lxor_cancel_l d a), E. reflexivity.
Qed.

Lemma fallback_word cf i :
  JS.ushr (JS.bxor (cf * 2654435761) (Z.of_nat i * 2654435769)) 0
  = Z.lxor (JS.ToUint32 (cf * 2654435761)) (JS.ToUint32 (Z.of_nat i * 2654435769)).
Proof. apply bxor_u32. Qed.

(** X6.  The fallback seeding of the constructor, for every value of
    [currentFrame]: both generator states consist of 32-bit words, the two
    channels start from different states, neither is the all-zero state and
    neither ever steps into it. *)
Theorem X6_fallback_states (sampleRate : Q) (currentFrame : Z) :
  let p := newNoiseProcessor sampleRate currentFrame in
  wordState (stateL p) /\ wordState (stateR p)
  /\ (stateL p = stateR p -> False)
  /\ (stateL p = zeroState -> False)
  /\ (stateR p = zeroState -> False)
  /\ forall n, (advance n (stateL p) = zeroState -> False)
               /\ (advance n (stateR p) = zeroState -> False).
Proof.
  intros p.
  assert (EL : stateL p
               = mkXoshiro (Z.lxor (JS.ToUint32 (currentFrame * 2654435761)) 0)
                           (Z.lxor (JS.ToUint32 (currentFrame * 2654435761)) 2654435769)
                           (Z.lxor (JS.ToUint32 (currentFrame * 2654435761)) 1013904242)
                           (Z.lxor (JS.ToUint32 (currentFrame * 2654435761)) 3668340011)).
  { unfold p, newNoiseProcessor, fallbackSeeds, initState, subarray.
    cbn [stateL seq map skipn firstn nth Nat.sub].
    rewrite !fallback_word. reflexivity. }
  assert (ER : stateR p
               = mkXoshiro (Z.lxor (JS.ToUint32 (currentFrame * 2654435761)) 2027808484)
                           (Z.lxor (JS.ToUint32 (currentFrame * 2654435761)) 387276957)
                           (Z.lxor (JS.ToUint32 (currentFrame * 2654435761)) 3041712726)
                           (Z.lxor (JS.ToUint32 (currentFrame * 2654435761)) 1401181199)).
  { unfold p, newNoiseProcessor, fallbackSeeds, initState, subarray.
    cbn [stateR seq map skipn firstn nth Nat.sub].
    rewrite !fallback_word. reflexivity. }
  assert (WL : wordState (stateL p)).
  { rewrite EL. unfold wordState. cbn [s0 s1 s2 s3].
    refine (conj _ (conj _ (conj _ _)));
      (apply word32_lxor; [apply ToUint32_range | apply word32b_ok; reflexivity]). }
  assert (WR : wordState (stateR p)).
  { rewrite ER. unfold wordState. cbn [s0 s1 s2 s3].
    refine (conj _ (conj _ (conj _ _)));
      (apply word32_lxor; [apply ToUint32_range | apply word32b_ok; reflexivity]). }
  assert (NL : stateL p <> zeroState).
  { rewrite EL. intros E. injection E as E0 E1 _ _.
    assert (E : Z.lxor (JS.ToUint32 (currentFrame * 2654435761)) 0
                = Z.lxor (JS.ToUint32 (currentFrame * 2654435761)) 2654435769)
      by congruence.
    apply lxor_inj_l in E. discriminate E. }
  assert (NR : stateR p <> zeroState).
  { rewrite ER. intros E. injection E as E0 E1 _ _.
    assert (E : Z.lxor (JS.ToUint32 (currentFrame * 2654435761)) 2027808484
                = Z.lxor (JS.ToUint32 (currentFrame * 2654435761)) 387276957)
      by congruence.
    apply lxor_inj_l in E. discriminate E. }
  split; [exact WL |]. split; [exact WR |].
  split.
  { rewrite EL, ER. intros E. injection E as E0 _ _ _.
    apply lxor_inj_l in E0. discriminate E0. }
  split; [exact NL |]. split; [exact NR |].
  intros n. split.
  - apply advance_nonzero; assumption.
  - apply advance_nonzero; assumption.
Qed.

Lemma Mode_eqb_refl m : Mode_eqb m m = true.
Proof. destruct m; reflexivity. Qed.

(** X7.  After a ['set-mode'] message the target is the requested mode;
    delivering the same message a second time changes nothing, and a request
    for the mode that is already the target leaves the whole state as it
    was. *)
Theorem X7_set_mode_idempotent (sampleRate : Q) (p : NoiseProcessor) (mode : Mode) :
  targetMode (handleMessage sampleRate (SetMode mode) p) = mode
  /\ handleMessage sampleRate (SetMode mode)
       (handleMessage sampleRate (SetMode mode) p)
     = handleMessage sampleRate (SetMode mode) p
  /\ (mode = targetMode p -> handleMessage sampleRate (SetMode mode) p = p).
Proof.
  assert (Ht : targetMode (handleMessage sampleRate (SetMode mode) p) = mode).
  { cbn [handleMessage]. destruct (Mode_eqb mode (targetMode p)) eqn:E.
    - apply Mode_eqb_eq in E. symmetry. exact E.
    - fields. destruct (Qle_bool 1 (crossfadeProgress p)); reflexivity. }
  split; [exact Ht |]. split.
  - set (q := handleMessage sampleRate (SetMode mode) p) in *.
    cbn [handleMessage]. rewrite Ht, Mode_eqb_refl. reflexivity.
  - intros ->. cbn [handleMessage]. rewrite Mode_eqb_refl. reflexivity.
Qed.

Lemma fadeSane_step sr e f :
  0 < crossfadeLength sr ->
  fadeSane (crossfadeLength sr) f ->
  fadeSane (crossfadeLength sr) (fadeStep sr 0.05 e f).
Proof.
  intros Hlen (Hrest & Hle & Hpos). unfold fadeSane.
  pose proof (restInv_step sr e f Hlen Hrest) as Hrest'.
  split; [exact Hrest' |].
  destruct e as [msg | n]; cbn [fadeStep].
  - destruct msg as [seeds | seeds | mode]; cbn [fadeMessage];
      try (split; assumption).
    destruct (Mode_eqb mode (fTarget f)); [split; assumption |].
    destruct (Qle_bool 1 (fProgress f)); cbn [fRemaining fProgress].
    + split; [unfold crossfadeLength; lia | Lqa.lra].
    + split; assumption.
  - destruct (Z_lt_le_dec 0 (fRemaining f)) as [Hpos' | Hr].
    + destruct (Z_lt_le_dec (Z.of_nat n) (fRemaining f)) as [L | L].
      * destruct (fadeBlock_running n f L) as (Br & _ & _ & Bp).
        rewrite Br, Bp. split; [lia |].
        assert (0 <= inject_Z (Z.of_nat n) / inject_Z (fRemaining f))%Q.
        { apply Qle_shift_div_l.
          - replace 0%Q with (inject_Z 0) by reflexivity.
            rewrite <- Zlt_Qlt. exact Hpos'.
          - rewrite Qmult_0_l. replace 0%Q with (inject_Z 0) by reflexivity.
            rewrite <- Zle_Qle. lia. }
        Lqa.lra.
      * destruct (fadeBlock_done n f) as (Br & _ & _ & Bp); [lia |].
        rewrite Br, Bp. split; [lia | Lqa.lra].
    + rewrite fadeBlock_rest by exact Hr. split; assumption.
Qed.

Lemma fadeSane_run sr events : forall f,
  0 < crossfadeLength sr ->
  fadeSane (crossfadeLength sr) f ->
  fadeSane (crossfadeLength sr) (fadeRun sr 0.05 events f).
Proof.
  induction events as [| e rest IH]; intros f Hlen H; cbn [fadeRun fold_left];
    [exact H |].
  fold (fadeRun sr 0.05 rest (fadeStep sr 0.05 e f)).
  apply IH; [exact Hlen |]. apply fadeSane_step; assumption.
Qed.

(** X8.  In every reachable state (the sample rate being large enough for
    a fade of at least one sample): a non-positive remaining count means
    progress 1 and equal modes; different modes mean a fade is counting
    down; the remaining count never exceeds the fade length; progress is
    never negative. *)
Theorem X8_fade_invariant (sampleRate : Q) (p : NoiseProcessor)
    (Hreach : reachable sampleRate p)
    (Hlen : 0 < crossfadeLength sampleRate) :
  (crossfadeSamplesRemaining p <= 0 ->
     crossfadeProgress p = 1%Q /\ currentMode p = targetMode p)
  /\ (currentMode p <> targetMode p -> 0 < crossfadeSamplesRemaining p)
  /\ crossfadeSamplesRemaining p <= crossfadeLength sampleRate
  /\ (0 <= crossfadeProgress p)%Q.
Proof.
  destruct Hreach as (cf & events & ->).
  assert (H : fadeSane (crossfadeLength sampleRate)
                (fadeOf (run sampleRate events (newNoiseProcessor sampleRate cf)))).
  { rewrite fadeOf_run. apply fadeSane_run; [exact Hlen |].
    unfold fadeSane. cbn [fadeOf newNoiseProcessor fRemaining fProgress fCurrent
                            fTarget currentMode targetMode crossfadeProgress
                            crossfadeSamplesRemaining].
    split; [intros _; split; reflexivity |].
    split; [apply Z.lt_le_incl; exact Hlen | discriminate]. }
  destruct H as (Hrest & Hle & Hpos). cbn [fadeOf fRemaining fProgress fCurrent fTarget] in *.
  split; [exact Hrest |]. split; [| split; assumption].
  intros Hne.
  destruct (Z_lt_le_dec 0 (crossfadeSamplesRemaining
                             (run sampleRate events (newNoiseProcessor sampleRate cf))))
    as [L | L]; [exact L |].
  destruct (Hrest L) as [_ E]. contradiction.
Qed.

Lemma X8_fade_invariant_witness :
  let p := run 48000 [Message (SetMode Brown); Render 128; Message (SetMode Pink)]
               (newNoiseProcessor 48000 0) in
  crossfadeSamplesRemaining p <= 2400 /\ (0 <= crossfadeProgress p)%Q.
Proof.
  intros p.
  assert (Hreach : reachable 48000 p) by (apply reachable_run, reachable_new).
  destruct (X8_fade_invariant 48000 p Hreach eq_refl) as (_ & _ & Hle & Hpos).
  split; [exact Hle | exact Hpos].
Defined.

Lemma angle_range t :
  (0 <= t <= 1)%Q -> (0 <= 0.5 * PI * Q2R t <= PI / 2)%R.
Proof.
  intros [H0 H1]. apply Qreals.Qle_Rle in H0, H1.
  rewrite RMicromega.Q2R_0 in H0. rewrite RMicromega.Q2R_1 in H1.
  pose proof PI_RGT_0. split; Lra.nra.
Qed.

Lemma gains_quadrant t :
  (0 <= t <= 1)%Q ->
  (0 <= oldGain t <= 1)%R /\ (0 <= newGain t <= 1)%R
  /\ (1 <= oldGain t + newGain t <= sqrt 2)%R.
Proof.
  intros Ht. destruct (angle_range t Ht) as [A0 A1].
  pose proof PI_RGT_0 as Hpi.
  pose proof (gains_unit t) as Hu.
  destruct (gain_abs t) as [[_ Hc1] [_ Hs1]].
  assert (Hc0 : (0 <= oldGain t)%R).
  { unfold oldGain. apply cos_ge_0; Lra.lra. }
  assert (Hs0 : (0 <= newGain t)%R).
  { unfold newGain. apply sin_ge_0; Lra.lra. }
  split; [split; assumption |]. split; [split; assumption |].
  assert (Hs2 : (sqrt 2 * sqrt 2 = 2)%R) by (apply sqrt_def; Lra.lra).
  pose proof (sqrt_pos 2) as Hsp.
  set (c := oldGain t) in *. set (s := newGain t) in *.
  assert (Hlo : (1 <= (c + s) * (c + s))%R) by Lra.nra.
  assert (Hhi : ((c + s) * (c + s) <= 2)%R).
  { pose proof (Rle_0_sqr (c - s)) as Hd. unfold Rsqr in Hd. Lra.nra. }
  split.
  - destruct (Rle_lt_dec 1 (c + s)) as [L | L]; [exact L |].
    assert ((c + s) * (c + s) < 1 * 1)%R
      by (apply Rmult_le_0_lt_compat; Lra.lra).
    Lra.lra.
  - destruct (Rle_lt_dec (c + s) (sqrt 2)) as [L | L]; [exact L |].
    assert (sqrt 2 * sqrt 2 < (c + s) * (c + s))%R
      by (apply Rmult_le_0_lt_compat; Lra.lra).
    Lra.lra.
Qed.

Lemma oldGain_negative t : (1 < t < 3)%Q -> (oldGain t < 0)%R.
Proof.
  intros [H1 H3]. apply Qreals.Qlt_Rlt in H1, H3.
  rewrite RMicromega.Q2R_1 in H1.
  replace (Q2R 3) with 3%R in H3 by (unfold Q2R; cbn; Lra.lra).
  pose proof PI_RGT_0 as Hpi.
  unfold oldGain. apply cos_lt_0; Lra.nra.
Qed.

Lemma blend_same t x :
  blend t x x
  = (((oldGain t + newGain t) * fst x)%R, ((oldGain t + newGain t) * snd x)%R).
Proof. unfold blend. f_equal; ring. Qed.

(** X9.  The two crossfade gains are equal-power: their squares add up to
    1 at every progress value.  For progress in [0, 1] both lie in [0, 1];
    once progress has passed 1 (below 3) the old gain is negative, so the
    outgoing mode is mixed in with inverted sign. *)
Theorem X9_equal_power (t : Q) :
  (oldGain t * oldGain t + newGain t * newGain t = 1)%R
  /\ ((0 <= t <= 1)%Q ->
        (0 <= oldGain t <= 1)%R /\ (0 <= newGain t <= 1)%R)
  /\ ((1 < t < 3)%Q -> (oldGain t < 0)%R).
Proof.
  split; [apply gains_unit |]. split.
  - intros Ht. destruct (gains_quadrant t Ht) as (Hc & Hs & _). split; assumption.
  - apply oldGain_negative.
Qed.

(** X10.  A fade whose target was switched back to the current mode blends
    a mode with itself: the frame written is the steady frame scaled by
    cos + sin of the fade angle, a factor between 1 and sqrt 2 for progress
    in [0, 1]. *)
Theorem X10_flip_back (p : NoiseProcessor) (inc : Q)
    (Hsame : targetMode p = currentMode p)
    (Hprog : (0 <= crossfadeProgress p <= 1)%Q) :
  let g := (oldGain (crossfadeProgress p) + newGain (crossfadeProgress p))%R in
  snd (renderSample true inc p)
  = ((g * fst (snd (renderSample false inc p)))%R,
     (g * snd (snd (renderSample false inc p)))%R)
  /\ (1 <= g <= sqrt 2)%R.
Proof.
  intros g. destruct (renderSample_output inc p) as [Eon Eoff].
  rewrite Eon, Eoff, Hsame, blend_same.
  split; [reflexivity |]. apply gains_quadrant. exact Hprog.
Qed.

Lemma X10_flip_back_witness :
  let p := run 48000 [Message (SetMode Brown); Render 128; Message (SetMode Pink)]
               (newNoiseProcessor 48000 0) in
  (0 < crossfadeSamplesRemaining p /\ targetMode p = currentMode p)
  /\ (1 <= oldGain (crossfadeProgress p) + newGain (crossfadeProgress p) <= sqrt 2)%R.
Proof.
  cbv zeta.
  destruct (run_fade 48000 [Message (SetMode Brown); Render 128; Message (SetMode Pink)]
              (newNoiseProcessor 48000 0)) as (Ec & Et & Ep & Er).
  remember (run 48000 [Message (SetMode Brown); Render 128; Message (SetMode Pink)]
              (newNoiseProcessor 48000 0)) as p eqn:Hp.
  clear Hp.
  remember (fadeRun 48000 (crossfadeDuration (newNoiseProcessor 48000 0))
              [Message (SetMode Brown); Render 128; Message (SetMode Pink)]
              (fadeOf (newNoiseProcessor 48000 0))) as f eqn:Hf.
  assert (Fc : fCurrent f = Pink) by (rewrite Hf; vm_compute; reflexivity).
  assert (Ft : fTarget f = Pink) by (rewrite Hf; vm_compute; reflexivity).
  assert (Fr : fRemaining f = 2272) by (rewrite Hf; vm_compute; reflexivity).
  assert (F0 : Qle_bool 0 (fProgress f) = true) by (rewrite Hf; vm_compute; reflexivity).
  assert (F1 : Qle_bool (fProgress f) 1 = true) by (rewrite Hf; vm_compute; reflexivity).
  clear Hf.
  assert (Hsame : targetMode p = currentMode p) by (rewrite Ec, Et, Fc, Ft; reflexivity).
  assert (Hprog : (0 <= crossfadeProgress p <= 1)%Q).
  { rewrite Ep. split; apply Qle_bool_iff; assumption. }
  split; [split; [rewrite Er, Fr; reflexivity | exact Hsame] |].
  exact (proj2 (X10_flip_back p 0 Hsame Hprog)).
Defined.

Lemma handleMessages_entropy sr batches : forall p,
  seedQueue (handleMessages sr (map EntropySeeds batches) p) = seedQueue p ++ batches.
Proof.
  induction batches as [| x rest IH]; intros p; cbn [map handleMessages fold_left].
  - symmetry. apply app_nil_r.
  - fold (handleMessages sr (map EntropySeeds rest) (handleMessage sr (EntropySeeds x) p)).
    rewrite IH. cbn [handleMessage]. fields. rewrite <- app_assoc. reflexivity.
Qed.

Lemma run_renders_queue sr blocks : forall p,
  seedQueue (run sr (renders blocks) p) = drop (length blocks) (seedQueue p).
Proof.
  induction blocks as [| n rest IH]; intros p; cbn [renders map run fold_left step length].
  - reflexivity.
  - fold (renders rest). fold (run sr (renders rest) (after (processBlock n p))).
    rewrite IH, processBlock_queue.
    destruct (seedQueue p) as [| x q]; cbn [tl]; [apply drop_nil | reflexivity].
Qed.

(** X11.  The seed queue is first-in first-out: ['entropy-seeds'] messages
    append their batches in arrival order, the other two message kinds
    leave the queue alone, and each render block removes exactly the oldest
    batch, so after [k] blocks the first [k] batches are gone. *)
Theorem X11_seed_queue_fifo (sampleRate : Q) (p : NoiseProcessor)
    (batches : list (list Z)) (blocks : list nat) :
  seedQueue (handleMessages sampleRate (map EntropySeeds batches) p)
  = seedQueue p ++ batches
  /\ seedQueue (run sampleRate (renders blocks) p)
     = drop (length blocks) (seedQueue p)
  /\ seedQueue (run sampleRate (renders blocks)
                  (handleMessages sampleRate (map EntropySeeds batches) p))
     = drop (length blocks) (seedQueue p ++ batches)
  /\ (forall mode, seedQueue (handleMessage sampleRate (SetMode mode) p) = seedQueue p)
  /\ (forall seeds, seedQueue (handleMessage sampleRate (InitialSeeds seeds) p)
                    = seedQueue p).
Proof.
  split; [apply handleMessages_entropy |].
  split; [apply run_renders_queue |].
  split; [rewrite run_renders_queue, handleMessages_entropy; reflexivity |].
  split.
  - intros mode. cbn [handleMessage].
    destruct (Mode_eqb mode (targetMode p)); [reflexivity |]. fields.
    destruct (Qle_bool 1 (crossfadeProgress p)); reflexivity.
  - intros seeds. cbn [handleMessage].
    destruct (negb (initialized p) && (8 <=? length seeds)%nat); reflexivity.
Qed.

(** ** The entropy generator: words, event buffer and packing *)

Lemma lookup_in_pool (rng : EntropyRng.t) (i : nat) :
  poolOk rng -> (i < 8)%nat -> exists v, EntropyRng.pool rng !! i = Some v.
Proof.
  intros [Hl _] Hi. unfold EntropyRng.POOL_SIZE in Hl.
  destruct (EntropyRng.pool rng !! i) as [v |] eqn:E; [exists v; reflexivity |].
  apply lookup_ge_None in E. lia.
Qed.

Lemma mixWord_words pool w i : Forall word32 pool -> Forall word32 (EntropyRng.mixWord pool w i).
Proof.
  intros H. unfold EntropyRng.mixWord. destruct (pool !! i); [| exact H].
  apply Forall_insert; [exact H |]. rewrite ushr_0. apply ToUint32_range.
Qed.

Lemma stir_words w rng :
  Forall word32 (EntropyRng.pool rng) ->
  Forall word32 (EntropyRng.pool (EntropyRng.stir w rng)).
Proof. intros H. cbn [EntropyRng.stir EntropyRng.pool]. apply mixWord_words, H. Qed.

Lemma stir_fields w rng :
  EntropyRng.counter (EntropyRng.stir w rng) = EntropyRng.counter rng
  /\ EntropyRng.eventBuffer (EntropyRng.stir w rng) = EntropyRng.eventBuffer rng
  /\ EntropyRng.stirIndex (EntropyRng.stir w rng)
     = ((EntropyRng.stirIndex rng + 1) mod 8)%nat.
Proof. repeat split; reflexivity. Qed.

Lemma counter_slot c : (Z.to_nat (c mod Z.of_nat EntropyRng.POOL_SIZE) < 8)%nat.
Proof.
  unfold EntropyRng.POOL_SIZE.
  pose proof (Z.mod_pos_bound c (Z.of_nat 8) ltac:(lia)). lia.
Qed.

(** [nextU32] on a well-formed pool, step by step. *)
Lemma nextU32_ok fresh rng :
  poolOk rng ->
  let r1 := EntropyRng.stir (EntropyRng.counter rng + 1)
              (EntropyRng.mk (EntropyRng.pool rng) (EntropyRng.counter rng + 1)
                 (EntropyRng.eventBuffer rng) (EntropyRng.stirIndex rng)) in
  exists poolVal,
    EntropyRng.pool r1
      !! Z.to_nat ((EntropyRng.counter rng + 1) mod 8) = Some poolVal
    /\ EntropyRng.nextU32 fresh rng
       = (EntropyRng.stir (JS.ushr (JS.bxor poolVal fresh) 0) r1,
          JS.ushr (JS.bxor poolVal fresh) 0).
Proof.
  intros Hok r1.
  assert (H1 : poolOk r1) by (apply stir_ok; exact Hok).
  destruct (lookup_in_pool r1 (Z.to_nat ((EntropyRng.counter rng + 1) mod 8)) H1)
    as [v Hv]; [apply (counter_slot (EntropyRng.counter rng + 1)) |].
  exists v. split; [exact Hv |].
  unfold EntropyRng.nextU32. cbn [EntropyRng.counter].
  fold r1.
  replace (EntropyRng.counter r1) with (EntropyRng.counter rng + 1) by reflexivity.
  change (Z.of_nat EntropyRng.POOL_SIZE) with 8.
  rewrite Hv. reflexivity.
Qed.

Lemma nextU32_fields fresh rng :
  poolOk rng ->
  poolOk (fst (EntropyRng.nextU32 fresh rng))
  /\ EntropyRng.counter (fst (EntropyRng.nextU32 fresh rng)) = EntropyRng.counter rng + 1
  /\ EntropyRng.eventBuffer (fst (EntropyRng.nextU32 fresh rng))
     = EntropyRng.eventBuffer rng
  /\ EntropyRng.stirIndex (fst (EntropyRng.nextU32 fresh rng))
     = ((EntropyRng.stirIndex rng + 2) mod 8)%nat
  /\ word32 (snd (EntropyRng.nextU32 fresh rng)).
Proof.
  intros Hok.
  destruct (nextU32_ok fresh rng Hok) as (v & Hv & E). rewrite E. cbn [fst snd].
  split; [apply stir_ok, stir_ok; exact Hok |].
  split; [reflexivity |]. split; [reflexivity |].
  split.
  - cbn [EntropyRng.stir EntropyRng.stirIndex].
    rewrite Nat.Div0.add_mod_idemp_l. f_equal. lia.
  - rewrite ushr_0. apply ToUint32_range.
Qed.

Lemma nextU32_pool_words fresh rng :
  Forall word32 (EntropyRng.pool rng) ->
  Forall word32 (EntropyRng.pool (fst (EntropyRng.nextU32 fresh rng))).
Proof.
  intros H. unfold EntropyRng.nextU32.
  match goal with |- context [match ?o with _ => _ end] => destruct o end;
    cbn [fst]; repeat apply stir_words; exact H.
Qed.

Lemma getWordsFrom_ok count : forall i fresh rng,
  poolOk rng ->
  let r := getWordsFrom i count fresh rng in
  poolOk (fst r)
  /\ length (snd r) = count
  /\ Forall word32 (snd r)
  /\ EntropyRng.counter (fst r) = EntropyRng.counter rng + Z.of_nat count
  /\ EntropyRng.eventBuffer (fst r) = EntropyRng.eventBuffer rng
  /\ EntropyRng.stirIndex (fst r)
     = ((EntropyRng.stirIndex rng + 2 * count) mod 8)%nat.
Proof.
  induction count as [| m IH]; intros i fresh rng Hok; cbn zeta.
  - cbn [getWordsFrom fst snd length].
    refine (conj Hok (conj eq_refl (conj (Forall_nil_2 _) (conj _ (conj eq_refl _))))).
    + lia.
    + destruct Hok as [_ Hs]. unfold EntropyRng.POOL_SIZE in Hs.
      rewrite Nat.add_0_r, Nat.mod_small; [reflexivity | exact Hs].
  - cbn [getWordsFrom fst snd length].
    destruct (nextU32_fields (fresh i) rng Hok) as (Hok1 & Hc1 & He1 & Hs1 & Hw1).
    destruct (IH (S i) fresh _ Hok1) as (Hok2 & Hl2 & Hw2 & Hc2 & He2 & Hs2).
    refine (conj Hok2 (conj _ (conj _ (conj _ (conj _ _))))).
    + rewrite Hl2. reflexivity.
    + apply Forall_cons_2; [| exact Hw2].
      rewrite ushr_0. apply ToUint32_range.
    + rewrite Hc2, Hc1. lia.
    + rewrite He2, He1. reflexivity.
    + rewrite Hs2, Hs1. rewrite Nat.Div0.add_mod_idemp_l. f_equal. lia.
Qed.

Lemma getWords_ok (count : nat) (fresh : nat -> Z) (rng : EntropyRng.t) :
  poolOk rng ->
  length (snd (getWords count fresh rng)) = count
  /\ Forall word32 (snd (getWords count fresh rng))
  /\ poolOk (fst (getWords count fresh rng))
  /\ EntropyRng.eventBuffer (fst (getWords count fresh rng)) = EntropyRng.eventBuffer rng.
Proof.
  intros Hok. unfold getWords.
  destruct (getWordsFrom_ok count 0%nat fresh rng Hok) as (H1 & H2 & H3 & H4 & H5 & H6).
  auto.
Qed.

(** X12.  [getWords(count)] on a pool of 8 words with its cursor in range
    returns exactly [count] 32-bit words, advances the counter by [count]
    and the cursor by [2 * count] modulo 8, and leaves the event buffer
    alone; for a multiple of 4 words (the feeder draws 8) the cursor is back
    where it was. *)
Theorem X12_getWords (count : nat) (fresh : nat -> Z) (rng : EntropyRng.t)
  (Hok : poolOk rng) :
  let r := getWords count fresh rng in
  length (snd r) = count
  /\ Forall word32 (snd r)
  /\ poolOk (fst r)
  /\ EntropyRng.counter (fst r) = EntropyRng.counter rng + Z.of_nat count
  /\ EntropyRng.eventBuffer (fst r) = EntropyRng.eventBuffer rng
  /\ EntropyRng.stirIndex (fst r)
     = ((EntropyRng.stirIndex rng + 2 * count) mod 8)%nat
  /\ (count mod 4 = 0 -> EntropyRng.stirIndex (fst r) = EntropyRng.stirIndex rng)%nat.
Proof.
  cbn zeta. unfold getWords.
  destruct (getWordsFrom_ok count 0%nat fresh rng Hok) as (H1 & H2 & H3 & H4 & H5 & H6).
  refine (conj H2 (conj H3 (conj H1 (conj H4 (conj H5 (conj H6 _)))))).
  intros Hm. rewrite H6. destruct Hok as [_ Hs]. unfold EntropyRng.POOL_SIZE in Hs.
  assert (E : (count = 4 * (count / 4))%nat).
  { pose proof (Nat.div_mod_eq count 4). lia. }
  replace (EntropyRng.stirIndex rng + 2 * count)%nat
    with (EntropyRng.stirIndex rng + (count / 4) * 8)%nat by lia.
  rewrite Nat.Div0.mod_add. apply Nat.mod_small. exact Hs.
Qed.

Lemma X12_getWords_witness :
  poolOk (EntropyRng.create [1; 2; 3; 4; 5; 6; 7; 8])
  /\ length (snd (getWords 8 (fun i => Z.of_nat i) (EntropyRng.create [1; 2; 3; 4; 5; 6; 7; 8]))) = 8%nat.
Proof.
  assert (H : poolOk (EntropyRng.create [1; 2; 3; 4; 5; 6; 7; 8])).
  { split; vm_compute; [reflexivity | lia]. }
  split; [exact H |].
  exact (proj1 (X12_getWords 8 (fun i => Z.of_nat i) _ H)).
Defined.

(** X13.  On a pool of 8 words with its cursor in range, [nextU32] returns
    [poolVal XOR fresh], where [poolVal] is the word at slot
    [(counter + 1) mod 8] of the pool as it is once the incremented counter
    has been stirred in at the cursor: the original pool word of that slot
    when the slot is not the cursor's, and the word that [stir] has just
    written there when it is.  The output is then stirred into the pool.  For a fixed generator
    state the output is a bijection of the fresh word: different fresh
    words give different outputs, and every 32-bit output is produced by
    some fresh word. *)
Theorem X13_nextU32 (rng : EntropyRng.t) (fresh : Z)
  (Hok : poolOk rng) (Hpool : Forall word32 (EntropyRng.pool rng))
  (Hfresh : word32 fresh) :
  let bumped := EntropyRng.mk (EntropyRng.pool rng) (EntropyRng.counter rng + 1)
                  (EntropyRng.eventBuffer rng) (EntropyRng.stirIndex rng) in
  let stirred := EntropyRng.stir (EntropyRng.counter rng + 1) bumped in
  let slot := Z.to_nat ((EntropyRng.counter rng + 1) mod 8) in
  exists poolVal,
    EntropyRng.pool stirred !! slot = Some poolVal
    /\ (slot <> EntropyRng.stirIndex rng ->
          EntropyRng.pool rng !! slot = Some poolVal)
    /\ (slot = EntropyRng.stirIndex rng ->
          exists old, EntropyRng.pool rng !! slot = Some old
            /\ poolVal = EntropyRng.stirred old
                           (JS.ToUint32 (EntropyRng.counter rng + 1)))
    /\ word32 poolVal
    /\ EntropyRng.nextU32 fresh rng
       = (EntropyRng.stir (Z.lxor poolVal fresh) stirred, Z.lxor poolVal fresh)
    /\ (forall fresh', word32 fresh' ->
          snd (EntropyRng.nextU32 fresh' rng) = Z.lxor poolVal fresh')
    /\ (forall fresh', word32 fresh' ->
          snd (EntropyRng.nextU32 fresh' rng) = snd (EntropyRng.nextU32 fresh rng) ->
          fresh' = fresh)
    /\ (forall out, word32 out -> exists fresh', word32 fresh'
          /\ snd (EntropyRng.nextU32 fresh' rng) = out).
Proof.
  cbn zeta.
  destruct (nextU32_ok fresh rng Hok) as (v & Hv & E). cbn zeta in Hv, E.
  assert (Hw : word32 v).
  { pose proof (stir_words (EntropyRng.counter rng + 1)
      (EntropyRng.mk (EntropyRng.pool rng) (EntropyRng.counter rng + 1)
         (EntropyRng.eventBuffer rng) (EntropyRng.stirIndex rng)) Hpool) as Hs.
    rewrite Forall_lookup in Hs. exact (Hs _ _ Hv). }
  assert (Hx : forall f, word32 f -> JS.ushr (JS.bxor v f) 0 = Z.lxor v f).
  { intros f Hf. rewrite bxor_u32, !ToUint32_word by assumption. reflexivity. }
  assert (Hall : forall f, word32 f ->
            snd (EntropyRng.nextU32 f rng) = Z.lxor v f).
  { intros f Hf. destruct (nextU32_ok f rng Hok) as (v' & Hv' & E').
    cbn zeta in Hv'. rewrite Hv in Hv'. injection Hv' as <-.
    rewrite E'. cbn [snd]. apply Hx. exact Hf. }
  exists v. split; [exact Hv |].
  destruct Hok as [Hlen Hcur]. unfold EntropyRng.POOL_SIZE in Hlen, Hcur.
  assert (Hslot : (Z.to_nat ((EntropyRng.counter rng + 1) mod 8) < 8)%nat)
    by apply (counter_slot (EntropyRng.counter rng + 1)).
  destruct (lookup_lt_is_Some_2 (EntropyRng.pool rng) (EntropyRng.stirIndex rng))
    as [cur Hcurv]; [lia |].
  assert (Hmix : EntropyRng.mixWord (EntropyRng.pool rng)
                   (JS.ushr (EntropyRng.counter rng + 1) 0) (EntropyRng.stirIndex rng)
                 = <[EntropyRng.stirIndex rng :=
                       EntropyRng.stirred cur (JS.ToUint32 (EntropyRng.counter rng + 1))]>
                     (EntropyRng.pool rng)).
  { rewrite ushr_0.
    apply (mixWord_spec _ _ _ cur Hpool (ToUint32_range _) Hcurv). }
  cbn [EntropyRng.stir EntropyRng.pool EntropyRng.stirIndex] in Hv.
  rewrite Hmix in Hv.
  split.
  { intros Hne. rewrite list_lookup_insert_ne in Hv by (intros Heq; apply Hne; symmetry; exact Heq).
    exact Hv. }
  split.
  { intros Heq. exists cur. rewrite Heq. split; [exact Hcurv |].
    rewrite Heq in Hv. rewrite list_lookup_insert_eq in Hv by lia.
    injection Hv as <-. reflexivity. }
  split; [exact Hw |].
  split; [rewrite E, (Hx fresh Hfresh); reflexivity |].
  split; [exact Hall |].
  split.
  - intros f Hf Heq. rewrite (Hall f Hf), (Hall fresh Hfresh) in Heq.
    rewrite <- (lxor_cancel_l f v), <- (lxor_cancel_l fresh v), Heq. reflexivity.
  - intros out Hout. exists (Z.lxor v out). split.
    + apply word32_lxor; assumption.
    + rewrite Hall by (apply word32_lxor; assumption).
      apply lxor_cancel_l.
Qed.

Lemma X13_nextU32_witness :
  poolOk (EntropyRng.create [1; 2; 3; 4; 5; 6; 7; 8])
  /\ Forall word32 (EntropyRng.pool (EntropyRng.create [1; 2; 3; 4; 5; 6; 7; 8]))
  /\ word32 5
  /\ exists poolVal,
       EntropyRng.pool (EntropyRng.create [1; 2; 3; 4; 5; 6; 7; 8]) !! 1%nat
       = Some poolVal
       /\ snd (EntropyRng.nextU32 5 (EntropyRng.create [1; 2; 3; 4; 5; 6; 7; 8]))
          = Z.lxor poolVal 5.
Proof.
  assert (H : poolOk (EntropyRng.create [1; 2; 3; 4; 5; 6; 7; 8])).
  { split; vm_compute; [reflexivity | lia]. }
  assert (Hp : Forall word32 (EntropyRng.pool (EntropyRng.create [1; 2; 3; 4; 5; 6; 7; 8]))).
  { apply words32b_ok. vm_compute. reflexivity. }
  assert (H5 : word32 5) by (unfold word32; lia).
  refine (conj H (conj Hp (conj H5 _))).
  destruct (X13_nextU32 _ 5 H Hp H5) as (v & _ & Hv & _ & _ & E & _).
  exists v. split.
  - apply Hv. vm_compute. discriminate.
  - rewrite E. reflexivity.
Defined.

Lemma band_mask x k :
  0 <= k < 31 -> band x (2 ^ k - 1) = x mod 2 ^ k.
Proof.
  intros Hk. unfold band.
  assert (Hm : JS.ToInt32 (2 ^ k - 1) = 2 ^ k - 1).
  { unfold JS.ToInt32.
    assert (0 < 2 ^ k <= 2 ^ 30) by (split; [lia | apply Z.pow_le_mono_r; lia]).
    rewrite Z.mod_small; lia. }
  rewrite Hm. change (2 ^ k - 1) with (Z.pred (2 ^ k)).
  rewrite <- Z.ones_equiv, Z.land_ones by lia.
  unfold JS.ToInt32.
  rewrite (Z.mod_eq (x + 2 ^ 31) (2 ^ 32)) by discriminate.
  replace (x + 2 ^ 31 - 2 ^ 32 * ((x + 2 ^ 31) / 2 ^ 32) - 2 ^ 31)
    with (x + (- (2 ^ (32 - k) * ((x + 2 ^ 31) / 2 ^ 32))) * 2 ^ k).
  - apply Z_mod_plus_full.
  - replace (2 ^ 32) with (2 ^ (32 - k) * 2 ^ k)
      by (rewrite <- Z.pow_add_r by lia; f_equal; lia).
    ring.
Qed.

(** [((hi) << s) | lo] read as an unsigned word, for a high part of
    [32 - s] bits and a low part of [s] bits. *)
Lemma pack_word hi lo s :
  0 < s < 32 -> 0 <= hi < 2 ^ (32 - s) -> 0 <= lo < 2 ^ s ->
  JS.ushr (JS.bor (JS.shl hi s) lo) 0 = hi * 2 ^ s + lo.
Proof.
  intros Hs Hhi Hlo.
  assert (P32 : 2 ^ 32 = 2 ^ (32 - s) * 2 ^ s)
    by (rewrite <- Z.pow_add_r by lia; f_equal; lia).
  assert (Ps : 0 < 2 ^ s) by lia.
  assert (Whs : word32 (hi * 2 ^ s)) by (unfold word32; nia).
  assert (Wlo : word32 lo) by (unfold word32; nia).
  rewrite ushr_0. unfold JS.bor.
  rewrite ToUint32_lor, !ToUint32_ToInt32.
  fold (JS.ushr (JS.shl hi s) 0). rewrite <- (ushr_0 (JS.shl hi s)).
  rewrite shl_u32 by lia.
  rewrite Z.shiftl_mul_pow2 by lia.
  fold (JS.ToUint32 (hi * 2 ^ s)).
  rewrite !ToUint32_word by assumption.
  rewrite <- Z.lxor_lor, <- Z.add_nocarry_lxor; try reflexivity.
  all: apply Z.bits_inj'; intros n Hn; rewrite Z.land_spec, Z.bits_0;
    destruct (Z.ltb_spec n s) as [Hlt | Hge];
    [ rewrite Z.mul_pow2_bits_low by lia; reflexivity
    | rewrite <- (Z.mod_small lo (2 ^ s)) by lia;
      rewrite Z.mod_pow2_bits_high by lia; apply andb_false_r ].
Qed.

Lemma stir_ushr w rng : EntropyRng.stir (JS.ushr w 0) rng = EntropyRng.stir w rng.
Proof.
  unfold EntropyRng.stir. rewrite !ushr_0.
  rewrite (ToUint32_word (JS.ToUint32 w)) by apply ToUint32_range. reflexivity.
Qed.

Lemma stirs_ushr values : forall rng,
  fold_left (fun acc word => EntropyRng.stir word acc)
    (map (fun v => JS.ushr v 0) values) rng
  = fold_left (fun acc word => EntropyRng.stir word acc) values rng.
Proof.
  induction values as [| v rest IH]; intros rng; cbn [map fold_left]; [reflexivity |].
  rewrite stir_ushr. apply IH.
Qed.

Lemma stirs_fields ws : forall rng,
  poolOk rng ->
  let r := fold_left (fun acc word => EntropyRng.stir word acc) ws rng in
  EntropyRng.counter r = EntropyRng.counter rng
  /\ EntropyRng.eventBuffer r = EntropyRng.eventBuffer rng
  /\ EntropyRng.stirIndex r = ((EntropyRng.stirIndex rng + length ws) mod 8)%nat.
Proof.
  induction ws as [| w rest IH]; intros rng Hok; cbn zeta; cbn [fold_left length].
  - destruct Hok as [_ Hs]. unfold EntropyRng.POOL_SIZE in Hs.
    rewrite Nat.add_0_r, Nat.mod_small by exact Hs. repeat split.
  - destruct (IH (EntropyRng.stir w rng) (stir_ok w rng Hok)) as (Hc & He & Hs).
    rewrite Hc, He, Hs. split; [reflexivity |]. split; [reflexivity |].
    cbn [EntropyRng.stir EntropyRng.stirIndex].
    rewrite Nat.Div0.add_mod_idemp_l. f_equal. unfold EntropyRng.POOL_SIZE. lia.
Qed.

Lemma processEventBuffer_empty rng :
  EntropyRng.eventBuffer rng = [] -> EntropyRng.processEventBuffer rng = rng.
Proof.
  intros E. unfold EntropyRng.processEventBuffer. rewrite E. cbn [fold_left].
  destruct rng as [p c b s]. cbn in E. subst b. reflexivity.
Qed.

(** X14.  Event entropy is deferred, not lost or changed.  Queueing values
    touches neither the pool nor the cursor nor the counter and stores each
    as a 32-bit word; [processEventBuffer] then leaves the generator exactly
    as stirring the raw values one by one would have, empties the buffer,
    and a second call changes nothing. *)
Theorem X14_event_buffer (rng : EntropyRng.t) (values : list Z)
  (Hok : poolOk rng) (Hempty : EntropyRng.eventBuffer rng = []) :
  let queued := addEventEntropy values rng in
  let r := EntropyRng.processEventBuffer queued in
  EntropyRng.pool queued = EntropyRng.pool rng
  /\ EntropyRng.stirIndex queued = EntropyRng.stirIndex rng
  /\ EntropyRng.counter queued = EntropyRng.counter rng
  /\ Forall word32 (EntropyRng.eventBuffer queued)
  /\ r = fold_left (fun acc word => EntropyRng.stir word acc) values rng
  /\ EntropyRng.eventBuffer r = []
  /\ EntropyRng.counter r = EntropyRng.counter rng
  /\ EntropyRng.stirIndex r
     = ((EntropyRng.stirIndex rng + length values) mod 8)%nat
  /\ poolOk r
  /\ EntropyRng.processEventBuffer r = r.
Proof.
  cbn zeta.
  assert (E : EntropyRng.processEventBuffer (addEventEntropy values rng)
              = fold_left (fun acc word => EntropyRng.stir word acc) values rng).
  { unfold EntropyRng.processEventBuffer, addEventEntropy.
    cbn [EntropyRng.eventBuffer]. rewrite Hempty, app_nil_l, stirs_ushr.
    destruct (stirs_fields values rng Hok) as (Hc & He & Hs).
    destruct (stirs_fields values
      (EntropyRng.mk (EntropyRng.pool rng) (EntropyRng.counter rng)
         (map (fun v => JS.ushr v 0) values) (EntropyRng.stirIndex rng)) Hok)
      as (Hc' & He' & Hs').
    assert (Hp : forall ws b r0,
      EntropyRng.pool (fold_left (fun acc word => EntropyRng.stir word acc) ws
        (EntropyRng.mk (EntropyRng.pool r0) (EntropyRng.counter r0) b
           (EntropyRng.stirIndex r0)))
      = EntropyRng.pool (fold_left (fun acc word => EntropyRng.stir word acc) ws r0)).
    { induction ws as [| w rest IH]; intros b r0; cbn [fold_left]; [reflexivity |].
      exact (IH b (EntropyRng.stir w r0)). }
    rewrite Hp, Hc', Hs'. cbn [EntropyRng.counter EntropyRng.stirIndex].
    cbn zeta in Hc, He, Hs. rewrite Hempty in He.
    destruct (fold_left _ values rng) as [p0 c0 b0 s0].
    cbn [EntropyRng.pool EntropyRng.counter EntropyRng.eventBuffer
         EntropyRng.stirIndex] in *.
    rewrite Hc, He, Hs. reflexivity. }
  destruct (stirs_fields values rng Hok) as (Hc & He & Hs). cbn zeta in Hc, He, Hs.
  split; [reflexivity |]. split; [reflexivity |]. split; [reflexivity |].
  split.
  { unfold addEventEntropy. cbn [EntropyRng.eventBuffer]. rewrite Hempty, app_nil_l.
    clear. induction values as [| v rest IH]; cbn [map]; [apply Forall_nil_2 |].
    apply Forall_cons_2; [rewrite ushr_0; apply ToUint32_range | exact IH]. }
  rewrite E.
  split; [reflexivity |]. split; [rewrite He; exact Hempty |].
  split; [exact Hc |]. split; [exact Hs |].
  split; [apply stirs_ok; exact Hok |].
  apply processEventBuffer_empty. rewrite He. exact Hempty.
Qed.

Lemma X14_event_buffer_witness :
  poolOk (EntropyRng.create [1; 2; 3; 4; 5; 6; 7; 8])
  /\ EntropyRng.eventBuffer (EntropyRng.create [1; 2; 3; 4; 5; 6; 7; 8]) = []
  /\ EntropyRng.stirIndex
       (EntropyRng.processEventBuffer
          (addEventEntropy [-1; 7; 4294967296] (EntropyRng.create [1; 2; 3; 4; 5; 6; 7; 8])))
     = 3%nat.
Proof.
  assert (H : poolOk (EntropyRng.create [1; 2; 3; 4; 5; 6; 7; 8])).
  { split; vm_compute; [reflexivity | lia]. }
  refine (conj H (conj eq_refl _)).
  exact (proj1 (proj2 (proj2 (proj2 (proj2 (proj2 (proj2 (proj2
    (X14_event_buffer _ [-1; 7; 4294967296] H eq_refl))))))))).
Defined.

(** X15.  What the handlers queue, for any integer event fields: a mouse
    move queues [(clientX mod 2^16) * 2^16 + clientY mod 2^16] and the
    timestamp modulo 2^32; a key press queues
    [(keyCode mod 2^8) * 2^24 + timestamp mod 2^24].  Neither touches the
    pool or the cursor. *)
Theorem X15_event_words (rng : EntropyRng.t) (clientX clientY keyCode micros : Z) :
  EntropyRng.eventBuffer (onMouseMove clientX clientY micros rng)
  = EntropyRng.eventBuffer rng
    ++ [(clientX mod 2 ^ 16) * 2 ^ 16 + clientY mod 2 ^ 16; micros mod 2 ^ 32]
  /\ EntropyRng.eventBuffer (onKeyDown keyCode micros rng)
     = EntropyRng.eventBuffer rng
       ++ [(keyCode mod 2 ^ 8) * 2 ^ 24 + micros mod 2 ^ 24]
  /\ EntropyRng.pool (onMouseMove clientX clientY micros rng) = EntropyRng.pool rng
  /\ EntropyRng.pool (onKeyDown keyCode micros rng) = EntropyRng.pool rng
  /\ EntropyRng.stirIndex (onMouseMove clientX clientY micros rng)
     = EntropyRng.stirIndex rng
  /\ EntropyRng.stirIndex (onKeyDown keyCode micros rng) = EntropyRng.stirIndex rng.
Proof.
  assert (P16 : 0 < 2 ^ 16) by reflexivity.
  assert (P8 : 0 < 2 ^ 8) by reflexivity.
  assert (P24 : 0 < 2 ^ 24) by reflexivity.
  split; [| split; [| repeat split]].
  - unfold onMouseMove, addEventEntropy. cbn [EntropyRng.eventBuffer map].
    f_equal. f_equal; [| f_equal].
    + change 65535 with (2 ^ 16 - 1). rewrite !band_mask by lia.
      apply pack_word; [lia | | ];
        [change (2 ^ (32 - 16)) with (2 ^ 16) |]; apply Z.mod_pos_bound; exact P16.
    + rewrite !ushr_0. apply ToUint32_word, ToUint32_range.
  - unfold onKeyDown, addEventEntropy. cbn [EntropyRng.eventBuffer map].
    f_equal. f_equal.
    change 255 with (2 ^ 8 - 1). change 16777215 with (2 ^ 24 - 1).
    rewrite !band_mask by lia.
    rewrite (ushr_0 (JS.ushr _ 0)), ToUint32_word by (rewrite ushr_0; apply ToUint32_range).
    apply pack_word; [lia | | ];
      [change (2 ^ (32 - 24)) with (2 ^ 8) |]; apply Z.mod_pos_bound; assumption.
Qed.

(** ** The entropy feeder *)

Lemma sendSeeds_ok fresh f :
  poolOk (EntropyFeeder.rng f) ->
  let r := EntropyFeeder.sendSeeds fresh f in
  poolOk (EntropyFeeder.rng (fst r))
  /\ Forall seedBatch (snd r)
  /\ (length (snd r) <= 1)%nat
  /\ EntropyFeeder.port (fst r) = EntropyFeeder.port f
  /\ EntropyFeeder.intervalId (fst r) = EntropyFeeder.intervalId f
  /\ EntropyFeeder.running (fst r) = EntropyFeeder.running f
  /\ (EntropyFeeder.port f = true -> length (snd r) = 1%nat)
  /\ (EntropyFeeder.port f = false -> r = (f, [])).
Proof.
  intros Hok. cbn zeta. unfold EntropyFeeder.sendSeeds.
  destruct (EntropyFeeder.port f) eqn:Ep; cbn [fst snd EntropyFeeder.rng
    EntropyFeeder.port EntropyFeeder.intervalId EntropyFeeder.running length].
  - destruct (getWords_ok EntropyFeeder.WORDS_PER_FEED fresh _ Hok)
      as (Hl & Hw & Hok' & _).
    refine (conj Hok' (conj _ (conj _ (conj eq_refl (conj eq_refl (conj eq_refl
      (conj _ _))))))); try lia; try discriminate; try reflexivity.
    apply Forall_cons_2; [| apply Forall_nil_2].
    cbn [seedBatch]. split; assumption.
  - refine (conj Hok (conj (Forall_nil_2 _) (conj _ (conj Ep (conj eq_refl
      (conj eq_refl (conj _ _))))))); try lia; try discriminate; reflexivity.
Qed.

Lemma feeder_step_ok c f :
  poolOk (EntropyFeeder.rng f) ->
  poolOk (EntropyFeeder.rng (fst (EntropyFeeder.step c f)))
  /\ Forall seedBatch (snd (EntropyFeeder.step c f))
  /\ (length (snd (EntropyFeeder.step c f)) <= 1)%nat.
Proof.
  intros Hok.
  assert (Hnil : forall g, poolOk (EntropyFeeder.rng g) ->
    poolOk (EntropyFeeder.rng (fst (g, @nil WorkletMessage)))
    /\ Forall seedBatch (snd (g, @nil WorkletMessage))
    /\ (length (snd (g, @nil WorkletMessage)) <= 1)%nat).
  { intros g Hg. cbn [fst snd length]. split; [exact Hg |].
    split; [apply Forall_nil_2 | lia]. }
  assert (Hsend : forall fresh g, poolOk (EntropyFeeder.rng g) ->
    poolOk (EntropyFeeder.rng (fst (EntropyFeeder.sendSeeds fresh g)))
    /\ Forall seedBatch (snd (EntropyFeeder.sendSeeds fresh g))
    /\ (length (snd (EntropyFeeder.sendSeeds fresh g)) <= 1)%nat).
  { intros fresh g Hg. destruct (sendSeeds_ok fresh g Hg) as (H1 & H2 & H3 & _).
    auto. }
  destruct c as [| fresh | | | fresh | data fresh]; cbn [EntropyFeeder.step].
  - apply Hnil. exact Hok.
  - unfold EntropyFeeder.start. destruct (EntropyFeeder.running f); [apply Hnil, Hok |].
    cbn [fst snd EntropyFeeder.rng]. apply Hsend. exact Hok.
  - apply Hnil. exact Hok.
  - apply Hnil. exact Hok.
  - destruct (EntropyFeeder.intervalId f); [apply Hsend | apply Hnil]; exact Hok.
  - destruct (EntropyFeeder.port f); [| apply Hnil, Hok].
    destruct data as [[] |]; [apply Hsend | apply Hnil]; exact Hok.
Qed.

Lemma feeder_run_ok calls : forall f,
  poolOk (EntropyFeeder.rng f) ->
  poolOk (EntropyFeeder.rng (fst (EntropyFeeder.run calls f)))
  /\ Forall seedBatch (snd (EntropyFeeder.run calls f))
  /\ (length (snd (EntropyFeeder.run calls f)) <= length calls)%nat.
Proof.
  induction calls as [| c rest IH]; intros f Hok; cbn [EntropyFeeder.run fst snd length].
  - split; [exact Hok |]. split; [apply Forall_nil_2 | lia].
  - destruct (feeder_step_ok c f Hok) as (H1 & H2 & H3).
    destruct (IH _ H1) as (G1 & G2 & G3).
    split; [exact G1 |]. split; [apply Forall_app; split; assumption |].
    rewrite length_app. lia.
Qed.

Lemma feeder_silent calls : forall f,
  EntropyFeeder.port f = false ->
  forallb (fun c => negb (EntropyFeeder.isConnect c)) calls = true ->
  snd (EntropyFeeder.run calls f) = []
  /\ EntropyFeeder.rng (fst (EntropyFeeder.run calls f)) = EntropyFeeder.rng f
  /\ EntropyFeeder.port (fst (EntropyFeeder.run calls f)) = false.
Proof.
  induction calls as [| c rest IH]; intros f Hp Hc; cbn [EntropyFeeder.run fst snd].
  - repeat split. exact Hp.
  - cbn [forallb] in Hc. apply andb_true_iff in Hc. destruct Hc as [Hc Hrest].
    assert (Hstep : snd (EntropyFeeder.step c f) = []
                    /\ EntropyFeeder.rng (fst (EntropyFeeder.step c f)) = EntropyFeeder.rng f
                    /\ EntropyFeeder.port (fst (EntropyFeeder.step c f)) = false).
    { destruct c as [| fresh | | | fresh | data fresh]; cbn [EntropyFeeder.step];
        try discriminate Hc.
      - unfold EntropyFeeder.start, EntropyFeeder.sendSeeds.
        destruct (EntropyFeeder.running f); cbn [EntropyFeeder.port];
          rewrite ?Hp; cbn [fst snd EntropyFeeder.rng EntropyFeeder.port];
          repeat split; exact Hp.
      - cbn [fst snd EntropyFeeder.stop EntropyFeeder.rng EntropyFeeder.port].
        repeat split. exact Hp.
      - repeat split.
      - unfold EntropyFeeder.sendSeeds. rewrite Hp.
        destruct (EntropyFeeder.intervalId f); repeat split; exact Hp.
      - rewrite Hp. repeat split. exact Hp. }
    destruct Hstep as (S1 & S2 & S3).
    destruct (IH _ S3 Hrest) as (R1 & R2 & R3).
    rewrite S1, R1, R2, S2. repeat split. exact R3.
Qed.

Lemma feeder_timer c f :
  EntropyFeeder.intervalId f = EntropyFeeder.running f ->
  EntropyFeeder.intervalId (fst (EntropyFeeder.step c f))
  = EntropyFeeder.running (fst (EntropyFeeder.step c f)).
Proof.
  intros H.
  destruct c as [| fresh | | | fresh | data fresh]; cbn [EntropyFeeder.step];
    unfold EntropyFeeder.start, EntropyFeeder.sendSeeds.
  - exact H.
  - destruct (EntropyFeeder.running f) eqn:Er;
      [cbn [fst]; rewrite Er; exact H |].
    cbn [EntropyFeeder.port]. destruct (EntropyFeeder.port f); reflexivity.
  - reflexivity.
  - reflexivity.
  - destruct (EntropyFeeder.intervalId f) eqn:Ei; [| cbn [fst]; rewrite Ei; exact H].
    destruct (EntropyFeeder.port f); cbn [fst EntropyFeeder.intervalId
      EntropyFeeder.running]; rewrite ?Ei; exact H.
  - destruct (EntropyFeeder.port f); [| exact H].
    destruct data as [[] |]; [| exact H].
    destruct (EntropyFeeder.port f); exact H.
Qed.

Lemma feeder_timer_run calls : forall f,
  EntropyFeeder.intervalId f = EntropyFeeder.running f ->
  EntropyFeeder.intervalId (fst (EntropyFeeder.run calls f))
  = EntropyFeeder.running (fst (EntropyFeeder.run calls f)).
Proof.
  induction calls as [| c rest IH]; intros f H; cbn [EntropyFeeder.run fst];
    [exact H |].
  apply IH, feeder_timer, H.
Qed.

Lemma start_running fresh f :
  EntropyFeeder.running (fst (EntropyFeeder.start fresh f)) = true.
Proof.
  unfold EntropyFeeder.start, EntropyFeeder.sendSeeds.
  destruct (EntropyFeeder.running f) eqn:Er; [exact Er |].
  cbn [EntropyFeeder.port]. destruct (EntropyFeeder.port f); reflexivity.
Qed.

(** X16.  Whatever the sequence of calls, timer firings and port messages,
    every message the feeder posts is an ['entropy-seeds'] batch of exactly 8
    32-bit words, each call posts at most one, and the generator's pool stays
    well formed. *)
Theorem X16_feeder_batches (f : EntropyFeeder.t) (calls : list EntropyFeeder.Call)
    (Hok : poolOk (EntropyFeeder.rng f)) :
  Forall seedBatch (snd (EntropyFeeder.run calls f))
  /\ Forall wfMessage (snd (EntropyFeeder.run calls f))
  /\ (length (snd (EntropyFeeder.run calls f)) <= length calls)%nat
  /\ poolOk (EntropyFeeder.rng (fst (EntropyFeeder.run calls f))).
Proof.
  destruct (feeder_run_ok calls f Hok) as (H1 & H2 & H3).
  split; [exact H2 |]. split; [| split; assumption].
  clear H1 H3. induction H2 as [| msg rest Hm _ IH]; [apply Forall_nil_2 |].
  apply Forall_cons_2; [| exact IH].
  destruct msg as [seeds | seeds | m]; cbn [seedBatch wfMessage] in *; tauto.
Qed.

Lemma X16_feeder_batches_witness :
  poolOk (EntropyRng.create [1; 2; 3; 4; 5; 6; 7; 8])
  /\ Forall seedBatch
       (snd (EntropyFeeder.run
          [EntropyFeeder.Connect; EntropyFeeder.Start (fun i => Z.of_nat i);
           EntropyFeeder.Tick (fun i => 7); EntropyFeeder.Dispose]
          (EntropyFeeder.create (EntropyRng.create [1; 2; 3; 4; 5; 6; 7; 8])))).
Proof.
  assert (H : poolOk (EntropyRng.create [1; 2; 3; 4; 5; 6; 7; 8])).
  { split; vm_compute; [reflexivity | lia]. }
  split; [exact H |].
  exact (proj1 (X16_feeder_batches
    (EntropyFeeder.create (EntropyRng.create [1; 2; 3; 4; 5; 6; 7; 8])) _ H)).
Defined.

(** X17.  From construction on, the interval timer is armed exactly when
    [running] is set.  A second [start] posts nothing and changes nothing;
    [stop] is idempotent, leaves the generator alone and disarms the timer
    so that a late firing does nothing; [start] after [stop] arms it
    again. *)
Theorem X17_feeder_lifecycle (r : EntropyRng.t) (calls : list EntropyFeeder.Call)
    (fresh fresh' : nat -> Z) :
  let f := fst (EntropyFeeder.run calls (EntropyFeeder.create r)) in
  EntropyFeeder.intervalId f = EntropyFeeder.running f
  /\ EntropyFeeder.start fresh' (fst (EntropyFeeder.start fresh f))
     = (fst (EntropyFeeder.start fresh f), [])
  /\ EntropyFeeder.stop (EntropyFeeder.stop f) = EntropyFeeder.stop f
  /\ EntropyFeeder.step (EntropyFeeder.Tick fresh) (EntropyFeeder.stop f)
     = (EntropyFeeder.stop f, [])
  /\ EntropyFeeder.rng (EntropyFeeder.stop f) = EntropyFeeder.rng f
  /\ EntropyFeeder.intervalId (fst (EntropyFeeder.start fresh (EntropyFeeder.stop f)))
     = true.
Proof.
  intros f.
  split; [apply feeder_timer_run; reflexivity |].
  split.
  { pose proof (start_running fresh f) as Hr.
    unfold EntropyFeeder.start at 1. rewrite Hr. reflexivity. }
  split; [reflexivity |]. split; [reflexivity |]. split; [reflexivity |].
  unfold EntropyFeeder.start, EntropyFeeder.stop, EntropyFeeder.sendSeeds.
  cbn [EntropyFeeder.running EntropyFeeder.port].
  destruct (EntropyFeeder.port f); reflexivity.
Qed.

(** X18.  A feeder without a port is silent: after [dispose], or before any
    [connect], no sequence of starts, stops, timer firings and incoming
    messages posts anything or draws a single word from the generator. *)
Theorem X18_feeder_silent (f : EntropyFeeder.t) (calls : list EntropyFeeder.Call)
    (Hcalls : forallb (fun c => negb (EntropyFeeder.isConnect c)) calls = true) :
  snd (EntropyFeeder.run calls (EntropyFeeder.dispose f)) = []
  /\ EntropyFeeder.rng (fst (EntropyFeeder.run calls (EntropyFeeder.dispose f)))
     = EntropyFeeder.rng f
  /\ (forall r, snd (EntropyFeeder.run calls (EntropyFeeder.create r)) = []
        /\ EntropyFeeder.rng (fst (EntropyFeeder.run calls (EntropyFeeder.create r))) = r).
Proof.
  destruct (feeder_silent calls (EntropyFeeder.dispose f) eq_refl Hcalls) as (H1 & H2 & _).
  split; [exact H1 |]. split; [exact H2 |].
  intros r.
  destruct (feeder_silent calls (EntropyFeeder.create r) eq_refl Hcalls) as (G1 & G2 & _).
  split; assumption.
Qed.

Lemma X18_feeder_silent_witness :
  snd (EntropyFeeder.run
         [EntropyFeeder.Start (fun i => Z.of_nat i); EntropyFeeder.Tick (fun i => 7);
          EntropyFeeder.Receive (Some NeedSeed) (fun i => 9); EntropyFeeder.Stop]
         (EntropyFeeder.dispose
            (EntropyFeeder.connect
               (EntropyFeeder.create (EntropyRng.create [1; 2; 3; 4; 5; 6; 7; 8])))))
  = [].
Proof.
  exact (proj1 (X18_feeder_silent
    (EntropyFeeder.connect
       (EntropyFeeder.create (EntropyRng.create [1; 2; 3; 4; 5; 6; 7; 8])))
    [EntropyFeeder.Start (fun i => Z.of_nat i); EntropyFeeder.Tick (fun i => 7);
     EntropyFeeder.Receive (Some NeedSeed) (fun i => 9); EntropyFeeder.Stop]
    eq_refl)).
Defined.







(** ** dB, slider and gain *)

Lemma ln10_pos : (0 < ln 10)%R.
Proof. rewrite <- ln_1. apply ln_increasing; Lra.lra. Qed.

Lemma Rpower10_pos y : (0 < Rpower 10 y)%R.
Proof. unfold Rpower. apply exp_pos. Qed.

Lemma Rpower10_le_1 y : (y <= 0)%R -> (Rpower 10 y <= 1)%R.
Proof.
  intros H. unfold Rpower. rewrite <- exp_0.
  destruct (Req_dec y 0) as [-> | Hn].
  - rewrite Rmult_0_l. apply Rle_refl.
  - left. apply exp_increasing. pose proof ln10_pos. Lra.nra.
Qed.

Lemma Rpower10_lt x y : (x < y)%R -> (Rpower 10 x < Rpower 10 y)%R.
Proof.
  intros H. unfold Rpower. apply exp_increasing.
  pose proof ln10_pos. Lra.nra.
Qed.

(** X20.  Slider and dB mappings for a range [minDb < maxDb], in exact
    arithmetic.  [dbToSlider] always lands in [0, 1]; mapping a slider
    value to dB and back is the identity on [0, 1] and clamps to 1 above;
    mapping dB to the slider and back is the identity on (minDb, maxDb];
    a slider at or below 0, and so every level at or below [minDb], becomes
    [-Infinity]: [sliderToDb] never returns [minDb] itself. *)
Theorem X20_slider_db (minDb maxDb : R) (Hrange : (minDb < maxDb)%R) :
  (forall db, (0 <= dbToSlider db minDb maxDb <= 1)%R)
  /\ (forall s, (s <= 0)%R -> sliderToDb s minDb maxDb = MinusInfinity)
  /\ (forall s, (0 <= s <= 1)%R ->
        dbToSlider (sliderToDb s minDb maxDb) minDb maxDb = s)
  /\ (forall s, (1 <= s)%R ->
        dbToSlider (sliderToDb s minDb maxDb) minDb maxDb = 1%R)
  /\ (forall x, (minDb < x <= maxDb)%R ->
        sliderToDb (dbToSlider (FiniteDb x) minDb maxDb) minDb maxDb = FiniteDb x)
  /\ (forall x, (x <= minDb)%R ->
        sliderToDb (dbToSlider (FiniteDb x) minDb maxDb) minDb maxDb = MinusInfinity)
  /\ (forall s, sliderToDb s minDb maxDb <> FiniteDb minDb).
Proof.
  assert (Hd : (0 < maxDb - minDb)%R) by Lra.lra.
  split; [| split; [| split; [| split; [| split; [| split]]]]].
  - intros [| x]; cbn [dbToSlider]; [Lra.lra |].
    destruct (Rle_dec x minDb); [Lra.lra |].
    destruct (Rge_dec x maxDb); [Lra.lra |].
    split.
    + apply Rmult_le_pos; [Lra.lra | left; apply Rinv_0_lt_compat; exact Hd].
    + apply (Rmult_le_reg_r (maxDb - minDb)); [exact Hd |].
      unfold Rdiv. rewrite Rmult_assoc, Rinv_l by Lra.lra. Lra.lra.
  - intros s Hs. unfold sliderToDb. destruct (Rle_dec s 0); [reflexivity | Lra.lra].
  - intros s [H0 H1]. unfold sliderToDb. destruct (Rle_dec s 0) as [Hle | Hgt].
    + cbn [dbToSlider]. Lra.lra.
    + cbn [dbToSlider].
      destruct (Rle_dec (minDb + (maxDb - minDb) * s) minDb) as [Hl | _];
        [Lra.nra |].
      destruct (Rge_dec (minDb + (maxDb - minDb) * s) maxDb) as [Hg | Hl].
      * Lra.nra.
      * field. Lra.lra.
  - intros s H1. unfold sliderToDb. destruct (Rle_dec s 0); [Lra.lra |].
    cbn [dbToSlider].
    destruct (Rle_dec (minDb + (maxDb - minDb) * s) minDb); [Lra.nra |].
    destruct (Rge_dec (minDb + (maxDb - minDb) * s) maxDb); [reflexivity | Lra.nra].
  - intros x [Hl Hu]. cbn [dbToSlider].
    destruct (Rle_dec x minDb); [Lra.lra |].
    destruct (Rge_dec x maxDb) as [Hg | Hlt].
    + unfold sliderToDb. destruct (Rle_dec 1 0); [Lra.lra |]. f_equal. Lra.lra.
    + unfold sliderToDb.
      destruct (Rle_dec ((x - minDb) / (maxDb - minDb)) 0) as [Hle | _].
      * exfalso. apply (Rmult_le_compat_r (maxDb - minDb)) in Hle; [| Lra.lra].
        unfold Rdiv in Hle. rewrite Rmult_assoc, Rinv_l in Hle by Lra.lra. Lra.lra.
      * f_equal. field. Lra.lra.
  - intros x Hx. cbn [dbToSlider]. destruct (Rle_dec x minDb); [| Lra.lra].
    unfold sliderToDb. destruct (Rle_dec 0 0); [reflexivity | Lra.lra].
  - intros s. unfold sliderToDb. destruct (Rle_dec s 0) as [Hle | Hgt];
      [discriminate |].
    intros E. injection E as E. Lra.nra.
Qed.

Lemma X20_slider_db_witness :
  (-48 < 0)%R /\ dbToSlider (sliderToDb (1 / 2) (-48) 0) (-48) 0 = (1 / 2)%R.
Proof.
  assert (H : (-48 < 0)%R) by Lra.lra.
  split; [exact H |].
  apply (proj1 (proj2 (proj2 (X20_slider_db (-48) 0 H)))). Lra.lra.
Defined.

(** X21.  dB and linear gain, over the reals.  [dbToGain] is never
    negative, is 1 at 0 dB, at most 1 for levels up to 0 dB and strictly
    increasing above -100 dB; [gainToDb] inverts it above -100 dB and
    [dbToGain] inverts [gainToDb] for gains above 10^-5; at or below those
    thresholds the round trips end in [-Infinity] and 0.  A volume slider at
    most 1 gives a master gain in [0, 1] that is 0 exactly when the slider
    is at or below 0. *)
Theorem X21_gain_db :
  (forall db, (0 <= dbToGain db)%R)
  /\ dbToGain (FiniteDb 0) = 1%R
  /\ (forall x, (x <= 0)%R -> (dbToGain (FiniteDb x) <= 1)%R)
  /\ (forall x y, (-100 < x < y)%R -> (dbToGain (FiniteDb x) < dbToGain (FiniteDb y))%R)
  /\ (forall x, (-100 < x)%R -> gainToDb (dbToGain (FiniteDb x)) = FiniteDb x)
  /\ (forall x, (x <= -100)%R -> gainToDb (dbToGain (FiniteDb x)) = MinusInfinity)
  /\ gainToDb (dbToGain MinusInfinity) = MinusInfinity
  /\ (forall g, (Rpower 10 (-5) < g)%R -> dbToGain (gainToDb g) = g)
  /\ (forall g, (g <= Rpower 10 (-5))%R -> dbToGain (gainToDb g) = 0%R)
  /\ (forall s, (s <= 1)%R ->
        (0 <= dbToGain (sliderToDb s (-48) 0) <= 1)%R
        /\ (dbToGain (sliderToDb s (-48) 0) = 0%R <-> (s <= 0)%R)).
Proof.
  pose proof ln10_pos as L10.
  split; [| split; [| split; [| split; [| split; [| split; [| split;
    [| split; [| split]]]]]]]].
  - intros [| x]; cbn [dbToGain]; [Lra.lra |].
    destruct (Rle_dec x (-100)); [Lra.lra | left; apply Rpower10_pos].
  - cbn [dbToGain]. destruct (Rle_dec 0 (-100)); [Lra.lra |].
    replace (0 / 20)%R with 0%R by Lra.lra. apply Rpower_O. Lra.lra.
  - intros x Hx. cbn [dbToGain]. destruct (Rle_dec x (-100)); [Lra.lra |].
    apply Rpower10_le_1. Lra.lra.
  - intros x y [Hx Hxy]. cbn [dbToGain].
    destruct (Rle_dec x (-100)); [Lra.lra |].
    destruct (Rle_dec y (-100)); [Lra.lra |].
    apply Rpower10_lt. Lra.lra.
  - intros x Hx. cbn [dbToGain]. destruct (Rle_dec x (-100)); [Lra.lra |].
    unfold gainToDb. destruct (Rle_dec (Rpower 10 (x / 20)) 0) as [Hle | _].
    + pose proof (Rpower10_pos (x / 20)). Lra.lra.
    + f_equal. unfold Rpower. rewrite ln_exp. field. Lra.lra.
  - intros x Hx. cbn [dbToGain]. destruct (Rle_dec x (-100)); [| Lra.lra].
    unfold gainToDb. destruct (Rle_dec 0 0); [reflexivity | Lra.lra].
  - cbn [dbToGain]. unfold gainToDb. destruct (Rle_dec 0 0); [reflexivity | Lra.lra].
  - intros g Hg. pose proof (Rpower10_pos (-5)) as Hp.
    unfold gainToDb. destruct (Rle_dec g 0); [Lra.lra |].
    cbn [dbToGain].
    assert (Hln : (-5 * ln 10 < ln g)%R).
    { rewrite <- (ln_exp (-5 * ln 10)). apply ln_increasing; [apply exp_pos |].
      exact Hg. }
    assert (Hq : (-5 < ln g / ln 10)%R).
    { apply (Rmult_lt_reg_r (ln 10)); [exact L10 |].
      unfold Rdiv. rewrite Rmult_assoc, Rinv_l by Lra.lra. Lra.lra. }
    destruct (Rle_dec (20 * (ln g / ln 10)) (-100)); [Lra.lra |].
    unfold Rpower.
    replace (20 * (ln g / ln 10) / 20 * ln 10)%R with (ln g) by (field; Lra.lra).
    apply exp_ln. Lra.lra.
  - intros g Hg. unfold gainToDb. destruct (Rle_dec g 0) as [Hle | Hgt];
      [reflexivity |].
    cbn [dbToGain].
    assert (Hln : (ln g <= -5 * ln 10)%R).
    { rewrite <- (ln_exp (-5 * ln 10)).
      destruct Hg as [Hg | Hg]; [left; apply ln_increasing; [Lra.lra | exact Hg] |].
      right. f_equal. exact Hg. }
    assert (Hq : (ln g / ln 10 <= -5)%R).
    { apply (Rmult_le_reg_r (ln 10)); [exact L10 |].
      unfold Rdiv. rewrite Rmult_assoc, Rinv_l by Lra.lra. Lra.lra. }
    destruct (Rle_dec (20 * (ln g / ln 10)) (-100)); [reflexivity | Lra.lra].
  - intros s Hs. unfold sliderToDb. destruct (Rle_dec s 0) as [Hle | Hgt].
    + cbn [dbToGain]. split; [Lra.lra |]. split; intros _; [exact Hle | reflexivity].
    + cbn [dbToGain].
      destruct (Rle_dec (-48 + (0 - -48) * s) (-100)); [Lra.lra |].
      pose proof (Rpower10_pos ((-48 + (0 - -48) * s) / 20)) as Hp.
      pose proof (Rpower10_le_1 ((-48 + (0 - -48) * s) / 20) ltac:(Lra.lra)) as H1.
      split; [Lra.lra |]. split; intros H; Lra.lra.
Qed.

(** ** The audio engine *)

Lemma gainOk_step c e :
  AudioEngine.isDispose c = false -> gainOk e -> gainOk (fst (AudioEngine.step c e)).
Proof.
  intros Hc H. unfold gainOk in *.
  destruct e as [cx nn mg ef cm vol mu].
  destruct c as [loaded pool seeds fresh | playing | mode | db |];
    cbn [AudioEngine.step fst] in *; try discriminate Hc.
  - unfold AudioEngine.init. cbn [AudioEngine.ctx AudioEngine.masterGain
      AudioEngine.isMuted AudioEngine.currentVolumeDb AudioEngine.noiseNode
      AudioEngine.entropyFeeder AudioEngine.currentMode] in *.
    destruct cx; [exact H |]. destruct loaded; cbn [fst AudioEngine.ctx
      AudioEngine.masterGain AudioEngine.isMuted AudioEngine.currentVolumeDb].
    + destruct mg as [g |]; [destruct H; discriminate |].
      rewrite H. split; reflexivity.
    + destruct mg as [g |]; [destruct H; discriminate | exact H].
  - unfold AudioEngine.setPlaying. cbn [AudioEngine.ctx AudioEngine.masterGain
      AudioEngine.isMuted AudioEngine.currentVolumeDb AudioEngine.noiseNode
      AudioEngine.entropyFeeder AudioEngine.currentMode] in *.
    destruct cx; [| exact H]. destruct mg as [g |]; [| exact H].
    cbn [AudioEngine.masterGain AudioEngine.ctx AudioEngine.isMuted
         AudioEngine.currentVolumeDb].
    split; [reflexivity |]. destruct playing; reflexivity.
  - unfold AudioEngine.setMode. cbn [AudioEngine.currentMode].
    destruct (Mode_eqb mode cm); exact H.
  - unfold AudioEngine.setVolumeDb. cbn [AudioEngine.ctx AudioEngine.masterGain
      AudioEngine.isMuted AudioEngine.currentVolumeDb AudioEngine.noiseNode
      AudioEngine.entropyFeeder AudioEngine.currentMode] in *.
    destruct (Db_eqb db vol); [exact H |].
    cbn [AudioEngine.ctx AudioEngine.masterGain AudioEngine.isMuted
         AudioEngine.currentVolumeDb].
    destruct mg as [g |].
    + destruct H as [Hcx Hg]. subst cx. destruct mu; cbn [negb andb].
      * split; [reflexivity | exact Hg].
      * split; reflexivity.
    + destruct (negb mu && cx); exact H.
Qed.

Lemma gainOk_run calls : forall e,
  forallb (fun c => negb (AudioEngine.isDispose c)) calls = true ->
  gainOk e -> gainOk (fst (AudioEngine.run calls e)).
Proof.
  induction calls as [| c rest IH]; intros e Hc H; cbn [AudioEngine.run fst];
    [exact H |].
  cbn [forallb] in Hc. apply andb_true_iff in Hc. destruct Hc as [Hc Hrest].
  apply IH; [exact Hrest |]. apply gainOk_step; [| exact H].
  destruct (AudioEngine.isDispose c); [discriminate Hc | reflexivity].
Qed.

(** X22.  From a new engine and without [dispose], whatever the order of
    [init], [setPlaying], [setVolumeDb] and [setMode] calls: while the
    master gain node is missing the engine is muted, and once it exists the
    value its gain was last set or ramped to is 0 when muted and
    [dbToGain(currentVolumeDb)] otherwise, never negative.  A volume chosen
    before [init] is thus honoured by the first [setPlaying(true)]. *)
Theorem X22_engine_gain (calls : list AudioEngine.Call)
    (Hcalls : forallb (fun c => negb (AudioEngine.isDispose c)) calls = true) :
  let e := fst (AudioEngine.run calls AudioEngine.create) in
  match AudioEngine.masterGain e with
  | None => AudioEngine.isMuted e = true
  | Some g =>
      g = (if AudioEngine.isMuted e then 0%R
           else dbToGain (AudioEngine.currentVolumeDb e))
      /\ (0 <= g)%R
  end.
Proof.
  intros e.
  pose proof (gainOk_run calls AudioEngine.create Hcalls eq_refl) as H.
  fold e in H. unfold gainOk in H.
  destruct (AudioEngine.masterGain e) as [g |]; [| exact H].
  destruct H as [_ Hg]. split; [exact Hg |].
  rewrite Hg. destruct (AudioEngine.isMuted e); [Lra.lra |].
  destruct (AudioEngine.currentVolumeDb e) as [| x]; cbn [dbToGain]; [Lra.lra |].
  destruct (Rle_dec x (-100)); [Lra.lra | left; apply Rpower10_pos].
Qed.

Lemma X22_engine_gain_witness :
  match AudioEngine.masterGain
          (fst (AudioEngine.run
             [AudioEngine.SetVolumeDb (FiniteDb (-6));
              AudioEngine.Init true [] [] (fun i => Z.of_nat i);
              AudioEngine.SetPlaying true]
             AudioEngine.create)) with
  | None => False
  | Some g => (0 <= g)%R
  end.
Proof.
  pose proof (X22_engine_gain
    [AudioEngine.SetVolumeDb (FiniteDb (-6));
     AudioEngine.Init true [] [] (fun i => Z.of_nat i);
     AudioEngine.SetPlaying true] eq_refl) as H.
  cbn zeta in H.
  destruct (AudioEngine.masterGain _) as [g |] eqn:E.
  - exact (proj2 H).
  - revert E. cbn [AudioEngine.run AudioEngine.step fst].
    unfold AudioEngine.setVolumeDb at 1.
    destruct (Db_eqb _ _); cbn; discriminate.
Defined.

Lemma last_cons_head {A} (l : list A) : forall a d, last (a :: l) d = last l a.
Proof.
  induction l as [| b rest IH]; intros a d; [reflexivity |].
  change (last (a :: b :: rest) d) with (last (b :: rest) d).
  rewrite (IH b d), (IH b a). reflexivity.
Qed.

Lemma setModes_sync sr modes : forall e p,
  AudioEngine.noiseNode e = true ->
  targetMode p = AudioEngine.currentMode e ->
  let r := AudioEngine.run (map AudioEngine.SetMode modes) e in
  targetMode (handleMessages sr (snd r) p) = AudioEngine.currentMode (fst r)
  /\ AudioEngine.currentMode (fst r) = last modes (AudioEngine.currentMode e)
  /\ AudioEngine.noiseNode (fst r) = true
  /\ (length (snd r) <= length modes)%nat.
Proof.
  induction modes as [| m rest IH]; intros e p Hn Ht; cbn zeta.
  - cbn [map AudioEngine.run fst snd last length handleMessages fold_left].
    repeat split; [exact Ht | exact Hn | lia].
  - cbn [map AudioEngine.run AudioEngine.step fst snd length].
    unfold AudioEngine.setMode.
    destruct (Mode_eqb m (AudioEngine.currentMode e)) eqn:Em.
    + cbn [fst snd app].
      destruct (IH e p Hn Ht) as (H1 & H2 & H3 & H4). cbn zeta in H1, H2, H3, H4.
      apply Mode_eqb_eq in Em.
      refine (conj H1 (conj _ (conj H3 _))); [| lia].
      rewrite H2, last_cons_head. subst m. reflexivity.
    + cbn [fst snd].
      set (e1 := AudioEngine.mk (AudioEngine.ctx e) (AudioEngine.noiseNode e)
                   (AudioEngine.masterGain e) (AudioEngine.entropyFeeder e) m
                   (AudioEngine.currentVolumeDb e) (AudioEngine.isMuted e)).
      rewrite Hn. cbn [app length handleMessages fold_left].
      fold (handleMessages sr
              (snd (AudioEngine.run (map AudioEngine.SetMode rest) e1))
              (handleMessage sr (SetMode m) p)).
      assert (Hp : targetMode (handleMessage sr (SetMode m) p)
                   = AudioEngine.currentMode e1).
      { cbn [handleMessage]. rewrite Ht, Em. fields.
        destruct (Qle_bool 1 (crossfadeProgress p)); reflexivity. }
      destruct (IH e1 (handleMessage sr (SetMode m) p) Hn Hp) as (H1 & H2 & H3 & H4).
      cbn zeta in H1, H2, H3, H4.
      refine (conj H1 (conj _ (conj H3 _))); [| lia].
      rewrite H2, last_cons_head. reflexivity.
Qed.

(** X23.  With the worklet node present and the processor's target equal
    to the engine's [currentMode], any sequence of [setMode] calls, its
    messages delivered in order, leaves the processor's target equal to the
    engine's mode, namely the last mode requested; no call posts more than
    one message. *)
Theorem X23_engine_mode_sync (sampleRate : Q) (e : AudioEngine.t) (p : NoiseProcessor)
    (modes : list Mode)
    (Hnode : AudioEngine.noiseNode e = true)
    (Hsync : targetMode p = AudioEngine.currentMode e) :
  let r := AudioEngine.run (map AudioEngine.SetMode modes) e in
  let p' := handleMessages sampleRate (snd r) p in
  targetMode p' = AudioEngine.currentMode (fst r)
  /\ targetMode p' = last modes (targetMode p)
  /\ (length (snd r) <= length modes)%nat.
Proof.
  cbn zeta.
  destruct (setModes_sync sampleRate modes e p Hnode Hsync) as (H1 & H2 & _ & H4).
  cbn zeta in H1, H2, H4.
  split; [exact H1 |]. split; [| exact H4].
  rewrite H1, H2, Hsync. reflexivity.
Qed.

Lemma engine_init_ok pool initialSeeds fresh e :
  AudioEngine.ctx e = false ->
  exists batch,
    snd (AudioEngine.init true pool initialSeeds fresh e)
    = [InitialSeeds (firstn 8 (initialSeeds ++ repeat 0 8)); EntropySeeds batch]
    /\ length batch = 8%nat /\ Forall word32 batch
    /\ AudioEngine.noiseNode (fst (AudioEngine.init true pool initialSeeds fresh e)) = true
    /\ AudioEngine.ctx (fst (AudioEngine.init true pool initialSeeds fresh e)) = true
    /\ AudioEngine.currentMode (fst (AudioEngine.init true pool initialSeeds fresh e))
       = AudioEngine.currentMode e.
Proof.
  intros Hc. unfold AudioEngine.init. rewrite Hc. cbn [fst snd].
  unfold EntropyFeeder.start.
  cbn [EntropyFeeder.running EntropyFeeder.connect EntropyFeeder.create
       EntropyFeeder.rng EntropyFeeder.port EntropyFeeder.intervalId].
  set (f0 := EntropyFeeder.mk (EntropyRng.create pool) true false true).
  destruct (sendSeeds_ok fresh f0 (create_ok pool))
    as (_ & Hb & _ & _ & _ & _ & H1 & _).
  cbn zeta in Hb, H1. specialize (H1 eq_refl).
  cbn [snd].
  destruct (snd (EntropyFeeder.sendSeeds fresh f0)) as [| msg [| msg2 rest]];
    cbn [length] in H1; try discriminate H1.
  apply Forall_cons_1 in Hb. destruct Hb as [Hb _].
  destruct msg as [batch | batch | m]; cbn [seedBatch] in Hb; try contradiction.
  destruct Hb as [Hl Hw].
  exists batch. cbn [AudioEngine.noiseNode AudioEngine.ctx AudioEngine.currentMode].
  repeat split; assumption.
Qed.

(** X24.  The first successful [init] posts exactly two messages: the
    ['initial-seeds'] array of 8 words and the feeder's first batch of 8
    32-bit words.  A newly constructed processor that receives them is
    initialised, its left and right generator states are words 0-3 and 4-7
    of the seed array (the fallback constants are gone), the batch is the
    only queue entry and the crossfade fields are untouched.  Any further
    [init] returns at once. *)
Theorem X24_engine_init (sampleRate : Q) (currentFrame : Z)
    (pool initialSeeds : list Z) (fresh : nat -> Z) (e : AudioEngine.t)
    (Hctx : AudioEngine.ctx e = false) :
  let r := AudioEngine.init true pool initialSeeds fresh e in
  let seeds := firstn 8 (initialSeeds ++ repeat 0 8) in
  let p := handleMessages sampleRate (snd r) (newNoiseProcessor sampleRate currentFrame) in
  (exists batch,
     snd r = [InitialSeeds seeds; EntropySeeds batch]
     /\ length batch = 8%nat /\ Forall word32 batch
     /\ seedQueue p = [batch])
  /\ initialized p = true
  /\ stateL p = mkXoshiro (nth 0 seeds 0) (nth 1 seeds 0) (nth 2 seeds 0) (nth 3 seeds 0)
  /\ stateR p = mkXoshiro (nth 4 seeds 0) (nth 5 seeds 0) (nth 6 seeds 0) (nth 7 seeds 0)
  /\ fadeOf p = fadeOf (newNoiseProcessor sampleRate currentFrame)
  /\ (forall loaded pool' seeds' fresh',
        AudioEngine.init loaded pool' seeds' fresh' (fst r) = (fst r, [])).
Proof.
  cbn zeta.
  destruct (engine_init_ok pool initialSeeds fresh e Hctx)
    as (batch & Hm & Hl & Hw & Hn & Hc & _).
  rewrite Hm.
  assert (L8 : length (firstn 8 (initialSeeds ++ repeat 0 8)) = 8%nat).
  { rewrite length_take, length_app, repeat_length. lia. }
  set (seeds := firstn 8 (initialSeeds ++ repeat 0 8)) in *.
  cbn [handleMessages fold_left].
  assert (E1 : handleMessage sampleRate (InitialSeeds seeds)
                 (newNoiseProcessor sampleRate currentFrame)
               = set_initialized true
                   (set_states (initState (subarray 0 4 seeds))
                               (initState (subarray 4 8 seeds))
                               (newNoiseProcessor sampleRate currentFrame))).
  { cbn [handleMessage]. rewrite L8. reflexivity. }
  rewrite E1.
  destruct seeds as [| a0 [| a1 [| a2 [| a3 [| a4 [| a5 [| a6 [| a7 [| a8 tl]]]]]]]]];
    cbn [length] in L8; try discriminate L8.
  split.
  { exists batch. repeat split; try assumption. }
  split; [reflexivity |]. split; [reflexivity |]. split; [reflexivity |].
  split; [reflexivity |].
  intros loaded pool' seeds' fresh'. unfold AudioEngine.init at 1. rewrite Hc.
  reflexivity.
Qed.

Lemma X24_engine_init_witness :
  AudioEngine.ctx AudioEngine.create = false
  /\ initialized
       (handleMessages 48000
          (snd (AudioEngine.init true [1; 2; 3; 4; 5; 6; 7; 8]
                  [11; 12; 13; 14; 15; 16; 17; 18] (fun i => Z.of_nat i)
                  AudioEngine.create))
          (newNoiseProcessor 48000 0)) = true.
Proof.
  split; [reflexivity |].
  exact (proj1 (proj2 (X24_engine_init 48000 0 [1; 2; 3; 4; 5; 6; 7; 8]
    [11; 12; 13; 14; 15; 16; 17; 18] (fun i => Z.of_nat i)
    AudioEngine.create eq_refl))).
Defined.

Lemma X23_engine_mode_sync_witness :
  AudioEngine.noiseNode
    (fst (AudioEngine.init true [] [] (fun i => Z.of_nat i) AudioEngine.create)) = true
  /\ targetMode
       (handleMessages 48000
          (snd (AudioEngine.run
                  (map AudioEngine.SetMode [Brown; Brown; Pink; Brown])
                  (fst (AudioEngine.init true [] [] (fun i => Z.of_nat i)
                          AudioEngine.create))))
          (newNoiseProcessor 48000 0))
     = Brown.
Proof.
  split; [reflexivity |].
  exact (proj1 (proj2 (X23_engine_mode_sync 48000
    (fst (AudioEngine.init true [] [] (fun i => Z.of_nat i) AudioEngine.create))
    (newNoiseProcessor 48000 0) [Brown; Brown; Pink; Brown] eq_refl eq_refl))).
Defined.

(** X25.  A mode chosen before [init] never reaches the worklet.  On a new
    engine [setMode] records the mode and posts nothing, [init] does not
    send it, and every later [setMode] with that mode returns early: the
    engine reports the chosen mode while the processor's current and target
    mode are still pink. *)
Theorem X25_engine_mode_lost (sampleRate : Q) (currentFrame : Z)
    (pool initialSeeds : list Z) (fresh : nat -> Z) (mode : Mode) (k : nat) :
  let e1 := fst (AudioEngine.setMode mode AudioEngine.create) in
  let r := AudioEngine.init true pool initialSeeds fresh e1 in
  let again := AudioEngine.run (repeat (AudioEngine.SetMode mode) k) (fst r) in
  let p := handleMessages sampleRate (snd r ++ snd again)
             (newNoiseProcessor sampleRate currentFrame) in
  snd (AudioEngine.setMode mode AudioEngine.create) = []
  /\ snd again = []
  /\ AudioEngine.currentMode (fst again) = mode
  /\ targetMode p = Pink
  /\ currentMode p = Pink.
Proof.
  cbn zeta.
  assert (Hc : AudioEngine.ctx (fst (AudioEngine.setMode mode AudioEngine.create)) = false).
  { unfold AudioEngine.setMode. destruct (Mode_eqb mode _); reflexivity. }
  assert (Hm : AudioEngine.currentMode (fst (AudioEngine.setMode mode AudioEngine.create))
               = mode).
  { unfold AudioEngine.setMode. destruct (Mode_eqb mode _) eqn:E; cbn [fst];
      [apply Mode_eqb_eq in E; symmetry; exact E | reflexivity]. }
  destruct (engine_init_ok pool initialSeeds fresh _ Hc)
    as (batch & Hmsg & _ & _ & _ & _ & Hcm).
  rewrite Hm in Hcm.
  set (e2 := fst (AudioEngine.init true pool initialSeeds fresh
                    (fst (AudioEngine.setMode mode AudioEngine.create)))) in *.
  assert (Hrep : forall n, AudioEngine.run (repeat (AudioEngine.SetMode mode) n) e2
                           = (e2, [])).
  { induction n as [| n IH]; cbn [repeat AudioEngine.run AudioEngine.step];
      [reflexivity |].
    assert (Hs : AudioEngine.setMode mode e2 = (e2, [])).
    { unfold AudioEngine.setMode. rewrite Hcm, Mode_eqb_refl. reflexivity. }
    rewrite Hs. cbn [fst snd]. rewrite IH. reflexivity. }
  rewrite Hrep. cbn [fst snd]. rewrite app_nil_r, Hmsg.
  split.
  { unfold AudioEngine.setMode. destruct (Mode_eqb mode _); reflexivity. }
  split; [reflexivity |]. split; [exact Hcm |].
  cbn [handleMessages fold_left].
  assert (Hf : forall seeds q, fadeOf (handleMessage sampleRate (InitialSeeds seeds) q)
                               = fadeOf q).
  { intros seeds q. cbn [handleMessage].
    destruct (negb (initialized q) && (8 <=? length seeds)%nat); reflexivity. }
  assert (Hg : forall seeds q, fadeOf (handleMessage sampleRate (EntropySeeds seeds) q)
                               = fadeOf q) by reflexivity.
  pose proof (Hg batch (handleMessage sampleRate
    (InitialSeeds (firstn 8 (initialSeeds ++ repeat 0 8)))
    (newNoiseProcessor sampleRate currentFrame))) as E.
  rewrite Hf in E.
  split.
  - change (fTarget (fadeOf (handleMessage sampleRate (EntropySeeds batch)
      (handleMessage sampleRate
         (InitialSeeds (firstn 8 (initialSeeds ++ repeat 0 8)))
         (newNoiseProcessor sampleRate currentFrame)))) = Pink).
    rewrite E. reflexivity.
  - change (fCurrent (fadeOf (handleMessage sampleRate (EntropySeeds batch)
      (handleMessage sampleRate
         (InitialSeeds (firstn 8 (initialSeeds ++ repeat 0 8)))
         (newNoiseProcessor sampleRate currentFrame)))) = Pink).
    rewrite E. reflexivity.
Qed.

Lemma engine_dead_step c e :
  AudioEngine.isDispose c = false ->
  AudioEngine.ctx e = true -> AudioEngine.noiseNode e = false ->
  snd (AudioEngine.step c e) = []
  /\ AudioEngine.ctx (fst (AudioEngine.step c e)) = true
  /\ AudioEngine.noiseNode (fst (AudioEngine.step c e)) = false.
Proof.
  intros Hc Hx Hn.
  destruct c as [loaded pool seeds fresh | playing | mode | db |];
    cbn [AudioEngine.step fst snd]; try discriminate Hc.
  - unfold AudioEngine.init. rewrite Hx. repeat split; assumption.
  - unfold AudioEngine.setPlaying. rewrite Hx.
    destruct (AudioEngine.masterGain e); repeat split; assumption.
  - unfold AudioEngine.setMode. rewrite Hn.
    destruct (Mode_eqb mode (AudioEngine.currentMode e)); repeat split; assumption.
  - unfold AudioEngine.setVolumeDb.
    destruct (Db_eqb db (AudioEngine.currentVolumeDb e)); repeat split; assumption.
Qed.

Lemma engine_dead_run calls : forall e,
  forallb (fun c => negb (AudioEngine.isDispose c)) calls = true ->
  AudioEngine.ctx e = true -> AudioEngine.noiseNode e = false ->
  snd (AudioEngine.run calls e) = []
  /\ AudioEngine.noiseNode (fst (AudioEngine.run calls e)) = false.
Proof.
  induction calls as [| c rest IH]; intros e Hc Hx Hn; cbn [AudioEngine.run fst snd].
  - split; [reflexivity | exact Hn].
  - cbn [forallb] in Hc. apply andb_true_iff in Hc. destruct Hc as [Hc Hrest].
    destruct (engine_dead_step c e) as (S1 & S2 & S3); try assumption.
    { destruct (AudioEngine.isDispose c); [discriminate Hc | reflexivity]. }
    destruct (IH _ Hrest S2 S3) as (R1 & R2).
    rewrite S1, R1. split; [reflexivity | exact R2].
Qed.

(** X26.  After an [init] whose worklet module failed to load, the audio
    context stays assigned, so without [dispose] no later call, [init]
    included, creates the worklet node or the master gain or posts any
    message. *)
Theorem X26_engine_failed_load (pool initialSeeds : list Z) (fresh : nat -> Z)
    (calls : list AudioEngine.Call)
    (Hcalls : forallb (fun c => negb (AudioEngine.isDispose c)) calls = true) :
  let e := fst (AudioEngine.init false pool initialSeeds fresh AudioEngine.create) in
  snd (AudioEngine.run calls e) = []
  /\ AudioEngine.noiseNode (fst (AudioEngine.run calls e)) = false
  /\ AudioEngine.masterGain (fst (AudioEngine.run calls e)) = None.
Proof.
  intros e.
  destruct (engine_dead_run calls e Hcalls eq_refl eq_refl) as (H1 & H2).
  split; [exact H1 |]. split; [exact H2 |].
  assert (G : forall cs e0, AudioEngine.ctx e0 = true ->
            AudioEngine.masterGain e0 = None ->
            forallb (fun c => negb (AudioEngine.isDispose c)) cs = true ->
            AudioEngine.masterGain (fst (AudioEngine.run cs e0)) = None).
  { induction cs as [| c rest IH]; intros e0 Hx Hg Hc; cbn [AudioEngine.run fst];
      [exact Hg |].
    cbn [forallb] in Hc. apply andb_true_iff in Hc. destruct Hc as [Hc Hrest].
    apply IH; [| | exact Hrest].
    - destruct c as [loaded pool' seeds' fresh' | playing | mode | db |];
        cbn [AudioEngine.step fst]; try discriminate Hc.
      + unfold AudioEngine.init. rewrite Hx. exact Hx.
      + unfold AudioEngine.setPlaying. rewrite Hx, Hg. exact Hx.
      + unfold AudioEngine.setMode.
        destruct (Mode_eqb mode (AudioEngine.currentMode e0)); exact Hx.
      + unfold AudioEngine.setVolumeDb.
        destruct (Db_eqb db (AudioEngine.currentVolumeDb e0)); exact Hx.
    - destruct c as [loaded pool' seeds' fresh' | playing | mode | db |];
        cbn [AudioEngine.step fst]; try discriminate Hc.
      + unfold AudioEngine.init. rewrite Hx. exact Hg.
      + unfold AudioEngine.setPlaying. rewrite Hx, Hg. exact Hg.
      + unfold AudioEngine.setMode.
        destruct (Mode_eqb mode (AudioEngine.currentMode e0)); exact Hg.
      + unfold AudioEngine.setVolumeDb.
        destruct (Db_eqb db (AudioEngine.currentVolumeDb e0)); [exact Hg |].
        cbn [AudioEngine.masterGain]. rewrite Hg.
        destruct (negb (AudioEngine.isMuted e0) && AudioEngine.ctx e0); reflexivity. }
  apply G; [reflexivity | reflexivity | exact Hcalls].
Qed.

Lemma X26_engine_failed_load_witness :
  snd (AudioEngine.run
         [AudioEngine.Init true [] [] (fun i => Z.of_nat i);
          AudioEngine.SetMode Brown; AudioEngine.SetPlaying true]
         (fst (AudioEngine.init false [] [] (fun i => Z.of_nat i) AudioEngine.create)))
  = [].
Proof.
  exact (proj1 (X26_engine_failed_load [] [] (fun i => Z.of_nat i)
    [AudioEngine.Init true [] [] (fun i => Z.of_nat i);
     AudioEngine.SetMode Brown; AudioEngine.SetPlaying true] eq_refl)).
Defined.

(** ** The pomodoro controller *)

Lemma ceil_spec x : (IZR (Pomodoro.ceil x) - 1 < x <= IZR (Pomodoro.ceil x))%R.
Proof.
  unfold Pomodoro.ceil. destruct (archimed (- x)) as [H1 H2].
  rewrite minus_IZR. Lra.lra.
Qed.

Lemma ceil_bounds x (n : Z) :
  (0 < x <= IZR n)%R -> 1 <= Pomodoro.ceil x <= n.
Proof.
  intros [H0 Hn]. destruct (ceil_spec x) as [H1 H2]. split.
  - assert (H : (0 < IZR (Pomodoro.ceil x))%R) by Lra.lra.
    apply lt_IZR in H. lia.
  - assert (H : (IZR (Pomodoro.ceil x) - 1 < IZR n)%R) by Lra.lra.
    rewrite <- minus_IZR in H. apply lt_IZR in H. lia.
Qed.

Lemma ceil_IZR (n : Z) : Pomodoro.ceil (IZR n) = n.
Proof.
  destruct (ceil_spec (IZR n)) as [H1 H2].
  rewrite <- minus_IZR in H1. apply lt_IZR in H1. apply le_IZR in H2. lia.
Qed.

Lemma breakOffset_closed t :
  Pomodoro.getBreakVolumeOffset t = (-3 * (1 - Rabs (t - 150000) / 150000))%R.
Proof.
  unfold Pomodoro.getBreakVolumeOffset, Pomodoro.BREAK_DURATION_MS,
    Pomodoro.VOLUME_DROP_DB.
  replace (5 * 60 * 1000 / 2)%R with 150000%R by Lra.lra.
  destruct (Rlt_dec t 150000) as [Hlt | Hge].
  - rewrite Rabs_left by Lra.lra. field.
  - rewrite Rabs_right by Lra.lra. field.
Qed.

Lemma breakOffset_range t :
  (0 <= t <= 300000)%R -> (-3 <= Pomodoro.getBreakVolumeOffset t <= 0)%R.
Proof.
  intros [H0 H1]. rewrite breakOffset_closed.
  assert (Ha : (0 <= Rabs (t - 150000) <= 150000)%R).
  { split; [apply Rabs_pos |]. apply Rabs_le. Lra.lra. }
  assert (Hq : (0 <= Rabs (t - 150000) / 150000 <= 1)%R).
  { split.
    - apply Rmult_le_pos; [apply Ha | Lra.lra].
    - apply (Rmult_le_reg_r 150000); [Lra.lra |].
      unfold Rdiv. rewrite Rmult_assoc, Rinv_l by Lra.lra. Lra.lra. }
  Lra.lra.
Qed.

Lemma emitUpdate_ok clock c : pomodoroOk clock c -> updateOk (Pomodoro.emitUpdate c).
Proof.
  intros (He & Hl & _ & Hv & Hw & _). unfold updateOk, Pomodoro.emitUpdate.
  cbn [Pomodoro.uMinutes Pomodoro.uPhase Pomodoro.uLpfHz Pomodoro.uVolumeOffsetDb].
  cbn zeta in He.
  refine (conj _ (conj Hl (conj Hv Hw))).
  unfold Pomodoro.duration, Pomodoro.WORK_DURATION_MS, Pomodoro.BREAK_DURATION_MS in *.
  destruct (Pomodoro.phase c).
  - pose proof (ceil_bounds
      ((25 * 60 * 1000 - Pomodoro.elapsedMs (Pomodoro.state c)) / 60000) 25) as H.
    assert (Hx : (0 < (25 * 60 * 1000 - Pomodoro.elapsedMs (Pomodoro.state c)) / 60000
                  <= 25)%R) by Lra.lra.
    specialize (H Hx). lia.
  - pose proof (ceil_bounds
      ((5 * 60 * 1000 - Pomodoro.elapsedMs (Pomodoro.state c)) / 60000) 5) as H.
    assert (Hx : (0 < (5 * 60 * 1000 - Pomodoro.elapsedMs (Pomodoro.state c)) / 60000
                  <= 5)%R) by Lra.lra.
    specialize (H Hx). lia.
Qed.

Lemma alpha_range dt :
  (0 <= dt)%R -> (0 <= 1 - exp (- Rmin (dt / 1000) 1 / 8) < 1)%R.
Proof.
  intros Hd.
  assert (Hm : (0 <= Rmin (dt / 1000) 1)%R).
  { apply Rmin_glb; Lra.lra. }
  pose proof (exp_pos (- Rmin (dt / 1000) 1 / 8)) as Hp.
  assert (He : (exp (- Rmin (dt / 1000) 1 / 8) <= 1)%R).
  { apply Rle_trans with (exp 0); [| rewrite exp_0; apply Rle_refl].
    destruct (Req_dec (Rmin (dt / 1000) 1) 0) as [E | N].
    - rewrite E. replace (- 0 / 8)%R with 0%R by Lra.lra. apply Rle_refl.
    - left. apply exp_increasing. Lra.lra. }
  Lra.lra.
Qed.

Lemma stepLpf_ok dt roll r s :
  (0 <= dt)%R ->
  (4500 <= Pomodoro.lpfHz s <= 6000)%R ->
  (4500 <= Pomodoro.targetLpfHz s <= 6000)%R ->
  let s' := Pomodoro.stepLpf (Rmin (dt / 1000) 1) roll r s in
  (4500 <= Pomodoro.lpfHz s' <= 6000)%R
  /\ (4500 <= Pomodoro.targetLpfHz s' <= 6000)%R
  /\ Pomodoro.elapsedMs s' = Pomodoro.elapsedMs s.
Proof.
  intros Hd Hl Ht. cbn zeta. unfold Pomodoro.stepLpf.
  cbn [Pomodoro.lpfHz Pomodoro.targetLpfHz Pomodoro.elapsedMs].
  unfold Pomodoro.LPF_TAU_SEC, Pomodoro.LPF_MIN_HZ, Pomodoro.LPF_MAX_HZ,
    Pomodoro.LPF_CENTER_HZ, Pomodoro.LPF_TARGET_UPDATE_INTERVAL.
  pose proof (alpha_range dt Hd) as Ha.
  set (alpha := (1 - exp (- Rmin (dt / 1000) 1 / 8))%R) in *.
  set (target := if Rlt_dec roll (Rmin (dt / 1000) 1 / 10)
                 then Rmax 4500 (Rmin 6000 (5250 + (6000 - 4500) * 0.5 * (r * 2 - 1)))
                 else Pomodoro.targetLpfHz s).
  assert (Htg : (4500 <= target <= 6000)%R).
  { unfold target. destruct (Rlt_dec roll (Rmin (dt / 1000) 1 / 10)); [| exact Ht].
    split; [apply Rmax_l |].
    apply Rmax_lub; [Lra.lra | apply Rmin_l]. }
  split; [| split; [exact Htg | reflexivity]].
  split; Lra.nra.
Qed.

Lemma tick_ok clock now roll r c :
  (clock <= now)%R -> pomodoroOk clock c ->
  pomodoroOk now (fst (Pomodoro.tick now roll r c))
  /\ Forall updateOk (snd (Pomodoro.tick now roll r c)).
Proof.
  intros Hn Hok.
  destruct (Pomodoro.running c) eqn:Er.
  2:{ unfold Pomodoro.tick. rewrite Er. cbn [negb fst snd].
      split; [| apply Forall_nil_2].
      destruct Hok as (H1 & H2 & H3 & H4 & H5 & H6).
      refine (conj H1 (conj H2 (conj H3 (conj H4 (conj H5 _))))).
      rewrite Er. discriminate. }
  assert (Hnext : pomodoroOk now (fst (Pomodoro.tick now roll r c))).
  { unfold Pomodoro.tick. rewrite Er. cbn [negb fst].
    destruct Hok as (He & Hl & Ht & Hv & Hw & Hr). cbn zeta in He.
    specialize (Hr Er).
    assert (Hd : (0 <= now - Pomodoro.lastTime c)%R) by Lra.lra.
    set (s1 := Pomodoro.mkState
                 (Pomodoro.elapsedMs (Pomodoro.state c) + (now - Pomodoro.lastTime c))
                 (Pomodoro.lpfHz (Pomodoro.state c))
                 (Pomodoro.targetLpfHz (Pomodoro.state c))
                 (Pomodoro.volumeOffsetDb (Pomodoro.state c))).
    destruct (stepLpf_ok (now - Pomodoro.lastTime c) roll r s1 Hd Hl Ht)
      as (Hl2 & Ht2 & He2).
    cbn zeta in Hl2, Ht2, He2.
    set (s2 := Pomodoro.stepLpf (Rmin ((now - Pomodoro.lastTime c) / 1000) 1) roll r s1)
      in *.
    unfold pomodoroOk.
    cbn [Pomodoro.state Pomodoro.phase Pomodoro.running Pomodoro.lastTime
         Pomodoro.elapsedMs Pomodoro.lpfHz Pomodoro.targetLpfHz
         Pomodoro.volumeOffsetDb].
    rewrite He2. cbn [s1 Pomodoro.elapsedMs].
    unfold Pomodoro.duration, Pomodoro.WORK_DURATION_MS, Pomodoro.BREAK_DURATION_MS in *.
    destruct (Pomodoro.phase c).
    - destruct (Rge_dec _ _) as [Hg | Hg]; cbn [fst snd].
      + pose proof (breakOffset_range 0 ltac:(Lra.lra)) as Hb.
        refine (conj _ (conj Hl2 (conj Ht2 (conj Hb (conj _ _)))));
          [Lra.lra | discriminate | intros _; Lra.lra].
      + refine (conj _ (conj Hl2 (conj Ht2 (conj _ (conj _ _)))));
          [Lra.lra | Lra.lra | reflexivity | intros _; Lra.lra].
    - destruct (Rge_dec _ _) as [Hg | Hg]; cbn [fst snd].
      + refine (conj _ (conj Hl2 (conj Ht2 (conj _ (conj _ _)))));
          [Lra.lra | Lra.lra | reflexivity | intros _; Lra.lra].
      + assert (Hb : (-3 <= Pomodoro.getBreakVolumeOffset
                          (Pomodoro.elapsedMs (Pomodoro.state c)
                           + (now - Pomodoro.lastTime c)) <= 0)%R).
        { apply breakOffset_range. Lra.lra. }
        refine (conj _ (conj Hl2 (conj Ht2 (conj Hb (conj _ _)))));
          [Lra.lra | discriminate | intros _; Lra.lra]. }
  split; [exact Hnext |].
  assert (Hs : snd (Pomodoro.tick now roll r c)
               = [Pomodoro.emitUpdate (fst (Pomodoro.tick now roll r c))]).
  { unfold Pomodoro.tick. rewrite Er. reflexivity. }
  rewrite Hs. apply Forall_cons_2; [| apply Forall_nil_2].
  apply (emitUpdate_ok now). exact Hnext.
Qed.

Lemma pomodoroOk_later clock clock' c :
  (clock <= clock')%R -> pomodoroOk clock c -> pomodoroOk clock' c.
Proof.
  intros Hc (H1 & H2 & H3 & H4 & H5 & H6).
  refine (conj H1 (conj H2 (conj H3 (conj H4 (conj H5 _))))).
  intros Hr. specialize (H6 Hr). Lra.lra.
Qed.

Lemma start_ok clock now c :
  (clock <= now)%R -> pomodoroOk clock c ->
  pomodoroOk now (fst (Pomodoro.start now c))
  /\ Forall updateOk (snd (Pomodoro.start now c)).
Proof.
  intros Hn Hok. unfold Pomodoro.start.
  destruct (Pomodoro.running c) eqn:Er; cbn [fst snd].
  - split; [apply (pomodoroOk_later clock); assumption | apply Forall_nil_2].
  - assert (Hnext : pomodoroOk now
      (Pomodoro.mk (Pomodoro.phase c) (Pomodoro.state c) now true true)).
    { destruct Hok as (H1 & H2 & H3 & H4 & H5 & H6).
      refine (conj H1 (conj H2 (conj H3 (conj H4 (conj H5 _))))).
      intros _. cbn [Pomodoro.lastTime]. Lra.lra. }
    split; [exact Hnext |].
    apply Forall_cons_2; [| apply Forall_nil_2].
    apply (emitUpdate_ok now). exact Hnext.
Qed.

Lemma stop_ok clock c : pomodoroOk clock (Pomodoro.stop c).
Proof.
  unfold pomodoroOk, Pomodoro.stop, Pomodoro.initialState, Pomodoro.duration,
    Pomodoro.WORK_DURATION_MS, Pomodoro.LPF_CENTER_HZ.
  cbn [Pomodoro.state Pomodoro.phase Pomodoro.running Pomodoro.lastTime
       Pomodoro.elapsedMs Pomodoro.lpfHz Pomodoro.targetLpfHz Pomodoro.volumeOffsetDb].
  repeat split; try Lra.lra; discriminate.
Qed.

Lemma pomodoro_run_ok calls : forall clock c,
  Pomodoro.chronological clock calls -> pomodoroOk clock c ->
  Forall updateOk (snd (Pomodoro.run calls c)).
Proof.
  induction calls as [| e rest IH]; intros clock c Hch Hok;
    cbn [Pomodoro.run snd]; [apply Forall_nil_2 |].
  apply Forall_app. destruct e as [now | now roll r |];
    cbn [Pomodoro.chronological Pomodoro.step] in *.
  - destruct Hch as [Hn Hrest]. destruct (start_ok clock now c Hn Hok) as [H1 H2].
    split; [exact H2 |]. apply (IH now); assumption.
  - destruct Hch as [Hn Hrest].
    destruct (tick_ok clock now roll r c Hn Hok) as [H1 H2].
    split; [exact H2 |]. apply (IH now); assumption.
  - cbn [fst snd]. split; [apply Forall_nil_2 |].
    apply (IH clock); [exact Hch | apply stop_ok].
Qed.

(** X27.  With clock readings that never go back, every update the
    pomodoro controller emits, across starts, frames and stops, has between
    1 and 25 minutes in a work phase and between 1 and 5 in a break, a
    low-pass frequency within 4500-6000 Hz, a volume offset within
    [-3, 0] dB, and offset 0 during work. *)
Theorem X27_pomodoro_updates (calls : list Pomodoro.Call)
    (Hclock : Pomodoro.chronological 0 calls) :
  Forall updateOk (snd (Pomodoro.run calls Pomodoro.create)).
Proof.
  apply (pomodoro_run_ok calls 0 Pomodoro.create Hclock).
  unfold pomodoroOk, Pomodoro.create, Pomodoro.initialState, Pomodoro.duration,
    Pomodoro.WORK_DURATION_MS, Pomodoro.LPF_CENTER_HZ.
  cbn [Pomodoro.state Pomodoro.phase Pomodoro.running Pomodoro.lastTime
       Pomodoro.elapsedMs Pomodoro.lpfHz Pomodoro.targetLpfHz Pomodoro.volumeOffsetDb].
  repeat split; try Lra.lra; discriminate.
Qed.

Lemma X27_pomodoro_updates_witness :
  Pomodoro.chronological 0
    [Pomodoro.Start 10; Pomodoro.Tick 26 (1 / 2) (1 / 4); Pomodoro.Stop;
     Pomodoro.Start 40]
  /\ Forall updateOk
       (snd (Pomodoro.run
          [Pomodoro.Start 10; Pomodoro.Tick 26 (1 / 2) (1 / 4); Pomodoro.Stop;
           Pomodoro.Start 40]
          Pomodoro.create)).
Proof.
  assert (H : Pomodoro.chronological 0
    [Pomodoro.Start 10; Pomodoro.Tick 26 (1 / 2) (1 / 4); Pomodoro.Stop;
     Pomodoro.Start 40]).
  { cbn [Pomodoro.chronological]. repeat split; Lra.lra. }
  split; [exact H |].
  exact (X27_pomodoro_updates _ H).
Defined.

(** X28.  The break dip is the tent [-3 * (1 - |t - 150000| / 150000)] dB:
    continuous, symmetric about the middle of the break, 0 at its start,
    -3 at its middle, and within [-3, 0] throughout the 300000 ms of a
    break. *)
Theorem X28_break_offset (t : R) :
  Pomodoro.getBreakVolumeOffset t = (-3 * (1 - Rabs (t - 150000) / 150000))%R
  /\ Pomodoro.getBreakVolumeOffset (300000 - t) = Pomodoro.getBreakVolumeOffset t
  /\ Pomodoro.getBreakVolumeOffset 0 = 0%R
  /\ Pomodoro.getBreakVolumeOffset 150000 = (-3)%R
  /\ ((0 <= t <= 300000)%R -> (-3 <= Pomodoro.getBreakVolumeOffset t <= 0)%R).
Proof.
  split; [apply breakOffset_closed |].
  split.
  { rewrite !breakOffset_closed.
    replace (300000 - t - 150000)%R with (- (t - 150000))%R by Lra.lra.
    rewrite Rabs_Ropp. reflexivity. }
  split.
  { rewrite breakOffset_closed.
    rewrite Rabs_left by Lra.lra. field. }
  split.
  { rewrite breakOffset_closed.
    replace (150000 - 150000)%R with 0%R by Lra.lra. rewrite Rabs_R0. field. }
  apply breakOffset_range.
Qed.

(** X29.  [stop] resets the controller, whatever its state: a following
    [start] emits one update announcing a work phase with 25 minutes, 5250
    Hz and no volume offset, a second [start] is ignored, a frame callback
    arriving after [stop] does nothing, and [stop] is idempotent. *)
Theorem X29_pomodoro_restart (c : Pomodoro.t) (now : R) :
  let r := Pomodoro.start now (Pomodoro.stop c) in
  (exists u, snd r = [u]
     /\ Pomodoro.uPhase u = Pomodoro.Work /\ Pomodoro.uMinutes u = 25
     /\ Pomodoro.uLpfHz u = 5250%R /\ Pomodoro.uVolumeOffsetDb u = 0%R)
  /\ Pomodoro.start now (fst r) = (fst r, [])
  /\ (forall now' roll r', Pomodoro.tick now' roll r' (Pomodoro.stop c)
                           = (Pomodoro.stop c, []))
  /\ Pomodoro.stop (Pomodoro.stop c) = Pomodoro.stop c.
Proof.
  cbn zeta. split; [| repeat split].
  eexists. split; [reflexivity |].
  cbn [Pomodoro.emitUpdate Pomodoro.uPhase Pomodoro.uMinutes Pomodoro.uLpfHz
       Pomodoro.uVolumeOffsetDb Pomodoro.phase Pomodoro.state Pomodoro.stop
       Pomodoro.initialState Pomodoro.elapsedMs Pomodoro.lpfHz
       Pomodoro.volumeOffsetDb].
  unfold Pomodoro.emitUpdate.
  cbn [Pomodoro.uPhase Pomodoro.uMinutes Pomodoro.uLpfHz
       Pomodoro.uVolumeOffsetDb Pomodoro.phase Pomodoro.state
       Pomodoro.elapsedMs Pomodoro.lpfHz Pomodoro.volumeOffsetDb].
  split; [reflexivity |]. split; [| split; reflexivity].
  unfold Pomodoro.WORK_DURATION_MS.
  replace ((25 * 60 * 1000 - 0) / 60000)%R with (IZR 25) by (simpl; Lra.lra).
  rewrite ceil_IZR. reflexivity.
Qed.
